(** * GulpIO dataset adapters: a shallow embedding of [gulpio/adapters.py]

    First the model: Python values and exceptions, the label index, the
    string, path and slice operations the adapters call, the collaborators,
    the adapter objects and the store, the manifest parsers, and the four
    adapters with their constructors and generators. Then the properties of
    the adapter contract. *)

From Stdlib Require Import ZArith String Ascii List.
From stdpp Require Import base option list sets gmap strings sorting pretty.

Open Scope string_scope.
Open Scope list_scope.
Open Scope nat_scope.

(** ** Python values, exceptions and results *)

(** The values stored in a MetaRecord: strings ([id], [label], [path]) and
    integers ([idx]). *)
Inductive pyval : Type :=
  | PStr (s : string)
  | PInt (n : Z).

(** [str(v)] *)
Definition py_str (v : pyval) : string :=
  match v with
  | PStr s => s
  | PInt n => pretty n
  end.

(** The exceptions that the module raises or lets through. *)
Inductive exn : Type :=
  | KeyError (key : string)
  | IndexError
  | ValueError (msg : string)
  | NameError (name : string)
  | RuntimeError (msg : string)
  | ImageNotFound (msg : string)
  | OSError (msg : string)
  | OtherError (msg : string).

(** A computation either raises or returns. *)
Abbreviation result := (sum exn).

#[global] Instance result_ret : MRet result := λ A x, inr x.
#[global] Instance result_bind : MBind result := λ A B f x,
  match x with
  | inl e => inl e
  | inr a => f a
  end.

(** [d[key]]: subscripting a dict raises [KeyError] on a missing key. *)
Definition getitem {V} (d : gmap string V) (key : string) : result V :=
  match d !! key with
  | Some v => inr v
  | None => inl (KeyError key)
  end.

(** [enumerate(l)] *)
Definition enumerate {A} (l : list A) : list (nat * A) :=
  imap (λ i x, (i, x)) l.

(** [sorted(l)] on strings; Python compares strings by code point, which on
    UTF-8 encoded text is the bytewise lexicographic order [String.le]. *)
Definition sorted (l : list string) : list string :=
  merge_sort String.le l.

(** [set(l)] *)
Definition py_set (l : list string) : gset string := list_to_set l.

(** Iterating over a set (the order is whatever the table gives). *)
Definition set_iter (s : gset string) : list string := elements s.

(** ** The label index *)

(** [Custom20BNAdapterMixin.create_label2idx_dict]: the labels are read with
    a list comprehension, which raises at the first record without the
    field; the dict is filled by the loop over [enumerate(labels)]. *)
Definition create_label2idx_dict (label_name : string)
    (data : list (gmap string string)) : result (gmap string nat) :=
  items ← mapM (λ item, getitem item label_name) data;
  let labels := sorted (set_iter (py_set items)) in
  mret (foldl (λ labels2idx '(label_counter, label),
                 <[label := label_counter]> labels2idx)
              ∅ (enumerate labels)).

(** A dict comprehension [{k: v for ...}] inserts the pairs in order. *)
Definition dict_comprehension {V} (kvs : list (string * V)) : gmap string V :=
  foldl (λ d kv, <[kv.1 := kv.2]> d) ∅ kvs.

(** [ImageListAdapter.create_label2idx_dict] *)
Definition il_create_label2idx_dict
    (data : list (gmap string string)) : result (gmap string nat) :=
  items ← mapM (λ item, getitem item "label") data;
  let labels := sorted (set_iter (py_set items)) in
  mret (dict_comprehension
          ((λ '(label_counter, label), (label, label_counter))
             <$> enumerate labels)).

(** [ImageFolderAdapter.create_label2idx_dict] (the same text as the
    image-list one). *)
Definition if_create_label2idx_dict
    (data : list (gmap string string)) : result (gmap string nat) :=
  items ← mapM (λ item, getitem item "label") data;
  let labels := sorted (set_iter (py_set items)) in
  mret (dict_comprehension
          ((λ '(label_counter, label), (label, label_counter))
             <$> enumerate labels)).

(** The reference definition of the label index, after the specification: the
    distinct labels form a set, and a label is mapped to its rank in the
    lexicographic order, that is to the number of distinct labels strictly
    below it. *)
Definition str_lt (x y : string) : Prop := String.le x y ∧ x ≠ y.

#[global] Instance str_lt_dec x y : Decision (str_lt x y).
Proof. unfold str_lt. apply _. Defined.

Definition label_rank (labels : gset string) (l : string) : nat :=
  size (filter (λ x, str_lt x l) labels).

Definition build_index_ref (labels : list string) : gmap string nat :=
  let distinct : gset string := list_to_set labels in
  set_to_map (λ l, (l, label_rank distinct l)) distinct.

(** The label of every record, when every record has the field. *)
Definition labels_of (label_name : string)
    (data : list (gmap string string)) : option (list string) :=
  mapM (λ item, item !! label_name) data.

(** The sorted list of distinct labels, as all three methods compute it. *)
Definition sorted_labels (items : list string) : list string :=
  sorted (set_iter (py_set items)).

(** What every adapter's label index is, by the reference definition: the
    ranks of the distinct labels, or [KeyError] when a record has no label
    field. *)
Definition label_index_ref (label_name : string)
    (data : list (gmap string string)) : result (gmap string nat) :=
  match labels_of label_name data with
  | Some items => inr (build_index_ref items)
  | None => inl (KeyError label_name)
  end.

(** ** Strings and paths *)

Definition slash : ascii := "/"%char.

(** [s.endswith(suffix)]: [s] is the suffix, or what follows its first
    character ends with it. *)
Fixpoint endswith (s suffix : string) : bool :=
  bool_decide (s = suffix)
  || match s with
     | EmptyString => false
     | String _ s' => endswith s' suffix
     end.

(** [s.startswith(prefix)] *)
Definition startswith (s pre : string) : bool :=
  bool_decide (substring 0 (String.length pre) s = pre).

(** [s.split(sep)] for a one-character separator; the result is never
    empty. *)
Fixpoint split_on (sep : ascii) (s : string) : list string :=
  match s with
  | EmptyString => [""]
  | String c s' =>
      if decide (c = sep) then "" :: split_on sep s'
      else match split_on sep s' with
           | [] => [String c ""]
           | w :: ws => String c w :: ws
           end
  end.

(** [l[-1]] on a list of strings that [split] returned. *)
Definition last_item (l : list string) : string := default "" (last l).

(** Strings are held as their UTF-8 bytes: [split], [endswith], the path
    functions and the lexicographic order then agree with Python's on the
    decoded text. *)

(** Python's [str.isspace] on the ASCII range. *)
Definition py_isspace (c : ascii) : bool :=
  let n := nat_of_ascii c in
  ((9 <=? n) && (n <=? 13)) || ((28 <=? n) && (n <=? 32)).

(** The whitespace characters beyond ASCII, by their UTF-8 bytes: U+0085
    and U+00A0 take two bytes; U+1680, U+2000 to U+200A, U+2028, U+2029,
    U+202F, U+205F and U+3000 take three. *)
Definition two_byte_space (c d : ascii) : bool :=
  let c := N_of_ascii c in let d := N_of_ascii d in
  ((c =? 194) && ((d =? 133) || (d =? 160)))%N.

Definition three_byte_space (c d e : ascii) : bool :=
  let c := N_of_ascii c in let d := N_of_ascii d in let e := N_of_ascii e in
  ((c =? 225) && (d =? 154) && (e =? 128)
   || (c =? 226) && (d =? 128)
      && ((128 <=? e) && (e <=? 138) || (e =? 168) || (e =? 169) || (e =? 175))
   || (c =? 226) && (d =? 129) && (e =? 159)
   || (c =? 227) && (d =? 128) && (e =? 128))%N.

(** Removing the whitespace characters that a string starts with, given
    what counts as a whitespace character of one, two and three bytes. *)
Fixpoint lstrip_with (sp1 : ascii → bool) (sp2 : ascii → ascii → bool)
    (sp3 : ascii → ascii → ascii → bool) (s : string) : string :=
  match s with
  | EmptyString => ""
  | String c s1 =>
      if sp1 c then lstrip_with sp1 sp2 sp3 s1
      else
        match s1 with
        | EmptyString => s
        | String d s2 =>
            if sp2 c d then lstrip_with sp1 sp2 sp3 s2
            else
              match s2 with
              | EmptyString => s
              | String e s3 =>
                  if sp3 c d e then lstrip_with sp1 sp2 sp3 s3 else s
              end
        end
  end.

Definition lstrip (s : string) : string :=
  lstrip_with py_isspace two_byte_space three_byte_space s.

(** At the end of the string the bytes of a character are met in reverse. *)
Definition rstrip (s : string) : string :=
  String.rev
    (lstrip_with py_isspace (λ d c, two_byte_space c d)
                 (λ e d c, three_byte_space c d e) (String.rev s)).

(** [s.strip()] *)
Definition strip (s : string) : string := rstrip (lstrip s).

(** Iterating over a file opened with [newline='\n']: a line ends at a
    line feed, which it keeps. *)
Fixpoint file_lines (s : string) : list string :=
  match s with
  | EmptyString => []
  | String c s' =>
      if decide (c = "010"%char) then String c "" :: file_lines s'
      else match file_lines s' with
           | [] => [String c ""]
           | l :: ls => String c l :: ls
           end
  end.

(** Iterating over a file opened in text mode with the default universal
    newlines: a line ends at a line feed, at a carriage return or at a
    carriage return followed by a line feed, and its ending is read as a
    line feed. *)
Fixpoint text_lines (s : string) : list string :=
  match s with
  | EmptyString => []
  | String c s' =>
      if decide (c = "013"%char) then
        match s' with
        | String d s'' =>
            if decide (d = "010"%char) then
              String "010" "" :: text_lines s''
            else String "010" "" :: text_lines s'
        | EmptyString => [String "010" ""]
        end
      else if decide (c = "010"%char) then String c "" :: text_lines s'
      else match text_lines s' with
           | [] => [String c ""]
           | l :: ls => String c l :: ls
           end
  end.

Fixpoint has_slash (p : string) : bool :=
  match p with
  | EmptyString => false
  | String c p' => bool_decide (c = slash) || has_slash p'
  end.

(** [os.path.basename(p)]: what follows the last slash. *)
Fixpoint basename (p : string) : string :=
  match p with
  | EmptyString => ""
  | String c p' =>
      if has_slash p' then basename p'
      else if decide (c = slash) then p' else p
  end.

(** [p[:p.rfind('/') + 1]] *)
Fixpoint head_of_path (p : string) : string :=
  match p with
  | EmptyString => ""
  | String c p' =>
      if has_slash p' then String c (head_of_path p')
      else if decide (c = slash) then "/" else ""
  end.

Fixpoint all_slashes (s : string) : bool :=
  match s with
  | EmptyString => true
  | String c s' => bool_decide (c = slash) && all_slashes s'
  end.

(** [head.rstrip('/')] *)
Fixpoint rstrip_slash (s : string) : string :=
  match s with
  | EmptyString => ""
  | String c s' =>
      match rstrip_slash s' with
      | EmptyString => if decide (c = slash) then "" else String c ""
      | r => String c r
      end
  end.

(** [os.path.dirname(p)] *)
Definition dirname (p : string) : string :=
  let head := head_of_path p in
  if negb (bool_decide (head = "")) && negb (all_slashes head)
  then rstrip_slash head else head.

(** One step of [os.path.join]. *)
Definition path_join2 (path b : string) : string :=
  if startswith b "/" then b
  else if bool_decide (path = "") || endswith path "/" then path +:+ b
  else path +:+ "/" +:+ b.

(** [os.path.join(a, *p)] *)
Definition os_path_join (a : string) (p : list string) : string :=
  foldl path_join2 a p.

(** ** Slices *)

(** A [slice(start, stop, step)] object; [None] fields are absent. *)
Record pyslice : Type := Slice {
  sl_start : option Z;
  sl_stop : option Z;
  sl_step : option Z
}.

(** [slice(a, b)] *)
Definition slice2 (a b : Z) : pyslice := Slice (Some a) (Some b) None.

(** [slice.indices(len)]: the clamped start, stop and step. *)
Definition slice_indices (s : pyslice) (len : Z) : result (Z * Z * Z) :=
  let step := default 1%Z (sl_step s) in
  if (step =? 0)%Z then inl (ValueError "slice step cannot be zero")
  else
    let lower := if (step <? 0)%Z then (-1)%Z else 0%Z in
    let upper := if (step <? 0)%Z then (len - 1)%Z else len in
    let clamp v :=
      if (v <? 0)%Z then Z.max (v + len) lower else Z.min v upper in
    let start :=
      match sl_start s with
      | None => if (step <? 0)%Z then upper else lower
      | Some v => clamp v
      end in
    let stop :=
      match sl_stop s with
      | None => if (step <? 0)%Z then lower else upper
      | Some v => clamp v
      end in
    inr (start, stop, step).

(** The number of selected positions. *)
Definition slice_length (start stop step : Z) : Z :=
  if (step <? 0)%Z then
    if (stop <? start)%Z then ((start - stop - 1) / (- step) + 1)%Z else 0%Z
  else
    if (start <? stop)%Z then ((stop - start - 1) / step + 1)%Z else 0%Z.

(** [l[s]] for a slice [s]: a new list of the selected elements. *)
Definition list_getslice {A} (l : list A) (s : pyslice) : result (list A) :=
  '(start, stop, step) ← slice_indices s (Z.of_nat (length l));
  let n := Z.to_nat (slice_length start stop step) in
  mret (omap (λ k, l !! Z.to_nat (start + Z.of_nat k * step)) (seq 0 n)).

(** ** The collaborators *)

(** A decoded and resized image. *)
Record frame : Type := Frame { pixels : string }.

(** What the module takes from outside: the functions imported from
    [.utils], and the library calls that reach the file system or the
    random generator. Each is a function of its arguments for the length of
    one run. *)
Record Env : Type := {
  (* from .utils *)
  get_single_video_path : string → string → result string;
  find_images_in_folder : string → list string → result (list string);
  resize_images : list string → Z → result (list frame);
  resize_by_short_edge : string → Z → result frame;
  burst_video_into_frames : string → string → Z → result (list string);
  temp_dir_for_bursting : string → result string;
  (* open(path, 'r') and gzip.open(path, 'rt'), with what is read from the
     file; json.load on the manifests that the adapter is written for, a
     JSON array of objects whose values are strings: for any other
     document Python goes on with values that this model has no type for,
     and what is stated of the JSON constructor is stated of these
     manifests *)
  open_text : string → result string;
  gzip_open_text : string → result string;
  json_load : string → result (list (gmap string string));
  (* open(path, 'w') *)
  open_write : string → result unit;
  (* glob.glob(pattern, recursive=True) *)
  glob_glob : string → list string;
  (* random.shuffle, on the list of record references *)
  random_shuffle : list nat → list nat;
  random_shuffle_perm : ∀ l, random_shuffle l ≡ₚ l
}.

(** ** Adapter objects and the store *)

(** The four concrete classes. *)
Inductive adapter_class : Type :=
  | JsonVideo
  | CsvJpeg
  | ImageList
  | ImageFolder.

#[global] Instance adapter_class_eq_dec : EqDecision adapter_class.
Proof. solve_decision. Defined.

(** The attributes of an adapter object. [labels2idx] is spelled
    [label2idx] in the two image classes, [frame_size] is [img_size] there;
    an attribute a class does not have keeps its initial value. [all_meta]
    holds references to the MetaRecord dicts in the store. *)
Record adapter : Type := Adapter {
  cls : adapter_class;
  json_file : string;
  input_file : string;
  root_folder : string;
  file_extensions : list string;
  data : list (gmap string string);
  output_folder : string;
  labels2idx : gmap string nat;
  folder : string;
  shuffle : bool;
  frame_size : Z;
  frame_rate : Z;
  shm_dir_path : string;
  all_meta : list nat
}.

(** The state of a run: the adapter object, the MetaRecord dicts it refers
    to, the files written so far (path and content, oldest first) and what
    was printed. *)
Record world : Type := World {
  self : adapter;
  heap : list (gmap string pyval);
  files : list (string * gmap string nat);
  stdout : list string
}.

(** [len(adapter)] *)
Definition py_len (a : adapter) : nat := length (data a).

(** The dict behind a reference. *)
Definition deref (w : world) (meta : nat) : gmap string pyval :=
  default ∅ (heap w !! meta).

Definition set_all_meta (metas : list nat) (a : adapter) : adapter :=
  Adapter (cls a) (json_file a) (input_file a) (root_folder a)
          (file_extensions a) (data a) (output_folder a) (labels2idx a)
          (folder a) (shuffle a) (frame_size a) (frame_rate a)
          (shm_dir_path a) metas.

Definition set_self (a : adapter) (w : world) : world :=
  World a (heap w) (files w) (stdout w).

(** [meta.pop(key, None)] on the dict behind [meta]. *)
Definition heap_pop (meta : nat) (key : string) (w : world) : world :=
  World (self w) (alter (delete key) meta (heap w)) (files w) (stdout w).

(** [print(msg)] *)
Definition print (msg : string) (w : world) : world :=
  World (self w) (heap w) (files w) (stdout w ++ [msg]).

(** What [label2idx.json] holds once written: its path and the label index
    as a JSON object. *)
Definition label_file (a : adapter) : string * gmap string nat :=
  (os_path_join (output_folder a) ["label2idx.json"], labels2idx a).

(** [write_label2idx_dict]: [json.dump] of the label index into
    [label2idx.json] under the output folder; opening the file may fail. *)
Definition write_label2idx_dict (E : Env) (w : world) : result world :=
  _ ← open_write E (label_file (self w)).1;
  mret (World (self w) (heap w) (files w ++ [label_file (self w)]) (stdout w)).

(** ** Manifest parsers *)

(** The record reader of the [csv] module (CPython 3.11 and later) with
    the default dialect (the double quote as quote character, doubled inside
    a quoted field, no escape character, not strict), the default field size
    limit and the given delimiter. [None] stands for the end of a line. *)
Inductive csv_state : Type :=
  | START_RECORD
  | START_FIELD
  | IN_FIELD
  | IN_QUOTED_FIELD
  | QUOTE_IN_QUOTED_FIELD
  | EAT_CRNL.

#[global] Instance csv_state_eq_dec : EqDecision csv_state.
Proof. solve_decision. Defined.

Record csv_parser : Type := CsvParser {
  cs_state : csv_state;
  cs_field : string;
  cs_fields : list string
}.

Definition csv_reset : csv_parser := CsvParser START_RECORD "" [].

Definition is_newline (c : ascii) : bool :=
  bool_decide (c = "010"%char) || bool_decide (c = "013"%char).

Definition quotechar : ascii := "034"%char.

(** [csv.field_size_limit()] *)
Definition field_limit : N := 131072%N.

(** The number of characters of a string held as UTF-8: the bytes that do
    not continue a character. *)
Fixpoint code_points (s : string) : N :=
  match s with
  | EmptyString => 0%N
  | String c s' =>
      let n := N_of_ascii c in
      if ((128 <=? n) && (n <=? 191))%N then code_points s'
      else N.succ (code_points s')
  end.

(** A character is refused once the field holds [field_limit] characters;
    the bytes that continue a character belong to a character that was
    accepted. *)
Definition parse_add_char (p : csv_parser) (c : ascii) (st : csv_state)
    : result csv_parser :=
  let n := N_of_ascii c in
  if negb ((128 <=? n) && (n <=? 191))%N
     && (field_limit <=? code_points (cs_field p))%N
  then inl (OtherError "field larger than field limit (131072)")
  else inr (CsvParser st (cs_field p +:+ String c "") (cs_fields p)).

Definition parse_save_field (p : csv_parser) (st : csv_state) : csv_parser :=
  CsvParser st "" (cs_fields p ++ [cs_field p]).

Definition set_state (p : csv_parser) (st : csv_state) : csv_parser :=
  CsvParser st (cs_field p) (cs_fields p).

Definition start_field (delimiter : ascii) (p : csv_parser) (c : option ascii)
    : result csv_parser :=
  match c with
  | None => inr (parse_save_field p START_RECORD)
  | Some c =>
      if is_newline c then inr (parse_save_field p EAT_CRNL)
      else if decide (c = quotechar) then inr (set_state p IN_QUOTED_FIELD)
      else if decide (c = delimiter) then inr (parse_save_field p START_FIELD)
      else parse_add_char p c IN_FIELD
  end.

Definition parse_process_char (delimiter : ascii) (p : csv_parser)
    (c : option ascii) : result csv_parser :=
  match cs_state p with
  | START_RECORD =>
      match c with
      | None => inr p
      | Some c' =>
          if is_newline c' then inr (set_state p EAT_CRNL)
          else start_field delimiter p c
      end
  | START_FIELD => start_field delimiter p c
  | IN_FIELD =>
      match c with
      | None => inr (parse_save_field p START_RECORD)
      | Some c =>
          if is_newline c then inr (parse_save_field p EAT_CRNL)
          else if decide (c = delimiter) then inr (parse_save_field p START_FIELD)
          else parse_add_char p c IN_FIELD
      end
  | IN_QUOTED_FIELD =>
      match c with
      | None => inr p
      | Some c =>
          if decide (c = quotechar) then inr (set_state p QUOTE_IN_QUOTED_FIELD)
          else parse_add_char p c IN_QUOTED_FIELD
      end
  | QUOTE_IN_QUOTED_FIELD =>
      match c with
      | None => inr (parse_save_field p START_RECORD)
      | Some c =>
          if decide (c = quotechar) then parse_add_char p c IN_QUOTED_FIELD
          else if decide (c = delimiter) then inr (parse_save_field p START_FIELD)
          else if is_newline c then inr (parse_save_field p EAT_CRNL)
          else parse_add_char p c IN_FIELD
      end
  | EAT_CRNL =>
      match c with
      | None => inr (set_state p START_RECORD)
      | Some c =>
          if is_newline c then inr p
          else inl (OtherError "new-line character seen in unquoted field")
      end
  end.

Fixpoint parse_line (delimiter : ascii) (p : csv_parser) (line : string)
    : result csv_parser :=
  match line with
  | EmptyString => parse_process_char delimiter p None
  | String c line' =>
      p' ← parse_process_char delimiter p (Some c);
      parse_line delimiter p' line'
  end.

(** Iterating over [csv.reader(f, delimiter=...)]: the reader parses one
    row at each step, from as many lines as the row takes. What is kept
    here is the rows it gives, in order, and the exception that ends the
    iteration, if one does: the rows before it have been handed to the
    loop by then. *)
Fixpoint csv_rows (delimiter : ascii) (p : csv_parser) (lines : list string)
    : list (list string) * option exn :=
  match lines with
  | [] =>
      if negb (bool_decide (cs_field p = ""))
         || bool_decide (cs_state p = IN_QUOTED_FIELD)
      then ([cs_fields p ++ [cs_field p]], None)
      else ([], None)
  | line :: lines' =>
      match parse_line delimiter p line with
      | inl e => ([], Some e)
      | inr p' =>
          if decide (cs_state p' = START_RECORD) then
            let '(rows, stop) := csv_rows delimiter csv_reset lines' in
            (cs_fields p' :: rows, stop)
          else csv_rows delimiter p' lines'
      end
  end.

Definition csv_reader (f : string) (delimiter : ascii)
    : list (list string) * option exn :=
  csv_rows delimiter csv_reset (file_lines f).

(** [row[i]] on a list. *)
Definition list_item (row : list string) (i : nat) : result string :=
  match row !! i with
  | Some x => inr x
  | None => inl IndexError
  end.

(** [Custom20BNCsvJpegAdapter.read_csv]: the loop body runs on each row as
    the reader gives it, so a row that is too short raises before a later
    line can make the reader raise. *)
Definition read_csv (E : Env) (csv_file : string)
    : result (list (gmap string string)) :=
  f ← open_text E csv_file;
  let '(content, stop) := csv_reader f ";"%char in
  data ← mapM (λ row,
                 id ← list_item row 0;
                 label ← list_item row 1;
                 mret ({[ "id" := id; "label" := label ]}
                        : gmap string string))
              content;
  match stop with
  | Some e => inl e
  | None => inr data
  end.

(** [Custom20BNJsonVideoAdapter.read_json] and [read_gz_json] *)
Definition read_json (E : Env) (json_file : string)
    : result (list (gmap string string)) :=
  f ← open_text E json_file;
  json_load E f.

Definition read_gz_json (E : Env) (gz_json_file : string)
    : result (list (gmap string string)) :=
  fp ← gzip_open_text E gz_json_file;
  json_load E fp.

(** [ImageListAdapter.parse_paths]: every line is stripped and split at the
    commas, and must unpack into exactly a path and a label. *)
Definition parse_paths (E : Env) (input_file : string)
    : result (list (gmap string string)) :=
  f ← open_text E input_file;
  let item_list := (λ item, split_on ","%char (strip item)) <$> text_lines f in
  mapM (λ item,
          match item with
          | [img_path; label_name] =>
              inr ({[ "id" := basename img_path; "label" := label_name;
                      "path" := img_path ]} : gmap string string)
          | [] | [_] => inl (ValueError "not enough values to unpack")
          | _ => inl (ValueError "too many values to unpack")
          end)
       item_list.

(** [ImageFolderAdapter.parse_folder]. The loop over the extensions only
    rebinds [paths]; [img_paths.extend(paths)] comes after the loop, where
    [paths] is unbound if the loop ran zero times. *)
Definition parse_folder (E : Env) (file_extensions : list string)
    (folder : string) : result (list (gmap string string)) :=
  let img_paths : list string := [] in
  let paths :=
    foldl (λ (paths : option (list string)) extension,
             let search_pattern :=
               os_path_join (folder +:+ "**/*" +:+ extension) [] in
             Some (glob_glob E search_pattern))
          None file_extensions in
  match paths with
  | None => inl (NameError "paths")
  | Some paths =>
      let img_paths := img_paths ++ paths in
      let img_paths := sorted img_paths in
      mret ((λ img_path,
               let path := dirname img_path in
               let category_name := last_item (split_on slash path) in
               let img_name := basename img_path in
               ({[ "id" := img_name; "label" := category_name;
                   "path" := path ]} : gmap string string))
              <$> img_paths)
  end.

(** ** Iteration *)

(** An IterationResult: [meta] is the MetaRecord dict itself (a reference
    into the store), not a copy. *)
Record iter_result : Type := IterResult {
  r_meta : nat;
  r_frames : list frame;
  r_id : pyval
}.

(** What a call of [next] on a generator gives. *)
Inductive outcome : Type :=
  | Yield (r : iter_result)
  | StopIteration
  | Raise (e : exn).

(** A generator made by [iter_data]: not yet started (it holds the
    argument), suspended at the [yield] inside the loop (it holds what the
    list iterator has left), or finished. *)
Inductive gen_state : Type :=
  | GenCreated (slice_element : option pyslice)
  | GenSuspended (rest : list nat)
  | GenFinished.

(** [iter_data(slice_element)]: calling a generator function runs none of
    its body. *)
Definition iter_data (slice_element : option pyslice) : gen_state :=
  GenCreated slice_element.

(** The [else] clause of the loops: it runs when the loop ends, and the
    generator then finishes. *)
Definition loop_else (E : Env) (w : world) : outcome * gen_state * world :=
  match write_label2idx_dict E w with
  | inl e => (Raise e, GenFinished, w)
  | inr w' => (StopIteration, GenFinished, w')
  end.

(** [slice_element or slice(0, len(self))]: a slice object is true. *)
Definition slice_or_default (slice_element : option pyslice) (w : world)
    : pyslice :=
  default (slice2 0 (Z.of_nat (py_len (self w)))) slice_element.

(** A loop whose body either raises or reaches the [yield]. *)
Definition loop_step (body : Env → world → nat → result iter_result)
    (E : Env) (rest : list nat) (w : world) : outcome * gen_state * world :=
  match rest with
  | [] => loop_else E w
  | meta :: rest' =>
      match body E w meta with
      | inl e => (Raise e, GenFinished, w)
      | inr result => (Yield result, GenSuspended rest', w)
      end
  end.

(** The three generators that iterate over a slice of [all_meta] and leave
    the attribute alone. *)
Definition iter_sliced (body : Env → world → nat → result iter_result)
    (E : Env) (g : gen_state) (w : world) : outcome * gen_state * world :=
  match g with
  | GenCreated slice_element =>
      match list_getslice (all_meta (self w))
                          (slice_or_default slice_element w) with
      | inl e => (Raise e, GenFinished, w)
      | inr metas => loop_step body E metas w
      end
  | GenSuspended rest => loop_step body E rest w
  | GenFinished => (StopIteration, GenFinished, w)
  end.

(** ** The four adapters *)

(** A fresh store for the dicts that [get_meta] built: [all_meta] refers to
    them in order, and is shuffled in place when [shuffle] is set. *)
Definition fresh_world (E : Env) (a : adapter)
    (metas : list (gmap string pyval)) : world :=
  let all_meta := seq 0 (length metas) in
  let all_meta := if shuffle a then random_shuffle E all_meta else all_meta in
  World (set_all_meta all_meta a) metas [] [].

Module Custom20BNJsonVideoAdapter.

Definition get_meta (labels2idx : gmap string nat)
    (data : list (gmap string string)) : result (list (gmap string pyval)) :=
  mapM (λ entry,
          id ← getitem entry "id";
          label ← getitem entry "template";
          idx ← getitem labels2idx label;
          mret ({[ "id" := PStr id; "label" := PStr label;
                   "idx" := PInt (Z.of_nat idx) ]} : gmap string pyval))
       data.

Definition init (E : Env) (json_file folder output_folder : string)
    (shuffle : bool) (frame_size frame_rate : Z) (shm_dir_path : string)
    : result world :=
  data ← (if endswith json_file ".json.gz" then read_gz_json E json_file
          else if endswith json_file ".json" then read_json E json_file
          else inl (RuntimeError
                      "Wrong data file format (.json.gz or .json)"));
  labels2idx ← create_label2idx_dict "template" data;
  metas ← get_meta labels2idx data;
  mret (fresh_world E
          (Adapter JsonVideo json_file "" "" [] data output_folder
                   labels2idx folder shuffle frame_size frame_rate
                   shm_dir_path [])
          metas).

Definition body (E : Env) (w : world) (meta : nat) : result iter_result :=
  id ← getitem (deref w meta) "id";
  let video_folder := os_path_join (folder (self w)) [py_str id] in
  video_path ← get_single_video_path E video_folder "mp4";
  temp_burst_dir ← temp_dir_for_bursting E (shm_dir_path (self w));
  frame_paths ← burst_video_into_frames E video_path temp_burst_dir
                  (frame_rate (self w));
  frames ← resize_images E frame_paths (frame_size (self w));
  id ← getitem (deref w meta) "id";
  mret (IterResult meta frames id).

Definition iter_data_next := iter_sliced body.

End Custom20BNJsonVideoAdapter.

Module Custom20BNCsvJpegAdapter.

Definition get_meta (labels2idx : gmap string nat)
    (data : list (gmap string string)) : result (list (gmap string pyval)) :=
  mapM (λ entry,
          id ← getitem entry "id";
          label ← getitem entry "label";
          idx ← getitem labels2idx label;
          mret ({[ "id" := PStr id; "label" := PStr label;
                   "idx" := PInt (Z.of_nat idx) ]} : gmap string pyval))
       data.

Definition init (E : Env) (csv_file folder output_folder : string)
    (shuffle : bool) (frame_size : Z) (shm_dir_path : string)
    : result world :=
  data ← read_csv E csv_file;
  labels2idx ← create_label2idx_dict "label" data;
  metas ← get_meta labels2idx data;
  mret (fresh_world E
          (Adapter CsvJpeg "" "" "" [] data output_folder labels2idx
                   folder shuffle frame_size 0 shm_dir_path [])
          metas).

Definition body (E : Env) (w : world) (meta : nat) : result iter_result :=
  id ← getitem (deref w meta) "id";
  let video_folder := os_path_join (folder (self w)) [py_str id] in
  frame_paths ← find_images_in_folder E video_folder ["jpg"];
  frames ← resize_images E frame_paths (frame_size (self w));
  id ← getitem (deref w meta) "id";
  mret (IterResult meta frames id).

Definition iter_data_next := iter_sliced body.

End Custom20BNCsvJpegAdapter.

Module ImageListAdapter.

Definition get_meta (label2idx : gmap string nat)
    (data : list (gmap string string)) : result (list (gmap string pyval)) :=
  mapM (λ entry,
          id ← getitem entry "id";
          label ← getitem entry "label";
          path ← getitem entry "path";
          idx ← getitem label2idx label;
          mret ({[ "id" := PStr id; "label" := PStr label;
                   "path" := PStr path;
                   "idx" := PInt (Z.of_nat idx) ]} : gmap string pyval))
       data.

Definition init (E : Env) (input_file output_folder root_folder : string)
    (shuffle : bool) (img_size : Z) : result world :=
  data ← parse_paths E input_file;
  label2idx ← il_create_label2idx_dict data;
  metas ← get_meta label2idx data;
  mret (fresh_world E
          (Adapter ImageList "" input_file root_folder [] data
                   output_folder label2idx root_folder shuffle img_size 0
                   "" [])
          metas).

(** The loop over [self.all_meta]: a record whose image is not found is
    printed and skipped; the others lose their [path] and are yielded. *)
Fixpoint loop (E : Env) (rest : list nat) (w : world)
    : outcome * gen_state * world :=
  match rest with
  | [] => loop_else E w
  | meta :: rest' =>
      match getitem (deref w meta) "path" with
      | inl e => (Raise e, GenFinished, w)
      | inr path =>
          let img_path :=
            os_path_join (root_folder (self w)) [py_str path] in
          match resize_by_short_edge E img_path (frame_size (self w)) with
          | inl (ImageNotFound e) => loop E rest' (print e w)
          | inl e => (Raise e, GenFinished, w)
          | inr img =>
              let w' := heap_pop meta "path" w in
              match getitem (deref w' meta) "id" with
              | inl e => (Raise e, GenFinished, w')
              | inr id =>
                  (Yield (IterResult meta [img] id), GenSuspended rest', w')
              end
          end
      end
  end.

(** The generator first rebinds [self.all_meta] to the slice. *)
Definition iter_data_next (E : Env) (g : gen_state) (w : world)
    : outcome * gen_state * world :=
  match g with
  | GenCreated slice_element =>
      match list_getslice (all_meta (self w))
                          (slice_or_default slice_element w) with
      | inl e => (Raise e, GenFinished, w)
      | inr metas => loop E metas (set_self (set_all_meta metas (self w)) w)
      end
  | GenSuspended rest => loop E rest w
  | GenFinished => (StopIteration, GenFinished, w)
  end.

End ImageListAdapter.

Module ImageFolderAdapter.

Definition get_meta (label2idx : gmap string nat)
    (data : list (gmap string string)) : result (list (gmap string pyval)) :=
  mapM (λ entry,
          id ← getitem entry "id";
          label ← getitem entry "label";
          path ← getitem entry "path";
          idx ← getitem label2idx label;
          mret ({[ "id" := PStr id; "label" := PStr label;
                   "path" := PStr path;
                   "idx" := PInt (Z.of_nat idx) ]} : gmap string pyval))
       data.

Definition init (E : Env) (folder output_folder : string)
    (file_extensions : list string) (shuffle : bool) (img_size : Z)
    : result world :=
  data ← parse_folder E file_extensions folder;
  label2idx ← if_create_label2idx_dict data;
  metas ← get_meta label2idx data;
  mret (fresh_world E
          (Adapter ImageFolder "" "" "" file_extensions data output_folder
                   label2idx folder shuffle img_size 0 "" [])
          metas).

Definition body (E : Env) (w : world) (meta : nat) : result iter_result :=
  path ← getitem (deref w meta) "path";
  id ← getitem (deref w meta) "id";
  let img_path :=
    os_path_join (folder (self w)) [py_str path; py_str id] in
  img ← resize_by_short_edge E img_path (frame_size (self w));
  id ← getitem (deref w meta) "id";
  mret (IterResult meta [img] id).

Definition iter_data_next := iter_sliced body.

End ImageFolderAdapter.

(** A constructor call with its arguments. *)
Inductive ctor_call : Type :=
  | NewJsonVideo (json_file folder output_folder : string) (shuffle : bool)
                 (frame_size frame_rate : Z) (shm_dir_path : string)
  | NewCsvJpeg (csv_file folder output_folder : string) (shuffle : bool)
               (frame_size : Z) (shm_dir_path : string)
  | NewImageList (input_file output_folder root_folder : string)
                 (shuffle : bool) (img_size : Z)
  | NewImageFolder (folder output_folder : string)
                   (file_extensions : list string) (shuffle : bool)
                   (img_size : Z).

Definition construct (E : Env) (call : ctor_call) : result world :=
  match call with
  | NewJsonVideo json_file folder output_folder shuffle frame_size frame_rate
                 shm_dir_path =>
      Custom20BNJsonVideoAdapter.init E json_file folder output_folder shuffle
        frame_size frame_rate shm_dir_path
  | NewCsvJpeg csv_file folder output_folder shuffle frame_size shm_dir_path =>
      Custom20BNCsvJpegAdapter.init E csv_file folder output_folder shuffle
        frame_size shm_dir_path
  | NewImageList input_file output_folder root_folder shuffle img_size =>
      ImageListAdapter.init E input_file output_folder root_folder shuffle
        img_size
  | NewImageFolder folder output_folder file_extensions shuffle img_size =>
      ImageFolderAdapter.init E folder output_folder file_extensions shuffle
        img_size
  end.

(** The RawRecords that a constructor call parses from its manifest. *)
Definition manifest_records (E : Env) (call : ctor_call)
    : result (list (gmap string string)) :=
  match call with
  | NewJsonVideo json_file _ _ _ _ _ _ =>
      if endswith json_file ".json.gz" then read_gz_json E json_file
      else if endswith json_file ".json" then read_json E json_file
      else inl (RuntimeError "Wrong data file format (.json.gz or .json)")
  | NewCsvJpeg csv_file _ _ _ _ _ => read_csv E csv_file
  | NewImageList input_file _ _ _ _ => parse_paths E input_file
  | NewImageFolder folder _ file_extensions _ _ =>
      parse_folder E file_extensions folder
  end.

(** The same call with another value for [shuffle]. *)
Definition with_shuffle (b : bool) (call : ctor_call) : ctor_call :=
  match call with
  | NewJsonVideo f d o _ s r m => NewJsonVideo f d o b s r m
  | NewCsvJpeg f d o _ s m => NewCsvJpeg f d o b s m
  | NewImageList f o r _ s => NewImageList f o r b s
  | NewImageFolder d o x _ s => NewImageFolder d o x b s
  end.

(** [next(g)] for a generator of the adapter in the store. *)
Definition gen_next (E : Env) (g : gen_state) (w : world)
    : outcome * gen_state * world :=
  match cls (self w) with
  | JsonVideo => Custom20BNJsonVideoAdapter.iter_data_next E g w
  | CsvJpeg => Custom20BNCsvJpegAdapter.iter_data_next E g w
  | ImageList => ImageListAdapter.iter_data_next E g w
  | ImageFolder => ImageFolderAdapter.iter_data_next E g w
  end.

(** How a consumer's pulling ended. *)
Inductive ending : Type :=
  | Exhausted
  | Raised (e : exn)
  | Abandoned.

(** A consumer that calls [next] at most [n] times and then stops: the
    results it got, how it ended, and the generator and store it leaves. *)
Fixpoint consume (E : Env) (n : nat) (g : gen_state) (w : world)
    : list iter_result * ending * gen_state * world :=
  match n with
  | 0 => ([], Abandoned, g, w)
  | S n' =>
      match gen_next E g w with
      | (Yield r, g', w') =>
          let '(rs, e, g'', w'') := consume E n' g' w' in
          (r :: rs, e, g'', w'')
      | (StopIteration, g', w') => ([], Exhausted, g', w')
      | (Raise e, g', w') => ([], Raised e, g', w')
      end
  end.

(** How many records a generator still has to go through. *)
Definition gen_bound (g : gen_state) (w : world) : nat :=
  match g with
  | GenCreated slice_element =>
      match list_getslice (all_meta (self w))
                          (slice_or_default slice_element w) with
      | inl _ => 0
      | inr metas => length metas
      end
  | GenSuspended rest => length rest
  | GenFinished => 0
  end.

(** [list(g)]: pulling until the generator stops or raises. *)
Definition drain (E : Env) (g : gen_state) (w : world)
    : list iter_result * ending * gen_state * world :=
  consume E (S (gen_bound g w)) g w.

(** ** Example environments *)

(** An environment in which every collaborator succeeds, apart from what
    the three arguments decide: the text of the files, the image loader and
    the glob results. Shuffling reverses the list. *)
Definition example_env (text : string → result string)
    (image : string → Z → result frame) (globs : string → list string)
    : Env := {|
  get_single_video_path := λ video_folder format_,
    inr (video_folder +:+ "/video." +:+ format_);
  find_images_in_folder := λ video_folder formats,
    inr [video_folder +:+ "/00001.jpg"];
  resize_images := λ frame_paths size, inr (Frame <$> frame_paths);
  resize_by_short_edge := image;
  burst_video_into_frames := λ video_path temp_dir rate,
    inr [temp_dir +:+ "/00001.jpg"];
  temp_dir_for_bursting := λ shm, inr (shm +:+ "/burst");
  open_text := text;
  gzip_open_text := text;
  json_load := λ content, inr [];
  open_write := λ path, inr tt;
  glob_glob := globs;
  random_shuffle := reverse;
  random_shuffle_perm := reverse_Permutation
|}.

(** Every image is there. *)
Definition image_found (img_path : string) (size : Z) : result frame :=
  inr (Frame img_path).

(** The CSV manifest of the specification's example. *)
Definition csv_example_text : string :=
  "1;cat" +:+ String "010" "" +:+ "2;dog" +:+ String "010" ""
  +:+ "3;cat" +:+ String "010" "".

(** An image list of two lines. *)
Definition list_example_text : string :=
  "imgs/a.jpg,cat" +:+ String "010" "" +:+ "imgs/b.jpg,dog" +:+ String "010" "".

Definition list_example_env : Env :=
  example_env (λ _, inr list_example_text) image_found (λ _, []).

(** ** What a run is expected to produce *)

(** What the loop body does with one record: it yields it, skips it (the
    image-list adapter alone, on [ImageNotFound]) or raises. *)
Inductive acquisition : Type :=
  | Acquired
  | Skipped (msg : string)
  | Failed (e : exn).

Definition body_acquisition (r : result iter_result) : acquisition :=
  match r with
  | inl e => Failed e
  | inr _ => Acquired
  end.

Definition acquisition_of (E : Env) (w : world) (meta : nat) : acquisition :=
  match cls (self w) with
  | JsonVideo => body_acquisition (Custom20BNJsonVideoAdapter.body E w meta)
  | CsvJpeg => body_acquisition (Custom20BNCsvJpegAdapter.body E w meta)
  | ImageFolder => body_acquisition (ImageFolderAdapter.body E w meta)
  | ImageList =>
      match getitem (deref w meta) "path" with
      | inl e => Failed e
      | inr path =>
          match resize_by_short_edge E
                  (os_path_join (root_folder (self w)) [py_str path])
                  (frame_size (self w)) with
          | inl (ImageNotFound msg) => Skipped msg
          | inl e => Failed e
          | inr _ =>
              match getitem (delete "path" (deref w meta)) "id" with
              | inl e => Failed e
              | inr _ => Acquired
              end
          end
      end
  end.

(** The records a full pass over [rest] yields, in order, and the exception
    that ends it early, if any. *)
Fixpoint expected_run (E : Env) (w : world) (rest : list nat)
    : list nat * option exn :=
  match rest with
  | [] => ([], None)
  | meta :: rest' =>
      match acquisition_of E w meta with
      | Acquired =>
          let '(metas, e) := expected_run E w rest' in (meta :: metas, e)
      | Skipped _ => expected_run E w rest'
      | Failed e => ([], Some e)
      end
  end.

(** How a pass ends once the loop is over or has raised. *)
Definition expected_ending (E : Env) (w : world) (e : option exn) : ending :=
  match e with
  | Some e => Raised e
  | None =>
      match open_write E (label_file (self w)).1 with
      | inl e => Raised e
      | inr _ => Exhausted
      end
  end.

Definition is_skipped (E : Env) (w : world) (meta : nat) : bool :=
  match acquisition_of E w meta with
  | Skipped _ => true
  | _ => false
  end.

Definition is_failed (E : Env) (w : world) (meta : nat) : bool :=
  match acquisition_of E w meta with
  | Failed _ => true
  | _ => false
  end.

(** Two adapter objects that differ at most in [all_meta]. *)
Definition same_config (a a' : adapter) : Prop :=
  set_all_meta [] a = set_all_meta [] a'.

(** The state that a constructor leaves: [all_meta] refers to each
    MetaRecord once, there is one MetaRecord per RawRecord, each with its
    [id] (and its [path], where the class has one), and nothing has been
    written or printed yet. *)
Definition has_path (c : adapter_class) : bool :=
  match c with
  | ImageList | ImageFolder => true
  | JsonVideo | CsvJpeg => false
  end.

Definition well_formed (w : world) : Prop :=
  all_meta (self w) ≡ₚ seq 0 (length (heap w))
  ∧ length (heap w) = length (data (self w))
  ∧ files w = [] ∧ stdout w = []
  ∧ Forall (λ d : gmap string pyval,
              is_Some (d !! "id")
              ∧ (has_path (cls (self w)) = true → is_Some (d !! "path")))
           (heap w).

(** A folder with one [.jpg] and one [.png] image, as [glob] sees it. *)
Definition folder_example_globs (pattern : string) : list string :=
  if decide (pattern = "root/**/*.jpg") then ["root/cat/a.jpg"]
  else if decide (pattern = "root/**/*.png") then ["root/dog/b.png"]
  else [].

Definition folder_example_env : Env :=
  example_env (λ _, inl (OSError "No such file or directory")) image_found
              folder_example_globs.

Definition csv_example_env : Env :=
  example_env (λ _, inr csv_example_text) image_found (λ _, []).

(** The world of a successful construction (an empty one otherwise). *)
Definition world_of (r : result world) : world :=
  match r with
  | inr w => w
  | inl _ => World (Adapter ImageList "" "" "" [] [] "" ∅ "" false 0 0 "" [])
                   [] [] []
  end.

Definition list_example_world : world :=
  world_of (construct list_example_env
              (NewImageList "list.txt" "out" "root" false (-1))).

(** An image loader that finds no image. *)
Definition image_missing (img_path : string) (size : Z) : result frame :=
  inl (ImageNotFound ("Image not found: " +:+ img_path)).

(** For the image-list adapter: the [path] entry of a stored MetaRecord. *)
Definition path_of (w : world) (meta : nat) : option pyval :=
  deref w meta !! "path".

(** A record that the image-list loop will not yield: its [path] is
    gone, or its image is not found. *)
Definition settled (E : Env) (w : world) (meta : nat) : Prop :=
  match path_of w meta with
  | None => True
  | Some path =>
      ∃ msg,
        resize_by_short_edge E
          (os_path_join (root_folder (self w)) [py_str path])
          (frame_size (self w)) = inl (ImageNotFound msg)
  end.

(** The store [w'] is [w] after some [path] entries were removed. *)
Definition pops (w w' : world) : Prop :=
  same_config (self w') (self w)
  ∧ ∀ m, path_of w' m = path_of w m ∨ path_of w' m = None.

(** Two records with the labels in reverse lexicographic order. *)
Definition label_example_data : list (gmap string string) :=
  [ {[ "id" := "1"; "label" := "dog" ]}; {[ "id" := "2"; "label" := "cat" ]} ].

(** The image list of two lines, with the image of the first line missing. *)
Definition first_image_missing (img_path : string) (size : Z) : result frame :=
  if decide (img_path = "root/imgs/a.jpg") then image_missing img_path size
  else image_found img_path size.

Definition list_missing_env : Env :=
  example_env (λ _, inr list_example_text) first_image_missing (λ _, []).

(** What one call of [next] can change, by what it gives. *)
Definition step_effect (g : gen_state) (w : world)
    (x : outcome * gen_state * world) : Prop :=
  let '(out, g', w') := x in
  same_config (self w') (self w)
  ∧ match out with
    | StopIteration =>
        g' = GenFinished
        ∧ files w' = files w ++
            match g with GenFinished => [] | _ => [label_file (self w)] end
    | Raise _ => g' = GenFinished ∧ files w' = files w
    | Yield r =>
        files w' = files w
        ∧ ∃ rest', g' = GenSuspended rest' ∧ length rest' < gen_bound g w
    end.

(** Case analysis on the computations that a monadic definition binds;
    the failing case is closed at once. *)
Ltac bind_cases :=
  repeat match goal with
         | |- context [mbind _ ?x] =>
             let E := fresh "Hbind" in destruct x eqn:E; cbn; [done|]
         end.

(** The key under which a class's manifest records hold the label. *)
Definition label_field (c : adapter_class) : string :=
  match c with
  | JsonVideo => "template"
  | CsvJpeg | ImageList | ImageFolder => "label"
  end.

(** The class that a constructor call instantiates. *)
Definition class_of (call : ctor_call) : adapter_class :=
  match call with
  | NewJsonVideo _ _ _ _ _ _ _ => JsonVideo
  | NewCsvJpeg _ _ _ _ _ _ => CsvJpeg
  | NewImageList _ _ _ _ _ => ImageList
  | NewImageFolder _ _ _ _ _ => ImageFolder
  end.

(** The MetaRecord that [get_meta] builds for a manifest record, given the
    label index; the [path] is there for the two image classes. *)
Definition meta_of (c : adapter_class) (labels2idx : gmap string nat)
    (entry : gmap string string) : result (gmap string pyval) :=
  id ← getitem entry "id";
  label ← getitem entry (label_field c);
  if has_path c then
    path ← getitem entry "path";
    idx ← getitem labels2idx label;
    mret ({[ "id" := PStr id; "label" := PStr label; "path" := PStr path;
             "idx" := PInt (Z.of_nat idx) ]} : gmap string pyval)
  else
    idx ← getitem labels2idx label;
    mret ({[ "id" := PStr id; "label" := PStr label;
             "idx" := PInt (Z.of_nat idx) ]} : gmap string pyval).

(** A manifest record with the keys that [get_meta] reads in the three
    classes that parse their own text or folder. *)
Definition has_keys (c : adapter_class) (entry : gmap string string) : Prop :=
  is_Some (entry !! "id") ∧ is_Some (entry !! "label")
  ∧ (has_path c = true → is_Some (entry !! "path")).

(** An environment whose [json.load] returns the given entries. *)
Definition json_example_env (entries : list (gmap string string)) : Env := {|
  get_single_video_path := get_single_video_path csv_example_env;
  find_images_in_folder := find_images_in_folder csv_example_env;
  resize_images := resize_images csv_example_env;
  resize_by_short_edge := resize_by_short_edge csv_example_env;
  burst_video_into_frames := burst_video_into_frames csv_example_env;
  temp_dir_for_bursting := temp_dir_for_bursting csv_example_env;
  open_text := open_text csv_example_env;
  gzip_open_text := gzip_open_text csv_example_env;
  json_load := λ content, inr entries;
  open_write := open_write csv_example_env;
  glob_glob := glob_glob csv_example_env;
  random_shuffle := reverse;
  random_shuffle_perm := reverse_Permutation
|}.

(** The record that [read_csv] makes of a row with at least two fields. *)
Definition row_record (row : list string) : gmap string string :=
  {[ "id" := default "" (row !! 0); "label" := default "" (row !! 1) ]}.

(** The record that [parse_paths] makes of a line [img_path,label_name]. *)
Definition line_record (img_path label_name : string) : gmap string string :=
  {[ "id" := basename img_path; "label" := label_name; "path" := img_path ]}.

(** A CSV text whose second line is empty. *)
Definition csv_blank_line_text : string :=
  "1;cat" +:+ String "010" "" +:+ String "010" "".

(** An image list whose second line has no comma. *)
Definition list_bad_line_text : string :=
  "imgs/a.jpg,cat" +:+ String "010" "" +:+ "imgs/b.jpg" +:+ String "010" "".

(** Collaborators whose every file holds that CSV text. *)
Definition csv_blank_line_env : Env :=
  example_env (λ _, inr csv_blank_line_text) image_found (λ _, []).

(** Collaborators whose every file holds that image list. *)
Definition list_bad_line_env : Env :=
  example_env (λ _, inr list_bad_line_text) image_found (λ _, []).

(** The record that [parse_folder] makes of an image path. *)
Definition folder_record (img_path : string) : gmap string string :=
  {[ "id" := basename img_path;
     "label" := last_item (split_on slash (dirname img_path));
     "path" := dirname img_path ]}.

(** What the loop body of [iter_data] makes of the record [meta] when it
    reaches its [yield] in the store [w]: the image-list body looks [id] up
    after it has popped [path]. *)
Definition acquire (E : Env) (w : world) (meta : nat) : result iter_result :=
  match cls (self w) with
  | JsonVideo => Custom20BNJsonVideoAdapter.body E w meta
  | CsvJpeg => Custom20BNCsvJpegAdapter.body E w meta
  | ImageFolder => ImageFolderAdapter.body E w meta
  | ImageList =>
      path ← getitem (deref w meta) "path";
      img ← resize_by_short_edge E
               (os_path_join (root_folder (self w)) [py_str path])
               (frame_size (self w));
      id ← getitem (delete "path" (deref w meta)) "id";
      mret (IterResult meta [img] id)
  end.

(** The store [w'] is [w] after some MetaRecords lost their [path]: the
    adapter is as configured and every other entry is in place. *)
Definition paths_removed (w w' : world) : Prop :=
  same_config (self w') (self w)
  ∧ ∀ m, deref w' m = deref w m ∨ deref w' m = delete "path" (deref w m).

(** The messages that a full pass over [rest] prints, in order: one for
    each record skipped before the pass ends. *)
Fixpoint expected_prints (E : Env) (w : world) (rest : list nat)
    : list string :=
  match rest with
  | [] => []
  | meta :: rest' =>
      match acquisition_of E w meta with
      | Acquired => expected_prints E w rest'
      | Skipped msg => msg :: expected_prints E w rest'
      | Failed _ => []
      end
  end.

(** The message printed for a record that is skipped. *)
Definition skip_message (E : Env) (w : world) (meta : nat) : option string :=
  match acquisition_of E w meta with
  | Skipped msg => Some msg
  | Acquired | Failed _ => None
  end.

(** The generator [g], at its next call of [next] in the store [w], starts
    the loop body on the record [meta], with [rest] to follow: it is
    suspended before [meta], or it has not started and its slice begins with
    [meta]. *)
Definition reaches (g : gen_state) (w : world) (meta : nat)
    (rest : list nat) : Prop :=
  match g with
  | GenCreated slice_element =>
      list_getslice (all_meta (self w)) (slice_or_default slice_element w)
      = inr (meta :: rest)
  | GenSuspended rest' => rest' = meta :: rest
  | GenFinished => False
  end.

(** The store once the generator has entered its loop: the image-list
    generator has rebound [all_meta] to its slice by then, if it had not
    started. *)
Definition entered (g : gen_state) (w : world) : world :=
  match g, cls (self w) with
  | GenCreated slice_element, ImageList =>
      match list_getslice (all_meta (self w))
                          (slice_or_default slice_element w) with
      | inr metas => set_self (set_all_meta metas (self w)) w
      | inl _ => w
      end
  | _, _ => w
  end.

(** A CSV text with a row of one field, and after it a line with a
    carriage return inside. *)
Definition csv_short_row_text : string :=
  "x" +:+ String "010" "" +:+ "a" +:+ String "013" "" +:+ "b"
  +:+ String "010" "".

(** Collaborators whose every file holds that CSV text. *)
Definition csv_short_row_env : Env :=
  example_env (λ _, inr csv_short_row_text) image_found (λ _, []).

(** An image list whose first line ends with a carriage return and a line
    feed, and whose second line ends with a no-break space (U+00A0) and a
    carriage return. *)
Definition list_crlf_text : string :=
  "imgs/a.jpg,cat" +:+ String "013" (String "010" "")
  +:+ "imgs/b.jpg,dog" +:+ String "194" (String "160" (String "013" "")).

(** Collaborators whose every file holds that image list. *)
Definition list_crlf_env : Env :=
  example_env (λ _, inr list_crlf_text) image_found (λ _, []).

(* ================================================================== *)
(** * Properties *)

(** ** Results *)

Lemma mapM_getitem {V} (name : string) (data : list (gmap string V)) :
  mapM (λ item, getitem item name) data =
    match mapM (λ item, item !! name) data with
    | Some vs => inr vs
    | None => inl (KeyError name)
    end.
Proof.
  induction data as [|item data IH]; [done|].
  cbn [mapM]. rewrite IH. unfold getitem.
  destruct (item !! name) as [v|]; [|done].
  cbn. by destruct (mapM (λ item0, item0 !! name) data).
Qed.

Lemma labels_of_Some name data ls :
  labels_of name data = Some ls → ls = omap (λ item, item !! name) data.
Proof.
  unfold labels_of. revert ls.
  induction data as [|item data IH]; intros ls.
  - by intros [= <-].
  - cbn [mapM]. simpl omap. destruct (item !! name) as [v|]; [|done].
    cbn. destruct (mapM _ data) as [vs|] eqn:E; [|done].
    intros [= <-]. f_equal. by apply IH.
Qed.

Lemma labels_of_is_Some name data :
  is_Some (labels_of name data) ↔
  Forall (λ item : gmap string string, is_Some (item !! name)) data.
Proof.
  unfold labels_of. rewrite mapM_is_Some. done.
Qed.

Lemma labels_of_perm name data1 data2 :
  data1 ≡ₚ data2 →
  match labels_of name data1, labels_of name data2 with
  | Some l1, Some l2 => l1 ≡ₚ l2
  | None, None => True
  | _, _ => False
  end.
Proof.
  intros Hp.
  destruct (labels_of name data1) as [l1|] eqn:E1,
           (labels_of name data2) as [l2|] eqn:E2.
  - apply labels_of_Some in E1, E2. subst. by apply omap_Permutation.
  - assert (is_Some (labels_of name data2)) as [? ?]; [|congruence].
    apply labels_of_is_Some. rewrite <- Hp. apply labels_of_is_Some. eauto.
  - assert (is_Some (labels_of name data1)) as [? ?]; [|congruence].
    apply labels_of_is_Some. rewrite Hp. apply labels_of_is_Some. eauto.
  - done.
Qed.

(** ** The sorted list of distinct labels *)

Lemma sorted_labels_perm items : sorted_labels items ≡ₚ elements (py_set items).
Proof. apply merge_sort_Permutation. Qed.

Lemma sorted_labels_NoDup items : NoDup (sorted_labels items).
Proof. rewrite sorted_labels_perm. apply NoDup_elements. Qed.

Lemma sorted_labels_elem items x : x ∈ sorted_labels items ↔ x ∈ items.
Proof.
  rewrite sorted_labels_perm, elem_of_elements. unfold py_set.
  by rewrite elem_of_list_to_set.
Qed.

Lemma sorted_labels_sorted items : StronglySorted String.le (sorted_labels items).
Proof. apply (StronglySorted_merge_sort _). Qed.

Lemma sorted_labels_proper items1 items2 :
  (∀ x, x ∈ items1 ↔ x ∈ items2) → sorted_labels items1 = sorted_labels items2.
Proof.
  intros Hel. apply (Sorted_unique String.le).
  - apply StronglySorted_Sorted, sorted_labels_sorted.
  - apply StronglySorted_Sorted, sorted_labels_sorted.
  - apply NoDup_Permutation; [apply sorted_labels_NoDup..|].
    intros x. by rewrite !sorted_labels_elem.
Qed.

(** ** The dict filled from [enumerate] *)

Lemma enumerate_snoc {A} (l : list A) x :
  enumerate (l ++ [x]) = enumerate l ++ [(length l, x)].
Proof. unfold enumerate. rewrite imap_app. simpl. by rewrite Nat.add_0_r. Qed.

Lemma index_loop_lookup (L : list string) l i :
  NoDup L →
  foldl (λ d '(c, x), <[x := c]> d) (∅ : gmap string nat) (enumerate L) !! l
    = Some i ↔ L !! i = Some l.
Proof.
  induction L as [|x L IH] using rev_ind; intros Hnd.
  - simpl. rewrite lookup_empty, lookup_nil. naive_solver.
  - apply NoDup_app in Hnd as (HndL & Hx & _).
    rewrite enumerate_snoc, foldl_app. simpl.
    destruct (decide (x = l)) as [Heq|Hne]; [subst x|].
    + rewrite lookup_insert_eq. split.
      * intros [= <-]. by rewrite list_lookup_middle.
      * intros Hi. f_equal.
        destruct (decide (i < length L)) as [Hlt|Hge].
        -- rewrite lookup_app_l in Hi by done.
           exfalso. apply (Hx l); [|by left].
           eapply list_elem_of_lookup_2. done.
        -- apply lookup_lt_Some in Hi. rewrite length_app in Hi. simpl in Hi. lia.
    + rewrite lookup_insert_ne by done. rewrite IH by done. split.
      * intros Hi. by apply lookup_app_l_Some.
      * intros Hi. apply lookup_app_Some in Hi as [Hi|[Hlen Hi]]; [done|].
        apply list_lookup_singleton_Some in Hi as [_ ?]. done.
Qed.

Lemma index_loop_size (L : list string) :
  NoDup L →
  size (foldl (λ d '(c, x), <[x := c]> d) (∅ : gmap string nat) (enumerate L))
    = length L.
Proof.
  induction L as [|x L IH] using rev_ind; intros Hnd.
  - simpl. apply map_size_empty.
  - apply NoDup_app in Hnd as (HndL & Hx & _).
    rewrite enumerate_snoc, foldl_app. simpl.
    rewrite map_size_insert_None.
    + rewrite IH by done. rewrite length_app. simpl. lia.
    + destruct (foldl _ _ _ !! x) as [i|] eqn:E; [|done].
      apply index_loop_lookup in E; [|done].
      exfalso. apply (Hx x); [|by left].
      eapply list_elem_of_lookup_2. done.
Qed.

Lemma dict_comprehension_enumerate (L : list string) :
  dict_comprehension ((λ '(c, x), (x, c)) <$> enumerate L)
  = foldl (λ d '(c, x), <[x := c]> d) (∅ : gmap string nat) (enumerate L).
Proof.
  unfold dict_comprehension. generalize (∅ : gmap string nat).
  induction (enumerate L) as [|[c x] kvs IH]; intros d; [done|].
  simpl. apply IH.
Qed.

(** ** The rank of a label *)

Lemma rank_of_sorted (L : list string) l i :
  NoDup L → StronglySorted String.le L → L !! i = Some l →
  label_rank (list_to_set L) l = i.
Proof.
  intros Hnd Hs Hi. unfold label_rank.
  assert (Hlen : i < length L) by (by eapply lookup_lt_Some).
  pose proof (take_drop_middle L i l Hi) as Hsplit.
  rewrite <- Hsplit in Hnd, Hs.
  apply NoDup_app in Hnd as (Hnd1 & Hdisj & Hnd2).
  apply NoDup_cons in Hnd2 as (Hl2 & Hnd2).
  apply StronglySorted_app in Hs as (Hle & _ & Hs2).
  apply StronglySorted_cons in Hs2 as (Hle2 & _).
  rewrite Forall_forall in Hle2.
  assert (filter (λ x, str_lt x l) (list_to_set L : gset string)
          = list_to_set (take i L)) as ->.
  { apply set_eq. intros x.
    rewrite elem_of_filter, !elem_of_list_to_set.
    rewrite <- Hsplit at 1. rewrite elem_of_app, elem_of_cons.
    unfold str_lt. split.
    - intros [[Hxl Hne] [Hx|[->|Hx]]]; [done|done|].
      exfalso. apply Hne. apply (anti_symm String.le); [done|by apply Hle2].
    - intros Hx. split; [split|by left].
      + apply Hle; [done|set_solver].
      + intros ->. apply (Hdisj l); [done|set_solver]. }
  rewrite size_list_to_set by done.
  rewrite length_take. lia.
Qed.

Lemma build_index_ref_lookup items l i :
  build_index_ref items !! l = Some i ↔ sorted_labels items !! i = Some l.
Proof.
  unfold build_index_ref. cbv zeta.
  assert (Hset : (list_to_set items : gset string)
                 = list_to_set (sorted_labels items)).
  { apply set_eq. intros x.
    by rewrite !elem_of_list_to_set, sorted_labels_elem. }
  rewrite lookup_set_to_map by (by intros ? ? _ _ [=]).
  split.
  - intros (y & Hy & [= -> <-]).
    rewrite Hset in Hy |- *.
    apply elem_of_list_to_set, list_elem_of_lookup in Hy as [j Hj].
    rewrite (rank_of_sorted _ _ j);
      auto using sorted_labels_NoDup, sorted_labels_sorted.
  - intros Hi. exists l. split.
    + rewrite Hset. apply elem_of_list_to_set. by eapply list_elem_of_lookup_2.
    + f_equal. rewrite Hset. apply rank_of_sorted;
        auto using sorted_labels_NoDup, sorted_labels_sorted.
Qed.

Lemma index_loop_is_ref items :
  foldl (λ d '(c, x), <[x := c]> d) (∅ : gmap string nat)
        (enumerate (sorted_labels items))
  = build_index_ref items.
Proof.
  apply map_eq. intros l. apply option_eq. intros i.
  rewrite index_loop_lookup by apply sorted_labels_NoDup.
  by rewrite build_index_ref_lookup.
Qed.

Lemma build_index_ref_size items :
  size (build_index_ref items) = length (sorted_labels items).
Proof.
  rewrite <- index_loop_is_ref. apply index_loop_size, sorted_labels_NoDup.
Qed.

Lemma build_index_ref_proper items1 items2 :
  (∀ x, x ∈ items1 ↔ x ∈ items2) → build_index_ref items1 = build_index_ref items2.
Proof.
  intros H. rewrite <- !index_loop_is_ref. by rewrite (sorted_labels_proper _ _ H).
Qed.

Lemma create_label2idx_dict_ref name data :
  create_label2idx_dict name data =
    match labels_of name data with
    | Some items => inr (build_index_ref items)
    | None => inl (KeyError name)
    end.
Proof.
  unfold create_label2idx_dict, labels_of. rewrite mapM_getitem.
  destruct (mapM _ data) as [items|]; [|done].
  cbn. f_equal. apply index_loop_is_ref.
Qed.

Lemma il_create_label2idx_dict_mixin data :
  il_create_label2idx_dict data = create_label2idx_dict "label" data.
Proof.
  unfold il_create_label2idx_dict, create_label2idx_dict.
  destruct (mapM _ data) as [e|items]; [done|].
  cbn. f_equal. apply dict_comprehension_enumerate.
Qed.

Lemma if_create_label2idx_dict_mixin data :
  if_create_label2idx_dict data = create_label2idx_dict "label" data.
Proof.
  unfold if_create_label2idx_dict, create_label2idx_dict.
  destruct (mapM _ data) as [e|items]; [done|].
  cbn. f_equal. apply dict_comprehension_enumerate.
Qed.

Lemma StronglySorted_lookup_le {A} (R : relation A) `{!Reflexive R}
    (L : list A) (i j : nat) x y :
  StronglySorted R L → L !! i = Some x → L !! j = Some y → i ≤ j → R x y.
Proof.
  intros Hs. revert i j.
  induction Hs as [|a L Hs IH Hall]; intros i j Hi Hj Hij; [done|].
  destruct i as [|i], j as [|j]; simplify_eq/=; try lia.
  - done.
  - rewrite Forall_forall in Hall. apply Hall. by eapply list_elem_of_lookup_2.
  - eapply IH; eauto with lia.
Qed.

Lemma build_index_ref_mono items l1 l2 i1 i2 :
  build_index_ref items !! l1 = Some i1 →
  build_index_ref items !! l2 = Some i2 →
  String.le l1 l2 ↔ i1 ≤ i2.
Proof.
  rewrite !build_index_ref_lookup. intros H1 H2.
  pose proof (sorted_labels_sorted items) as Hs.
  pose proof (sorted_labels_NoDup items) as Hnd.
  split.
  - intros Hle. destruct (decide (i1 ≤ i2)) as [|Hgt]; [done|].
    assert (String.le l2 l1) as Hle'.
    { eapply (StronglySorted_lookup_le String.le); eauto with lia. }
    assert (l1 = l2) as -> by (by apply (anti_symm String.le)).
    by rewrite (NoDup_lookup _ _ _ _ Hnd H1 H2).
  - intros Hle. by eapply (StronglySorted_lookup_le String.le).
Qed.

Lemma build_index_ref_dom items :
  dom (build_index_ref items) = list_to_set items.
Proof.
  apply set_eq. intros l. rewrite elem_of_dom, elem_of_list_to_set.
  rewrite <- sorted_labels_elem, list_elem_of_lookup.
  unfold is_Some. by setoid_rewrite build_index_ref_lookup.
Qed.

Lemma label_index_ref_perm name data data' :
  data ≡ₚ data' → label_index_ref name data = label_index_ref name data'.
Proof.
  intros Hp. unfold label_index_ref.
  pose proof (labels_of_perm name _ _ Hp) as H.
  destruct (labels_of name data) as [l1|], (labels_of name data') as [l2|];
    try done.
  f_equal. apply build_index_ref_proper. intros x. by rewrite H.
Qed.

(** C1. Every adapter builds its label index by the reference definition
    (the distinct labels, sorted lexicographically, each mapped to its
    0-based rank): the keys are the labels that occur, the indices are
    exactly 0..n-1 and follow the lexicographic order, and two record lists
    that are permutations of each other give the same mapping. *)
Theorem label_index_by_rank (label_name : string)
    (data data' : list (gmap string string)) :
  data ≡ₚ data' →
  (create_label2idx_dict label_name data = label_index_ref label_name data
   ∧ il_create_label2idx_dict data = label_index_ref "label" data
   ∧ if_create_label2idx_dict data = label_index_ref "label" data)
  ∧ (∀ labels2idx, create_label2idx_dict label_name data = inr labels2idx →
       (∀ l, l ∈ dom labels2idx ↔
             ∃ item, item ∈ data ∧ item !! label_name = Some l)
       ∧ (∀ l i, labels2idx !! l = Some i → i < size labels2idx)
       ∧ (∀ i, i < size labels2idx → ∃ l, labels2idx !! l = Some i)
       ∧ (∀ l1 l2 i1 i2,
            labels2idx !! l1 = Some i1 → labels2idx !! l2 = Some i2 →
            (String.le l1 l2 ↔ i1 ≤ i2)))
  ∧ (create_label2idx_dict label_name data
       = create_label2idx_dict label_name data'
     ∧ il_create_label2idx_dict data = il_create_label2idx_dict data'
     ∧ if_create_label2idx_dict data = if_create_label2idx_dict data').
Proof.
  intros Hp. split; [|split].
  - split; [apply create_label2idx_dict_ref|split].
    + etrans; [apply il_create_label2idx_dict_mixin|].
      apply create_label2idx_dict_ref.
    + etrans; [apply if_create_label2idx_dict_mixin|].
      apply create_label2idx_dict_ref.
  - intros m. rewrite create_label2idx_dict_ref.
    destruct (labels_of label_name data) as [items|] eqn:Hl; [|done].
    intros [= <-]. split; [|split; [|split]].
    + intros l. rewrite build_index_ref_dom, elem_of_list_to_set.
      apply labels_of_Some in Hl as ->. rewrite list_elem_of_omap. done.
    + intros l i Hi. rewrite build_index_ref_size.
      apply build_index_ref_lookup in Hi. by eapply lookup_lt_Some.
    + intros i Hi. rewrite build_index_ref_size in Hi.
      apply lookup_lt_is_Some in Hi as [l Hl'].
      exists l. by apply build_index_ref_lookup.
    + apply build_index_ref_mono.
  - assert (Hmixin : ∀ name, create_label2idx_dict name data
                             = create_label2idx_dict name data').
    { intros name. rewrite !create_label2idx_dict_ref.
      apply (label_index_ref_perm name _ _ Hp). }
    split; [apply Hmixin|split].
    + etrans; [apply il_create_label2idx_dict_mixin|].
      etrans; [apply Hmixin|]. symmetry. apply il_create_label2idx_dict_mixin.
    + etrans; [apply if_create_label2idx_dict_mixin|].
      etrans; [apply Hmixin|]. symmetry. apply if_create_label2idx_dict_mixin.
Qed.

(** ** One step of a generator *)

Lemma same_config_refl a : same_config a a.
Proof. done. Qed.

Lemma same_config_set_all_meta metas a : same_config (set_all_meta metas a) a.
Proof. by destruct a. Qed.

Lemma same_config_fields a a' :
  same_config a a' →
  cls a = cls a' ∧ data a = data a' ∧ output_folder a = output_folder a'
  ∧ labels2idx a = labels2idx a' ∧ root_folder a = root_folder a'
  ∧ frame_size a = frame_size a' ∧ folder a = folder a'.
Proof. destruct a, a'. unfold same_config. simpl. intros [=]. by subst. Qed.

Lemma same_config_label_file a a' :
  same_config a a' → label_file a = label_file a'.
Proof.
  intros H. apply same_config_fields in H as (_ & _ & Ho & Hl & _).
  unfold label_file. by rewrite Ho, Hl.
Qed.

Lemma same_config_py_len a a' : same_config a a' → py_len a = py_len a'.
Proof.
  intros H. apply same_config_fields in H as (_ & Hd & _).
  unfold py_len. by rewrite Hd.
Qed.

Lemma loop_else_effect E w :
  let '(out, g', w') := loop_else E w in
  self w' = self w ∧ heap w' = heap w ∧ stdout w' = stdout w
  ∧ g' = GenFinished
  ∧ match open_write E (label_file (self w)).1 with
    | inl e => out = Raise e ∧ files w' = files w
    | inr _ => out = StopIteration ∧ files w' = files w ++ [label_file (self w)]
    end.
Proof.
  unfold loop_else, write_label2idx_dict.
  destruct (open_write E _) as [e|[]]; cbn; done.
Qed.

Lemma loop_step_effect body E rest w :
  let '(out, g', w') := loop_step body E rest w in
  self w' = self w ∧ heap w' = heap w ∧ stdout w' = stdout w
  ∧ match out with
    | StopIteration =>
        g' = GenFinished ∧ files w' = files w ++ [label_file (self w)]
    | Raise _ => g' = GenFinished ∧ files w' = files w
    | Yield r =>
        files w' = files w ∧ ∃ rest', g' = GenSuspended rest'
                                      ∧ length rest' < length rest
    end.
Proof.
  destruct rest as [|meta rest]; simpl.
  - pose proof (loop_else_effect E w) as H.
    destruct (loop_else E w) as [[out g'] w'].
    destruct H as (? & ? & ? & ? & H).
    destruct (open_write E _); destruct H as [-> ?]; done.
  - destruct (body E w meta) as [e|r]; repeat split; eauto with lia.
Qed.

Lemma il_loop_effect E rest w :
  let '(out, g', w') := ImageListAdapter.loop E rest w in
  self w' = self w
  ∧ match out with
    | StopIteration =>
        g' = GenFinished ∧ files w' = files w ++ [label_file (self w)]
    | Raise _ => g' = GenFinished ∧ files w' = files w
    | Yield r =>
        files w' = files w ∧ ∃ rest', g' = GenSuspended rest'
                                      ∧ length rest' < length rest
    end.
Proof.
  revert w. induction rest as [|meta rest IH]; intros w; simpl.
  - pose proof (loop_else_effect E w) as H.
    destruct (loop_else E w) as [[out g'] w'].
    destruct H as (? & ? & ? & ? & H).
    destruct (open_write E _); destruct H as [-> ?]; done.
  - destruct (getitem (deref w meta) "path") as [e|path]; [done|].
    destruct (resize_by_short_edge E _ _) as [e|img].
    + destruct e; try done.
      specialize (IH (print msg w)).
      destruct (ImageListAdapter.loop E rest (print msg w)) as [[out g'] w'].
      destruct IH as [Hs IH]. split; [done|].
      destruct out; simpl in *; [|done..].
      destruct IH as (? & rest' & ? & ?). eauto with lia.
    + destruct (getitem _ "id") as [e|id]; simpl; [done|].
      repeat split; eauto with lia.
Qed.

Lemma gen_next_effect E g w : step_effect g w (gen_next E g w).
Proof.
  unfold gen_next.
  assert (Hplain : ∀ body, step_effect g w (iter_sliced body E g w)).
  { intros body. unfold step_effect, iter_sliced.
    destruct g as [s|rest|]; simpl.
    - destruct (list_getslice _ _) as [e|metas]; [done|].
      pose proof (loop_step_effect body E metas w) as H.
      destruct (loop_step body E metas w) as [[out g'] w'].
      destruct H as (Hs & _ & _ & H). rewrite Hs. split; [done|].
      by destruct out.
    - pose proof (loop_step_effect body E rest w) as H.
      destruct (loop_step body E rest w) as [[out g'] w'].
      destruct H as (Hs & _ & _ & H). rewrite Hs. split; [done|].
      by destruct out.
    - by rewrite app_nil_r. }
  destruct (cls (self w)); try apply Hplain.
  unfold step_effect, ImageListAdapter.iter_data_next.
  destruct g as [s|rest|]; simpl.
  - destruct (list_getslice _ _) as [e|metas]; [done|].
    pose proof (il_loop_effect E metas
                  (set_self (set_all_meta metas (self w)) w)) as H.
    destruct (ImageListAdapter.loop E metas _) as [[out g'] w'].
    destruct H as (Hs & H). rewrite Hs. simpl in *.
    split; [apply same_config_set_all_meta|].
    rewrite (same_config_label_file _ _ (same_config_set_all_meta metas _)) in H.
    by destruct out.
  - pose proof (il_loop_effect E rest w) as H.
    destruct (ImageListAdapter.loop E rest w) as [[out g'] w'].
    destruct H as (Hs & H). rewrite Hs. split; [done|]. by destruct out.
  - by rewrite app_nil_r.
Qed.

(** ** Consumers *)

Lemma consume_finished E n w :
  consume E (S n) GenFinished w = ([], Exhausted, GenFinished, w).
Proof. simpl. unfold gen_next. by destruct (cls (self w)). Qed.

(** What pulling from a generator can change. *)
Lemma consume_effect E n g w :
  let '(rs, e, g', w') := consume E n g w in
  same_config (self w') (self w)
  ∧ files w' = files w ++
      match e, g with
      | Exhausted, (GenCreated _ | GenSuspended _) => [label_file (self w)]
      | _, _ => []
      end
  ∧ match e with
    | Abandoned => True
    | _ => g' = GenFinished
    end.
Proof.
  revert g w. induction n as [|n IH]; intros g w; simpl.
  - by rewrite app_nil_r.
  - pose proof (gen_next_effect E g w) as Hstep.
    destruct (gen_next E g w) as [[out g1] w1].
    destruct Hstep as [Hcfg Hstep]. destruct out as [r| |e].
    + destruct Hstep as (Hf & rest' & -> & Hlt).
      specialize (IH (GenSuspended rest') w1).
      destruct (consume E n (GenSuspended rest') w1) as [[[rs e] g2] w2].
      destruct IH as (Hcfg' & Hf' & Hg). split; [|split].
      * unfold same_config in *. congruence.
      * rewrite Hf', Hf, (same_config_label_file _ _ Hcfg).
        destruct g; simpl in Hlt; [by destruct e..|lia].
      * done.
    + destruct Hstep as [-> Hf]. split; [done|]. split; [|done].
      by destruct g.
    + destruct Hstep as [-> Hf]. split; [done|]. split; [|done].
      by rewrite app_nil_r.
Qed.

(** With a call of [next] for every record that is left and one more, the
    consumer sees the generator stop or raise. *)
Lemma consume_ends E n g w :
  gen_bound g w < n → (consume E n g w).1.1.2 ≠ Abandoned.
Proof.
  revert g w. induction n as [|n IH]; intros g w Hn; [lia|]. simpl.
  pose proof (gen_next_effect E g w) as Hstep.
  destruct (gen_next E g w) as [[out g1] w1].
  destruct Hstep as [_ Hstep]. destruct out as [r| |e]; [|done..].
  destruct Hstep as (_ & rest' & -> & Hlt).
  specialize (IH (GenSuspended rest') w1).
  destruct (consume E n (GenSuspended rest') w1) as [[[rs e] g2] w2].
  simpl in *. apply IH. lia.
Qed.

Lemma drain_ends E g w : (drain E g w).1.1.2 ≠ Abandoned.
Proof. apply consume_ends. lia. Qed.

(** ** Persisting the label index *)

Lemma consume_empty E n slice_element w :
  list_getslice (all_meta (self w)) (slice_or_default slice_element w) = inr [] →
  open_write E (label_file (self w)).1 = inr tt →
  (consume E (S n) (iter_data slice_element) w).1.1 = ([], Exhausted).
Proof.
  intros Hs Hw. simpl. unfold gen_next, iter_data.
  unfold Custom20BNJsonVideoAdapter.iter_data_next,
    Custom20BNCsvJpegAdapter.iter_data_next,
    ImageFolderAdapter.iter_data_next.
  assert (Hplain : ∀ body,
    ∃ w', iter_sliced body E (GenCreated slice_element) w
          = (StopIteration, GenFinished, w')).
  { intros body. unfold iter_sliced. rewrite Hs. simpl.
    unfold loop_else, write_label2idx_dict. rewrite Hw. cbn. eauto. }
  destruct (cls (self w)).
  - by destruct (Hplain Custom20BNJsonVideoAdapter.body) as [w' ->].
  - by destruct (Hplain Custom20BNCsvJpegAdapter.body) as [w' ->].
  - unfold ImageListAdapter.iter_data_next. rewrite Hs. simpl.
    unfold loop_else, write_label2idx_dict. cbn [self set_self].
    rewrite (same_config_label_file _ _
               (same_config_set_all_meta [] (self w))).
    by rewrite Hw.
  - by destruct (Hplain ImageFolderAdapter.body) as [w' ->].
Qed.

(** C4. The label index is written to [label2idx.json] exactly when a
    consumer pulls from the sequence of [iter_data] until it stops: the file
    is then written once, with the in-memory label index as content, and
    pulling further writes nothing more; a consumer that stops early (or
    sees an exception) leaves no file; an empty sequence is drained by the
    first call of [next] and the file is written; and with one call of
    [next] more than there are records the consumer does reach the end. *)
Theorem label_file_written_on_exhaustion (E : Env) (w : world)
    (slice_element : option pyslice) (n m : nat) :
  let '(rs, e, g', w') := consume E n (iter_data slice_element) w in
  let w'' := (consume E m g' w').2 in
  (e = Exhausted →
     files w' = files w ++
       [(os_path_join (output_folder (self w)) ["label2idx.json"],
         labels2idx (self w))]
     ∧ labels2idx (self w') = labels2idx (self w)
     ∧ files w'' = files w')
  ∧ (e ≠ Exhausted → files w' = files w)
  ∧ (gen_bound (iter_data slice_element) w < n → e ≠ Abandoned)
  ∧ (list_getslice (all_meta (self w)) (slice_or_default slice_element w)
       = inr [] →
     open_write E (label_file (self w)).1 = inr tt → 0 < n →
     rs = [] ∧ e = Exhausted).
Proof.
  pose proof (consume_effect E n (iter_data slice_element) w) as H1.
  pose proof (consume_ends E n (iter_data slice_element) w) as H2.
  destruct (consume E n (iter_data slice_element) w) as [[[rs e] g'] w'] eqn:Hc.
  pose proof (consume_effect E m g' w') as H4.
  destruct (consume E m g' w') as [[[rs2 e2] g2] w2]. cbn [fst snd] in *.
  destruct H1 as (Hcfg & Hf & Hg), H4 as (_ & Hf2 & _).
  split; [|split; [|split]].
  - intros ->. subst g'. split; [done|]. split.
    + by apply same_config_fields in Hcfg as (_ & _ & _ & ? & _).
    + rewrite Hf2. destruct e2; apply app_nil_r.
  - intros Hne. rewrite Hf. destruct e; [done|apply app_nil_r..].
  - done.
  - intros Hs Hw Hn. destruct n as [|k]; [lia|].
    pose proof (consume_empty E k slice_element w Hs Hw) as H3.
    rewrite Hc in H3. by injection H3.
Qed.

(** ** Construction *)

Lemma mapM_result_Forall2 {A B} (f : A → result B) (l : list A) (k : list B) :
  mapM f l = inr k → Forall2 (λ x y, f x = inr y) l k.
Proof.
  revert k. induction l as [|x l IH]; intros k; cbn.
  - intros [= <-]. constructor.
  - destruct (f x) as [e|y] eqn:Hx; cbn; [done|].
    destruct (mapM f l) as [e|k'] eqn:Hl; cbn; [done|].
    intros [= <-]. constructor; auto.
Qed.

Lemma fresh_world_well_formed E a metas :
  length metas = length (data a) →
  Forall (λ d : gmap string pyval,
            is_Some (d !! "id")
            ∧ (has_path (cls a) = true → is_Some (d !! "path"))) metas →
  well_formed (fresh_world E a metas)
  ∧ same_config (self (fresh_world E a metas)) a.
Proof.
  intros Hlen Hall. unfold well_formed, fresh_world. simpl.
  split; [|by destruct a].
  split; [|by destruct a].
  destruct a; simpl. destruct shuffle0; [apply random_shuffle_perm|done].
Qed.

Lemma get_meta_shape (f : gmap string string → result (gmap string pyval))
    (p : bool) data metas :
  (∀ entry d, f entry = inr d →
     is_Some (d !! "id") ∧ (p = true → is_Some (d !! "path"))) →
  mapM f data = inr metas →
  length metas = length data
  ∧ Forall (λ d : gmap string pyval,
              is_Some (d !! "id") ∧ (p = true → is_Some (d !! "path"))) metas.
Proof.
  intros Hf Hm. apply mapM_result_Forall2 in Hm. split.
  - symmetry. by eapply Forall2_length.
  - induction Hm; constructor; eauto.
Qed.

Lemma construct_spec E call w :
  construct E call = inr w →
  well_formed w ∧ manifest_records E call = inr (data (self w)).
Proof.
  destruct call; cbn;
    [unfold Custom20BNJsonVideoAdapter.init
    |unfold Custom20BNCsvJpegAdapter.init
    |unfold ImageListAdapter.init
    |unfold ImageFolderAdapter.init];
    bind_cases; intros [= <-].
  - match goal with H : Custom20BNJsonVideoAdapter.get_meta _ _ = _ |- _ =>
      eapply (get_meta_shape _ false) in H as [Hlen Hall] end.
    + split; [by apply fresh_world_well_formed|].
      cbn. by repeat case_match.
    + intros entry d. bind_cases.
      intros [= <-]. split; [|done]. by rewrite lookup_insert_eq.
  - match goal with H : Custom20BNCsvJpegAdapter.get_meta _ _ = _ |- _ =>
      eapply (get_meta_shape _ false) in H as [Hlen Hall] end.
    + split; [by apply fresh_world_well_formed|].
      cbn. by repeat case_match.
    + intros entry d. bind_cases.
      intros [= <-]. split; [|done]. by rewrite lookup_insert_eq.
  - match goal with H : ImageListAdapter.get_meta _ _ = _ |- _ =>
      eapply (get_meta_shape _ true) in H as [Hlen Hall] end.
    + split; [by apply fresh_world_well_formed|].
      cbn. by repeat case_match.
    + intros entry d. bind_cases.
      intros [= <-]. split; [by rewrite lookup_insert_eq|].
      intros _. by simplify_map_eq.
  - match goal with H : ImageFolderAdapter.get_meta _ _ = _ |- _ =>
      eapply (get_meta_shape _ true) in H as [Hlen Hall] end.
    + split; [by apply fresh_world_well_formed|].
      cbn. by repeat case_match.
    + intros entry d. bind_cases.
      intros [= <-]. split; [by rewrite lookup_insert_eq|].
      intros _. by simplify_map_eq.
Qed.

(** ** Length *)

Lemma manifest_records_with_shuffle E b call :
  manifest_records E (with_shuffle b call) = manifest_records E call.
Proof. by destruct call. Qed.

Lemma consume_py_len E n g w :
  py_len (self (consume E n g w).2) = py_len (self w).
Proof.
  pose proof (consume_effect E n g w) as H.
  destruct (consume E n g w) as [[[rs e] g'] w'].
  destruct H as (Hcfg & _). by apply same_config_py_len.
Qed.

(** C6. [len(adapter)] is the number of RawRecords that the constructor
    parsed from the manifest; constructing with the other value of
    [shuffle] gives the same length, and no pulling from any generator of
    [iter_data], whatever its slice and whichever records are skipped on the
    way, changes it. *)
Theorem length_counts_manifest_records (E : Env) (call : ctor_call)
    (w : world) :
  construct E call = inr w →
  (∃ records, manifest_records E call = inr records
              ∧ py_len (self w) = length records)
  ∧ (∀ b w', construct E (with_shuffle b call) = inr w' →
             py_len (self w') = py_len (self w))
  ∧ (∀ slice_element n,
       py_len (self (consume E n (iter_data slice_element) w).2)
       = py_len (self w))
  ∧ (∀ w0 g n, py_len (self (consume E n g w0).2) = py_len (self w0)).
Proof.
  intros Hc. apply construct_spec in Hc as [_ Hm].
  split; [|split; [|split]].
  - by exists (data (self w)).
  - intros b w' Hc'. apply construct_spec in Hc' as [_ Hm'].
    rewrite manifest_records_with_shuffle, Hm in Hm'.
    unfold py_len. congruence.
  - intros. apply consume_py_len.
  - intros. apply consume_py_len.
Qed.

(** ** Slices of a list *)

Lemma omap_lookup_seq {A} (l : list A) (a n : nat) :
  a + n ≤ length l →
  omap (λ k, l !! (a + k)) (seq 0 n) = take n (drop a l).
Proof.
  induction n as [|n IH]; intros Hn; [done|].
  rewrite seq_S, omap_app, IH by lia. simpl.
  destruct (lookup_lt_is_Some_2 l (a + n)) as [x Hx]; [lia|].
  rewrite Hx. simpl.
  symmetry. apply take_S_r. by rewrite lookup_drop.
Qed.

Lemma omap_index_ext {A} (l : list A) (f g : nat → nat) (ks : list nat) :
  (∀ k, f k = g k) →
  omap (λ k, l !! f k) ks = omap (λ k, l !! g k) ks.
Proof.
  intros Hfg. induction ks as [|k ks IH]; [done|].
  csimpl. by rewrite Hfg, IH.
Qed.

Lemma list_getslice_bounded {A} (l : list A) (a b : nat) :
  a ≤ b → b ≤ length l →
  list_getslice l (slice2 (Z.of_nat a) (Z.of_nat b))
  = inr (take (b - a) (drop a l)).
Proof.
  intros Hab Hb. unfold list_getslice, slice_indices, slice2. cbn.
  rewrite !Z.min_l by lia.
  destruct (Z.ltb_spec (Z.of_nat a) 0); [lia|].
  destruct (Z.ltb_spec (Z.of_nat b) 0); [lia|].
  cbn. unfold slice_length. cbn. f_equal.
  destruct (Z.ltb_spec (Z.of_nat a) (Z.of_nat b)).
  - rewrite Z.div_1_r.
    replace (Z.to_nat (Z.of_nat b - Z.of_nat a - 1 + 1)) with (b - a) by lia.
    rewrite <- omap_lookup_seq by lia.
    apply omap_index_ext. intros k. lia.
  - replace (b - a) with 0 by lia. done.
Qed.

(** [l[a:b]] for natural numbers [a] and [b]. *)
Lemma list_getslice_slice2 {A} (l : list A) (a b : nat) :
  list_getslice l (slice2 (Z.of_nat a) (Z.of_nat b))
  = inr (take (b - a) (drop a l)).
Proof.
  destruct (decide (a ≤ b)) as [Hab|Hab].
  - destruct (decide (b ≤ length l)) as [Hb|Hb];
      [by apply list_getslice_bounded|].
    unfold list_getslice, slice_indices, slice2. cbn.
    destruct (Z.ltb_spec (Z.of_nat a) 0); [lia|].
    destruct (Z.ltb_spec (Z.of_nat b) 0); [lia|].
    cbn. unfold slice_length. cbn. f_equal.
    rewrite (Z.min_r (Z.of_nat b)) by lia.
    destruct (Z.ltb_spec (Z.min (Z.of_nat a) (Z.of_nat (length l)))
                         (Z.of_nat (length l))) as [Hlt|Hge].
    + rewrite Z.min_l in * by lia. rewrite Z.div_1_r.
      replace (Z.to_nat (Z.of_nat (length l) - Z.of_nat a - 1 + 1))
        with (length l - a) by lia.
      rewrite (omap_index_ext l
                 (λ k, Z.to_nat (Z.of_nat a + Z.of_nat k * 1)) (λ k, a + k))
        by (intros; lia).
      rewrite omap_lookup_seq by lia.
      rewrite !take_ge; [done|rewrite length_drop; lia..].
    + rewrite drop_ge by lia. by rewrite take_nil.
  - unfold list_getslice, slice_indices, slice2. cbn.
    destruct (Z.ltb_spec (Z.of_nat a) 0); [lia|].
    destruct (Z.ltb_spec (Z.of_nat b) 0); [lia|].
    cbn. unfold slice_length. cbn. f_equal.
    destruct (Z.ltb_spec (Z.min (Z.of_nat a) (Z.of_nat (length l)))
                         (Z.min (Z.of_nat b) (Z.of_nat (length l))));
      [lia|].
    replace (b - a) with 0 by lia. done.
Qed.

(** The default slice covers a list that is no longer than [len(self)]. *)
Lemma list_getslice_default {A} (l : list A) (n : nat) :
  length l ≤ n → list_getslice l (slice2 0 (Z.of_nat n)) = inr l.
Proof.
  intros Hn. change 0%Z with (Z.of_nat 0).
  rewrite list_getslice_slice2. simpl. f_equal. apply take_ge. lia.
Qed.

(** ** One record at a time *)

Lemma deref_heap_pop meta key w m :
  deref (heap_pop meta key w) m
  = if decide (m = meta) then delete key (deref w m) else deref w m.
Proof.
  unfold deref, heap_pop. simpl. rewrite list_lookup_alter.
  destruct (decide (m = meta)) as [->|Hm].
  - rewrite decide_True by done.
    destruct (heap w !! meta) as [d|]; cbn; [done|].
    symmetry. apply delete_empty.
  - rewrite decide_False by done. by destruct (heap w !! m).
Qed.

Lemma acquisition_of_ext E w w' m :
  same_config (self w) (self w') → deref w m = deref w' m →
  acquisition_of E w m = acquisition_of E w' m.
Proof.
  destruct w as [a h f s], w' as [a' h' f' s'].
  destruct a, a'. unfold same_config. simpl. intros [=] Hd. subst.
  unfold acquisition_of, Custom20BNJsonVideoAdapter.body,
    Custom20BNCsvJpegAdapter.body, ImageFolderAdapter.body. simpl.
  by rewrite Hd.
Qed.

Lemma expected_run_ext E w w' rest :
  same_config (self w) (self w') →
  (∀ m, m ∈ rest → deref w m = deref w' m) →
  expected_run E w rest = expected_run E w' rest.
Proof.
  intros Hcfg. induction rest as [|meta rest IH]; intros Hd; [done|].
  simpl. rewrite (acquisition_of_ext E w w' meta Hcfg) by (apply Hd; by left).
  rewrite IH; [done|]. intros m Hm. apply Hd. by right.
Qed.

Lemma expected_ending_ext E w w' e :
  same_config (self w) (self w') →
  expected_ending E w e = expected_ending E w' e.
Proof.
  intros Hcfg. unfold expected_ending.
  by rewrite (same_config_label_file _ _ Hcfg).
Qed.

(** The step of a suspended generator at the record [meta], by what
    acquiring [meta] does. *)
Lemma gen_next_cons E meta rest w :
  match acquisition_of E w meta with
  | Acquired =>
      ∃ r w', gen_next E (GenSuspended (meta :: rest)) w
              = (Yield r, GenSuspended rest, w')
              ∧ r_meta r = meta ∧ self w' = self w
              ∧ (∀ m, m ≠ meta → deref w' m = deref w m)
  | Skipped msg =>
      gen_next E (GenSuspended (meta :: rest)) w
      = gen_next E (GenSuspended rest) (print msg w)
  | Failed e =>
      ∃ w', gen_next E (GenSuspended (meta :: rest)) w
            = (Raise e, GenFinished, w')
  end.
Proof.
  unfold acquisition_of, gen_next.
  destruct (cls (self w)) eqn:Hcls.
  - unfold Custom20BNJsonVideoAdapter.iter_data_next, iter_sliced, loop_step.
    destruct (Custom20BNJsonVideoAdapter.body E w meta) as [e|r] eqn:Hb;
      simpl; [by eexists|].
    exists r, w. split; [done|]. split; [|done].
    unfold Custom20BNJsonVideoAdapter.body in Hb.
    repeat (match type of Hb with context [mbind _ ?x] =>
              destruct x; cbn in Hb; [done|] end).
    by injection Hb as <-.
  - unfold Custom20BNCsvJpegAdapter.iter_data_next, iter_sliced, loop_step.
    destruct (Custom20BNCsvJpegAdapter.body E w meta) as [e|r] eqn:Hb;
      simpl; [by eexists|].
    exists r, w. split; [done|]. split; [|done].
    unfold Custom20BNCsvJpegAdapter.body in Hb.
    repeat (match type of Hb with context [mbind _ ?x] =>
              destruct x; cbn in Hb; [done|] end).
    by injection Hb as <-.
  - unfold ImageListAdapter.iter_data_next. simpl.
    destruct (getitem (deref w meta) "path") as [e|path]; [by eexists|].
    cbn [self print].
    destruct (resize_by_short_edge E _ _) as [e|img].
    { destruct e; try by eexists. simpl. by rewrite Hcls. }
    rewrite deref_heap_pop. rewrite decide_True by done.
    destruct (getitem _ "id") as [e|id]; [by eexists|].
    eexists _, _. split; [done|]. split; [done|]. split; [done|].
    intros m Hm. rewrite deref_heap_pop. by rewrite decide_False.
  - unfold ImageFolderAdapter.iter_data_next, iter_sliced, loop_step.
    destruct (ImageFolderAdapter.body E w meta) as [e|r] eqn:Hb;
      simpl; [by eexists|].
    exists r, w. split; [done|]. split; [|done].
    unfold ImageFolderAdapter.body in Hb.
    repeat (match type of Hb with context [mbind _ ?x] =>
              destruct x; cbn in Hb; [done|] end).
    by injection Hb as <-.
Qed.

(** ** A whole pass *)

Lemma gen_next_nil E w : gen_next E (GenSuspended []) w = loop_else E w.
Proof. unfold gen_next. by destruct (cls (self w)). Qed.

Lemma deref_print msg w m : deref (print msg w) m = deref w m.
Proof. done. Qed.

(** A consumer with enough calls of [next] gets the records that
    [expected_run] lists, and ends as [expected_ending] says. *)
Lemma consume_expected E rest n w :
  NoDup rest → length rest < n →
  let '(rs, e, _, _) := consume E n (GenSuspended rest) w in
  r_meta <$> rs = (expected_run E w rest).1
  ∧ e = expected_ending E w (expected_run E w rest).2.
Proof.
  revert n w. induction rest as [|meta rest IH]; intros n w Hnd Hn;
    (destruct n as [|n]; [simpl in Hn; lia|]); cbn [consume].
  - rewrite gen_next_nil. pose proof (loop_else_effect E w) as H.
    destruct (loop_else E w) as [[out g'] w'].
    destruct H as (_ & _ & _ & _ & H). simpl. unfold expected_ending.
    destruct (open_write E _); by destruct H as [-> _].
  - apply NoDup_cons in Hnd as [Hmeta Hnd]. simpl in Hn.
    pose proof (gen_next_cons E meta rest w) as Hstep.
    cbn [expected_run].
    destruct (acquisition_of E w meta) as [|msg|e].
    + destruct Hstep as (r & w' & -> & Hr & Hs & Hd).
      specialize (IH n w' Hnd ltac:(lia)).
      destruct (consume E n (GenSuspended rest) w') as [[[rs e] g2] w2].
      assert (Hcfg : same_config (self w') (self w)) by (by rewrite Hs).
      rewrite (expected_run_ext E w' w rest Hcfg) in IH
        by (intros m Hm; apply Hd; by intros ->).
      rewrite (expected_ending_ext E w' w _ Hcfg) in IH.
      destruct (expected_run E w rest) as [metas oe]. simpl in *.
      destruct IH as [<- ->]. csimpl. by rewrite Hr.
    + specialize (IH (S n) (print msg w) Hnd ltac:(lia)).
      rewrite Hstep.
      change (consume E (S n) (GenSuspended rest) (print msg w))
        with (let '(out, g', w') := gen_next E (GenSuspended rest) (print msg w) in
              match out with
              | Yield r =>
                  let '(rs, e, g'', w'') := consume E n g' w' in
                  (r :: rs, e, g'', w'')
              | StopIteration => ([], Exhausted, g', w')
              | Raise e => ([], Raised e, g', w')
              end) in IH.
      rewrite (expected_run_ext E (print msg w) w rest) in IH by done.
      by rewrite (expected_ending_ext E (print msg w) w) in IH by done.
    + destruct Hstep as [w' ->]. done.
Qed.

(** The first call of [next] takes the slice and goes on as a suspended
    generator would; the image-list generator rebinds [all_meta] first. *)
Lemma gen_next_created E slice_element w metas :
  list_getslice (all_meta (self w)) (slice_or_default slice_element w)
    = inr metas →
  ∃ w1, gen_next E (GenCreated slice_element) w
        = gen_next E (GenSuspended metas) w1
        ∧ same_config (self w1) (self w) ∧ heap w1 = heap w
        ∧ files w1 = files w ∧ stdout w1 = stdout w
        ∧ (cls (self w) ≠ ImageList → w1 = w)
        ∧ (cls (self w) = ImageList → all_meta (self w1) = metas).
Proof.
  intros Hs. destruct (decide (cls (self w) = ImageList)) as [Hc|Hc].
  - exists (set_self (set_all_meta metas (self w)) w).
    split; [|split; [apply same_config_set_all_meta|]].
    + unfold gen_next. cbn [self set_self].
      replace (cls (set_all_meta metas (self w))) with (cls (self w))
        by (by destruct (self w)).
      rewrite Hc. unfold ImageListAdapter.iter_data_next. by rewrite Hs.
    + repeat split; try done; intros _; by destruct (self w).
  - exists w. split; [|done].
    unfold gen_next. destruct (cls (self w)); try done;
      unfold Custom20BNJsonVideoAdapter.iter_data_next,
        Custom20BNCsvJpegAdapter.iter_data_next,
        ImageFolderAdapter.iter_data_next, iter_sliced; by rewrite Hs.
Qed.

Lemma gen_next_created_error E slice_element w e :
  list_getslice (all_meta (self w)) (slice_or_default slice_element w)
    = inl e →
  gen_next E (GenCreated slice_element) w = (Raise e, GenFinished, w).
Proof.
  intros Hs. unfold gen_next.
  destruct (cls (self w));
    unfold Custom20BNJsonVideoAdapter.iter_data_next,
      Custom20BNCsvJpegAdapter.iter_data_next,
      ImageListAdapter.iter_data_next,
      ImageFolderAdapter.iter_data_next, iter_sliced; by rewrite Hs.
Qed.

Lemma consume_created E n slice_element w metas :
  list_getslice (all_meta (self w)) (slice_or_default slice_element w)
    = inr metas →
  ∃ w1, consume E (S n) (GenCreated slice_element) w
        = consume E (S n) (GenSuspended metas) w1
        ∧ same_config (self w1) (self w) ∧ heap w1 = heap w
        ∧ files w1 = files w ∧ stdout w1 = stdout w
        ∧ (cls (self w) ≠ ImageList → w1 = w)
        ∧ (cls (self w) = ImageList → all_meta (self w1) = metas).
Proof.
  intros Hs. destruct (gen_next_created E _ _ _ Hs) as (w1 & Hn & H).
  exists w1. split; [|done]. cbn [consume]. by rewrite Hn.
Qed.

Lemma deref_same_heap w w' m : heap w = heap w' → deref w m = deref w' m.
Proof. unfold deref. by intros ->. Qed.

(** [list(iter_data(slice_element))] gives the records of the slice that
    [expected_run] lists. *)
Lemma drain_expected E slice_element w metas :
  list_getslice (all_meta (self w)) (slice_or_default slice_element w)
    = inr metas →
  NoDup metas →
  let '(rs, e, _, _) := drain E (iter_data slice_element) w in
  r_meta <$> rs = (expected_run E w metas).1
  ∧ e = expected_ending E w (expected_run E w metas).2.
Proof.
  intros Hs Hnd. unfold drain, iter_data. cbn [gen_bound]. rewrite Hs.
  destruct (consume_created E (length metas) _ _ _ Hs)
    as (w1 & -> & Hcfg & Hh & _).
  pose proof (consume_expected E metas (S (length metas)) w1 Hnd ltac:(lia))
    as H.
  destruct (consume E (S (length metas)) (GenSuspended metas) w1)
    as [[[rs e] g'] w'].
  rewrite (expected_run_ext E w1 w metas Hcfg) in H
    by (intros; by apply deref_same_heap).
  by rewrite (expected_ending_ext E w1 w _ Hcfg) in H.
Qed.

Lemma expected_run_no_failure E w rest :
  (∀ m, m ∈ rest → is_failed E w m = false) →
  expected_run E w rest
  = (filter (λ m, is_skipped E w m = false) rest, None).
Proof.
  induction rest as [|meta rest IH]; intros Hf; [done|].
  assert (Hmeta : is_failed E w meta = false) by (apply Hf; by left).
  cbn [expected_run]. rewrite IH by (intros; apply Hf; by right).
  unfold is_failed in Hmeta.
  destruct (acquisition_of E w meta) as [|msg|e] eqn:Ha; [| |done].
  - rewrite filter_cons_True; [done|]. unfold is_skipped. by rewrite Ha.
  - rewrite filter_cons_False; [done|]. unfold is_skipped. by rewrite Ha.
Qed.

(** Only the image-list adapter skips. *)
Lemma is_skipped_plain E w m :
  cls (self w) ≠ ImageList → is_skipped E w m = false.
Proof.
  intros Hc. unfold is_skipped, acquisition_of.
  destruct (cls (self w)); try done;
    by match goal with |- context [body_acquisition ?x] => destruct x end.
Qed.

Lemma filter_all {A} (P : A → Prop) `{∀ x, Decision (P x)} (l : list A) :
  Forall P l → filter P l = l.
Proof.
  induction 1 as [|x l Hx _ IH]; [done|].
  rewrite filter_cons_True by done. by rewrite IH.
Qed.

Lemma filter_none {A} (P : A → Prop) `{∀ x, Decision (P x)} (l : list A) :
  Forall (λ x, ¬ P x) l → filter P l = [].
Proof.
  induction 1 as [|x l Hx _ IH]; [done|].
  by rewrite filter_cons_False.
Qed.



Lemma length_filter_split {A} (P : A → bool) (l : list A) :
  length (filter (λ x, P x = false) l) + length (filter (λ x, P x = true) l)
  = length l.
Proof.
  induction l as [|x l IH]; [done|].
  destruct (P x) eqn:Hx.
  - rewrite filter_cons_False, filter_cons_True by (by rewrite Hx).
    simpl. lia.
  - rewrite filter_cons_True, filter_cons_False by (by rewrite Hx).
    simpl. lia.
Qed.

Lemma well_formed_all_meta w :
  well_formed w →
  NoDup (all_meta (self w)) ∧ length (all_meta (self w)) = py_len (self w).
Proof.
  intros (Hp & Hlen & _). split.
  - rewrite Hp. apply NoDup_seq.
  - rewrite Hp, length_seq. done.
Qed.


(** ** The manifest of the JSON adapter *)

Lemma endswith_json_not_gz s :
  endswith s ".json" = true → endswith s ".json.gz" = false.
Proof.
  induction s as [|c s IH]; [done|].
  cbn [endswith]. intros H. apply orb_true_iff in H as [H|H].
  - apply bool_decide_eq_true in H. injection H as -> ->. by vm_compute.
  - rewrite (IH H), orb_false_r. apply bool_decide_eq_false.
    intros [= -> ->]. by vm_compute in H.
Qed.

(** C8. The constructor of the JSON/video adapter reads its manifest with
    [gzip.open] and [json.load] when the file name ends in [.json.gz],
    with [open] and [json.load] when it ends in [.json], and for every
    other name it raises the format error and no adapter comes out. *)
Theorem json_manifest_by_extension (E : Env)
    (json_file folder output_folder : string) (shuffle : bool)
    (frame_size frame_rate : Z) (shm_dir_path : string) :
  let init :=
    Custom20BNJsonVideoAdapter.init E json_file folder output_folder shuffle
      frame_size frame_rate shm_dir_path in
  (endswith json_file ".json.gz" = true →
     (∀ w, init = inr w →
           gzip_open_text E json_file ≫= json_load E = inr (data (self w)))
     ∧ (∀ e, gzip_open_text E json_file ≫= json_load E = inl e → init = inl e))
  ∧ (endswith json_file ".json" = true →
       (∀ w, init = inr w →
             open_text E json_file ≫= json_load E = inr (data (self w)))
       ∧ (∀ e, open_text E json_file ≫= json_load E = inl e → init = inl e))
  ∧ (endswith json_file ".json.gz" = false →
     endswith json_file ".json" = false →
     init = inl (RuntimeError "Wrong data file format (.json.gz or .json)")).
Proof.
  intros init.
  assert (Hdata : ∀ w, init = inr w →
            manifest_records E
              (NewJsonVideo json_file folder output_folder shuffle frame_size
                 frame_rate shm_dir_path) = inr (data (self w))).
  { intros w Hw. by apply (construct_spec E (NewJsonVideo _ _ _ _ _ _ _)). }
  unfold init, Custom20BNJsonVideoAdapter.init in *. cbn in Hdata.
  split; [|split].
  - intros Hgz. rewrite Hgz in *. split; [done|].
    intros e He. change (read_gz_json E json_file = inl e) in He.
    by rewrite He.
  - intros Hj. rewrite (endswith_json_not_gz _ Hj), Hj in *. split; [done|].
    intros e He. change (read_json E json_file = inl e) in He.
    by rewrite He.
  - by intros -> ->.
Qed.

(** ** The CSV example *)

(** C9. With [shuffle] false, the CSV/JPEG adapter constructed from the
    manifest of three lines [1;cat], [2;dog], [3;cat] has the label index
    cat -> 0, dog -> 1 and the MetaRecords (1, cat, 0), (2, dog, 1),
    (3, cat, 0) in this order. *)
Theorem csv_example_meta (E : Env) (csv_file folder output_folder : string)
    (frame_size : Z) (shm_dir_path : string) :
  open_text E csv_file = inr csv_example_text →
  ∃ w, Custom20BNCsvJpegAdapter.init E csv_file folder output_folder false
         frame_size shm_dir_path = inr w
       ∧ labels2idx (self w) = {[ "cat" := 0; "dog" := 1 ]}
       ∧ deref w <$> all_meta (self w)
         = [ {[ "id" := PStr "1"; "label" := PStr "cat"; "idx" := PInt 0 ]};
             {[ "id" := PStr "2"; "label" := PStr "dog"; "idx" := PInt 1 ]};
             {[ "id" := PStr "3"; "label" := PStr "cat"; "idx" := PInt 0 ]} ].
Proof.
  intros Hf. unfold Custom20BNCsvJpegAdapter.init, read_csv. rewrite Hf.
  eexists. split; [vm_compute; reflexivity|].
  split; vm_compute; reflexivity.
Qed.

(** ** The folder parser *)

Lemma parse_folder_last E exts ext folder :
  parse_folder E (exts ++ [ext]) folder = parse_folder E [ext] folder.
Proof. unfold parse_folder. by rewrite foldl_app. Qed.

Lemma parse_folder_no_extension E folder :
  parse_folder E [] folder = inl (NameError "paths").
Proof. done. Qed.

(** C2. With the default extensions and a folder
    that holds [root/cat/a.jpg] and [root/dog/b.png], [parse_folder] gives
    the record of the [.png] file alone. *)
Theorem parse_folder_drops_jpg :
  parse_folder folder_example_env [".jpg"; ".png"] "root/"
  = inr [ {[ "id" := "b.png"; "label" := "dog"; "path" := "root/dog" ]} ].
Proof. vm_compute. reflexivity. Qed.

(** ** Failures while acquiring frames *)

Lemma body_failure_raises body E meta rest w e :
  body E w meta = inl e →
  iter_sliced body E (GenSuspended (meta :: rest)) w
  = (Raise e, GenFinished, w).
Proof. intros Hb. simpl. by rewrite Hb. Qed.

(** ** A slice is no longer than the list *)

Lemma length_omap_le {A B} (f : A → option B) (l : list A) :
  length (omap f l) ≤ length l.
Proof.
  induction l as [|x l IH]; [done|].
  csimpl. destruct (f x); simpl; lia.
Qed.

Lemma slice_length_bound s len start stop step :
  (0 ≤ len)%Z →
  slice_indices s len = inr (start, stop, step) →
  (slice_length start stop step ≤ len)%Z.
Proof.
  intros Hlen. unfold slice_indices, slice_length.
  destruct (Z.eqb_spec (default 1%Z (sl_step s)) 0); [done|].
  intros [= <- <- <-].
  set (st := default 1%Z (sl_step s)) in *.
  assert (Hdiv : ∀ x d, (0 ≤ x)%Z → (0 < d)%Z → (x / d + 1 ≤ x + 1)%Z).
  { intros x d Hx Hd. apply Z.add_le_mono_r.
    apply Z.div_le_upper_bound; [done|]. nia. }
  destruct (Z.ltb_spec st 0) as [Hneg|Hpos].
  - match goal with |- context [(?a <? ?b)%Z] =>
      destruct (Z.ltb_spec a b) as [Hlt|]; [|lia] end.
    etrans; [apply Hdiv; lia|].
    destruct (sl_start s) as [v1|], (sl_stop s) as [v2|];
      repeat match goal with |- context [(?a <? 0)%Z] =>
               destruct (Z.ltb_spec a 0) end; lia.
  - match goal with |- context [(?a <? ?b)%Z] =>
      destruct (Z.ltb_spec a b) as [Hlt|]; [|lia] end.
    etrans; [apply Hdiv; lia|].
    destruct (sl_start s) as [v1|], (sl_stop s) as [v2|];
      repeat match goal with |- context [(?a <? 0)%Z] =>
               destruct (Z.ltb_spec a 0) end; lia.
Qed.

Lemma list_getslice_length {A} (l l' : list A) s :
  list_getslice l s = inr l' → length l' ≤ length l.
Proof.
  unfold list_getslice.
  destruct (slice_indices s (Z.of_nat (length l))) as [e|[[start stop] step]]
    eqn:Hs; [done|].
  cbn. intros [= <-].
  etrans; [apply length_omap_le|]. rewrite length_seq.
  apply slice_length_bound in Hs; lia.
Qed.

(** ** Iterating over an image list a second time *)

Lemma pops_refl w : pops w w.
Proof. split; [done|]. by left. Qed.

Lemma pops_trans w1 w2 w3 : pops w1 w2 → pops w2 w3 → pops w1 w3.
Proof.
  intros [Hc1 Hp1] [Hc2 Hp2]. split.
  - unfold same_config in *. congruence.
  - intros m. destruct (Hp2 m) as [->| ->]; [apply Hp1|by right].
Qed.

Lemma pops_print msg w : pops w (print msg w).
Proof. split; [done|]. by left. Qed.

Lemma path_of_heap_pop meta w m :
  path_of (heap_pop meta "path" w) m
  = if decide (m = meta) then None else path_of w m.
Proof.
  unfold path_of. rewrite deref_heap_pop.
  case_decide; [apply lookup_delete_eq|done].
Qed.

Lemma pops_heap_pop meta w : pops w (heap_pop meta "path" w).
Proof.
  split; [done|]. intros m. rewrite path_of_heap_pop.
  case_decide; auto.
Qed.

Lemma pops_set_all_meta metas w :
  pops w (set_self (set_all_meta metas (self w)) w).
Proof. split; [apply same_config_set_all_meta|]. by left. Qed.

Lemma settled_pops E w w' m : pops w w' → settled E w m → settled E w' m.
Proof.
  intros [Hc Hp]. unfold settled.
  apply same_config_fields in Hc as (_ & _ & _ & _ & Hr & Hf & _).
  destruct (Hp m) as [->| ->]; [|done]. by rewrite Hr, Hf.
Qed.

Lemma path_gone_pops w w' m : pops w w' → path_of w m = None → path_of w' m = None.
Proof. intros [_ Hp] Hm. destruct (Hp m) as [->|]; done. Qed.

Lemma gen_next_image_list E rest w :
  cls (self w) = ImageList →
  gen_next E (GenSuspended rest) w = ImageListAdapter.loop E rest w.
Proof. intros Hc. unfold gen_next. by rewrite Hc. Qed.

(** After a pass that reached the end of the sequence, every record of the
    pass is settled, and the records that were yielded have no [path]. *)
Lemma image_list_pass_settles E rest n w rs g' w' :
  cls (self w) = ImageList →
  consume E n (GenSuspended rest) w = (rs, Exhausted, g', w') →
  self w' = self w ∧ pops w w'
  ∧ (∀ m, m ∈ rest → settled E w' m)
  ∧ (∀ r, r ∈ rs → path_of w' (r_meta r) = None ∧ r_meta r ∈ rest).
Proof.
  revert n w rs. induction rest as [|meta rest IH]; intros n w rs Hc;
    (destruct n as [|n]; [done|]); cbn [consume];
    rewrite gen_next_image_list by done; cbn [ImageListAdapter.loop].
  - pose proof (loop_else_effect E w) as H.
    destruct (loop_else E w) as [[out g1] w1].
    destruct H as (Hs & Hh & _ & _ & H).
    destruct (open_write E _); destruct H as [-> _]; [done|].
    intros [= <- <- <-]. split; [done|]. split.
    + split; [by rewrite Hs|]. intros m. left. unfold path_of, deref.
      by rewrite Hh.
    + split; [by intros m Hm%elem_of_nil|by intros r Hr%elem_of_nil].
  - unfold getitem at 1. fold (path_of w meta).
    destruct (path_of w meta) as [path|] eqn:Hp; [|done].
    destruct (resize_by_short_edge E _ _) as [e|img] eqn:Hr.
    + destruct e; try done.
      rewrite <- (gen_next_image_list E rest (print msg w)) by done.
      change (match gen_next E (GenSuspended rest) (print msg w) with
              | (Yield r, g'0, w'0) =>
                  let '(rs0, e, g'', w'') := consume E n g'0 w'0 in
                  (r :: rs0, e, g'', w'')
              | (StopIteration, g'0, w'0) => ([], Exhausted, g'0, w'0)
              | (Raise e, g'0, w'0) => ([], Raised e, g'0, w'0)
              end) with (consume E (S n) (GenSuspended rest) (print msg w)).
      intros Hrun. apply IH in Hrun as (Hs & Hpops & Hset & Hrs); [|done].
      split; [done|]. split; [by eapply pops_trans; [apply pops_print|]|].
      split.
      * intros m [->|Hm]%elem_of_cons; [|by apply Hset].
        apply (settled_pops E w); [by eapply pops_trans; [apply pops_print|]|].
        unfold settled. rewrite Hp. eauto.
      * intros r Hr'. destruct (Hrs r Hr') as [? ?]. split; [done|by right].
    + destruct (getitem _ "id") as [e|id]; [done|].
      destruct (consume E n (GenSuspended rest) (heap_pop meta "path" w))
        as [[[rs1 e1] g1] w1] eqn:Hrun.
      intros [= <- -> <- <-].
      apply IH in Hrun as (Hs & Hpops & Hset & Hrs); [|done].
      assert (Hall : pops w w1)
        by (eapply pops_trans; [apply pops_heap_pop|done]).
      assert (Hgone : path_of w1 meta = None).
      { apply (path_gone_pops (heap_pop meta "path" w)); [done|].
        rewrite path_of_heap_pop. by rewrite decide_True. }
      split; [done|]. split; [done|]. split.
      * intros m [->|Hm]%elem_of_cons; [|by apply Hset].
        unfold settled. by rewrite Hgone.
      * intros r [->|Hr']%elem_of_cons; [by split; [|left]|].
        destruct (Hrs r Hr') as [? ?]. split; [done|by right].
Qed.

(** A pass over settled records, one of which has lost its [path], yields
    nothing and fails on the missing key. *)
Lemma image_list_pass_fails E rest w :
  (∀ m, m ∈ rest → settled E w m) →
  (∃ m, m ∈ rest ∧ path_of w m = None) →
  ∃ w', ImageListAdapter.loop E rest w
        = (Raise (KeyError "path"), GenFinished, w')
        ∧ self w' = self w ∧ heap w' = heap w ∧ files w' = files w.
Proof.
  revert w. induction rest as [|meta rest IH]; intros w Hset [m0 [Hm0 Hgone]].
  - by apply elem_of_nil in Hm0.
  - cbn [ImageListAdapter.loop]. unfold getitem at 1. fold (path_of w meta).
    pose proof (Hset meta ltac:(by left)) as Hmeta. unfold settled in Hmeta.
    destruct (path_of w meta) as [path|] eqn:Hp; [|by eexists].
    destruct Hmeta as [msg ->].
    destruct (IH (print msg w)) as (w' & -> & Hs & Hh & Hf).
    + intros m Hm. apply (settled_pops E w); [apply pops_print|].
      apply Hset. by right.
    + exists m0. split; [|done].
      apply elem_of_cons in Hm0 as [->|]; [congruence|done].
    + by exists w'.
Qed.

Lemma list_getslice_elem_of {A} (l l' : list A) s x :
  list_getslice l s = inr l' → x ∈ l' → x ∈ l.
Proof.
  unfold list_getslice.
  destruct (slice_indices s _) as [e|[[start stop] step]]; [done|].
  cbn. intros [= <-] Hx.
  apply list_elem_of_omap in Hx as (k & _ & Hk).
  by eapply list_elem_of_lookup_2.
Qed.

Lemma image_list_init_class E input_file output_folder root_folder shuffle
    img_size w :
  ImageListAdapter.init E input_file output_folder root_folder shuffle
    img_size = inr w →
  cls (self w) = ImageList.
Proof.
  unfold ImageListAdapter.init. bind_cases. by intros [= <-].
Qed.

Lemma well_formed_path w m :
  well_formed w → has_path (cls (self w)) = true → m ∈ all_meta (self w) →
  is_Some (path_of w m).
Proof.
  intros (Hp & _ & _ & _ & Hall) Hc Hm.
  rewrite Hp in Hm. apply elem_of_seq in Hm as [_ Hm].
  apply lookup_lt_is_Some_2 in Hm as [d Hd].
  rewrite Forall_forall in Hall.
  unfold path_of, deref. rewrite Hd. simpl.
  apply Hall; [|done]. by eapply list_elem_of_lookup_2.
Qed.

(** C10 does not hold for every second call: after
    [iter_data(slice(1, 2))] has yielded the second record of a list of
    two, the same call again selects nothing from the narrowed [all_meta]
    and ends without an exception. *)
Lemma image_list_second_iteration_can_end_normally :
  ImageListAdapter.init list_example_env "list.txt" "out" "root" false (-1)
    = inr list_example_world
  ∧ let '(rs1, e1, _, w1) :=
      drain list_example_env (iter_data (Some (slice2 1 2)))
            list_example_world in
    let '(rs2, e2, _, _) :=
      drain list_example_env (iter_data (Some (slice2 1 2))) w1 in
    e1 = Exhausted ∧ r_meta <$> rs1 = [1]
    ∧ rs2 = [] ∧ e2 = Exhausted ∧ e2 ≠ Raised (KeyError "path").
Proof. vm_compute. repeat split; discriminate. Qed.

(** ** Iteration and the adapter's state *)

(** The generators of the three other adapters change neither the adapter
    object nor the MetaRecords. *)
Lemma gen_next_keeps_state E g w :
  cls (self w) ≠ ImageList →
  let '(_, _, w') := gen_next E g w in
  self w' = self w ∧ heap w' = heap w ∧ stdout w' = stdout w.
Proof.
  intros Hc. unfold gen_next.
  assert (Hplain : ∀ body,
    let '(_, _, w') := iter_sliced body E g w in
    self w' = self w ∧ heap w' = heap w ∧ stdout w' = stdout w).
  { intros body. unfold iter_sliced. destruct g as [s|rest|]; [| |done].
    - destruct (list_getslice _ _) as [e|metas]; [done|].
      pose proof (loop_step_effect body E metas w) as H.
      destruct (loop_step body E metas w) as [[out g'] w']. tauto.
    - pose proof (loop_step_effect body E rest w) as H.
      destruct (loop_step body E rest w) as [[out g'] w']. tauto. }
  destruct (cls (self w)); try done; apply Hplain.
Qed.

Lemma consume_keeps_state E n g w :
  cls (self w) ≠ ImageList →
  let '(_, _, _, w') := consume E n g w in
  self w' = self w ∧ heap w' = heap w ∧ stdout w' = stdout w.
Proof.
  revert g w. induction n as [|n IH]; intros g w Hc; [done|].
  cbn [consume]. pose proof (gen_next_keeps_state E g w Hc) as H.
  destruct (gen_next E g w) as [[out g1] w1]. destruct H as (Hs & Hh & Ho).
  destruct out as [r| |e]; [|done..].
  specialize (IH g1 w1). rewrite Hs in IH. specialize (IH Hc).
  destruct (consume E n g1 w1) as [[[rs e] g2] w2].
  destruct IH as (-> & -> & ->). done.
Qed.

(** For the three other adapters a second drained iteration gives the
    records of the first, in the same order. *)
Lemma plain_iteration_repeats E slice_element w metas :
  cls (self w) ≠ ImageList →
  list_getslice (all_meta (self w)) (slice_or_default slice_element w)
    = inr metas →
  NoDup metas →
  let '(rs1, e1, _, w1) := drain E (iter_data slice_element) w in
  let '(rs2, e2, _, _) := drain E (iter_data slice_element) w1 in
  all_meta (self w1) = all_meta (self w) ∧ heap w1 = heap w
  ∧ r_meta <$> rs2 = r_meta <$> rs1 ∧ e2 = e1.
Proof.
  intros Hc Hs Hnd.
  pose proof (drain_expected E slice_element w metas Hs Hnd) as H1.
  pose proof (consume_keeps_state E
                (S (gen_bound (iter_data slice_element) w))
                (iter_data slice_element) w Hc) as Hk.
  fold (drain E (iter_data slice_element) w) in Hk.
  destruct (drain E (iter_data slice_element) w) as [[[rs1 e1] g1] w1].
  destruct Hk as (Hself & Hheap & _).
  assert (Hs1 : list_getslice (all_meta (self w1))
                  (slice_or_default slice_element w1) = inr metas).
  { unfold slice_or_default in *. by rewrite Hself. }
  pose proof (drain_expected E slice_element w1 metas Hs1 Hnd) as H2.
  destruct (drain E (iter_data slice_element) w1) as [[[rs2 e2] g2] w2].
  assert (Hcfg : same_config (self w1) (self w)) by (by rewrite Hself).
  rewrite (expected_run_ext E w1 w metas Hcfg) in H2
    by (intros; by apply deref_same_heap).
  rewrite (expected_ending_ext E w1 w _ Hcfg) in H2.
  destruct H1 as [-> ->], H2 as [-> ->]. by rewrite Hself.
Qed.

(** C3. On the image-list adapter built from the list
    of two lines, draining [iter_data(slice(0, 1))] leaves [all_meta] with
    one record instead of two, and that record without its [path]; the
    same call again yields nothing and raises [KeyError('path')]. *)
Theorem image_list_iteration_narrows_all_meta :
  ImageListAdapter.init list_example_env "list.txt" "out" "root" false (-1)
    = inr list_example_world
  ∧ let '(rs1, e1, _, w1) :=
      drain list_example_env (iter_data (Some (slice2 0 1)))
            list_example_world in
    let '(rs2, e2, _, _) :=
      drain list_example_env (iter_data (Some (slice2 0 1))) w1 in
    all_meta (self list_example_world) = [0; 1]
    ∧ deref list_example_world 0 !! "path" = Some (PStr "imgs/a.jpg")
    ∧ r_meta <$> rs1 = [0] ∧ e1 = Exhausted
    ∧ all_meta (self w1) = [0]
    ∧ deref w1 0 !! "path" = None
    ∧ rs2 = [] ∧ e2 = Raised (KeyError "path").
Proof. vm_compute. repeat split. Qed.

(** ** Concrete runs *)

Lemma label_index_by_rank_witness :
  label_example_data ≡ₚ reverse label_example_data
  ∧ create_label2idx_dict "label" label_example_data
    = inr {[ "cat" := 0; "dog" := 1 ]}
  ∧ create_label2idx_dict "label" label_example_data
    = create_label2idx_dict "label" (reverse label_example_data).
Proof.
  assert (Hp : label_example_data ≡ₚ reverse label_example_data)
    by (symmetry; apply reverse_Permutation).
  split; [exact Hp|]. split; [vm_compute; reflexivity|].
  destruct (label_index_by_rank "label" _ _ Hp) as (_ & _ & H & _).
  exact H.
Defined.

Lemma label_file_written_on_exhaustion_witness :
  let '(rs, e, _, w') :=
    consume list_example_env 3 (iter_data None) list_example_world in
  e = Exhausted
  ∧ files w' = [("out/label2idx.json", {[ "cat" := 0; "dog" := 1 ]})].
Proof.
  pose proof (label_file_written_on_exhaustion list_example_env
                list_example_world None 3 0) as H.
  destruct (consume list_example_env 3 (iter_data None) list_example_world)
    as [[[rs e] g'] w'] eqn:Hrun.
  vm_compute in Hrun. injection Hrun as <- <- <- <-.
  destruct H as (H & _). destruct (H eq_refl) as (Hf & _).
  split; [reflexivity|]. rewrite Hf. vm_compute. reflexivity.
Defined.


Lemma length_counts_manifest_records_witness :
  construct list_missing_env (NewImageList "list.txt" "out" "root" false (-1))
    = inr (world_of (construct list_missing_env
                       (NewImageList "list.txt" "out" "root" false (-1))))
  ∧ let w := world_of (construct list_missing_env
                         (NewImageList "list.txt" "out" "root" false (-1))) in
    let '(rs, _, _, w') := drain list_missing_env (iter_data None) w in
    length rs = 1 ∧ py_len (self w) = 2 ∧ py_len (self w') = 2.
Proof.
  assert (H1 : construct list_missing_env
                 (NewImageList "list.txt" "out" "root" false (-1))
               = inr (world_of (construct list_missing_env
                        (NewImageList "list.txt" "out" "root" false (-1)))))
    by (vm_compute; reflexivity).
  split; [exact H1|]. cbv zeta.
  destruct (length_counts_manifest_records list_missing_env _ _ H1)
    as (_ & _ & H & _).
  specialize (H None 3).
  change (consume list_missing_env 3 (iter_data None)
            (world_of (construct list_missing_env
               (NewImageList "list.txt" "out" "root" false (-1)))))
    with (drain list_missing_env (iter_data None)
            (world_of (construct list_missing_env
               (NewImageList "list.txt" "out" "root" false (-1))))) in H.
  destruct (drain list_missing_env (iter_data None) _) as [[[rs e] g'] w']
    eqn:Hrun.
  simpl in H. rewrite H.
  vm_compute in Hrun. injection Hrun as <- _ _ _.
  vm_compute. repeat split.
Defined.

Lemma csv_example_meta_witness :
  open_text csv_example_env "labels.csv" = inr csv_example_text
  ∧ ∃ w, Custom20BNCsvJpegAdapter.init csv_example_env "labels.csv" "frames"
           "out" false (-1) "/dev/shm" = inr w
         ∧ labels2idx (self w) = {[ "cat" := 0; "dog" := 1 ]}
         ∧ length (all_meta (self w)) = 3.
Proof.
  split; [reflexivity|].
  destruct (csv_example_meta csv_example_env "labels.csv" "frames" "out" (-1)
              "/dev/shm" eq_refl) as (w & Hw & Hl & Hm).
  exists w. split; [exact Hw|]. split; [exact Hl|].
  rewrite <- (length_fmap (deref w)), Hm. reflexivity.
Defined.

Lemma json_manifest_by_extension_witness :
  Custom20BNJsonVideoAdapter.init csv_example_env "train.csv" "videos" "out"
    false (-1) 8 "/dev/shm"
  = inl (RuntimeError "Wrong data file format (.json.gz or .json)")
  ∧ ∃ w, Custom20BNJsonVideoAdapter.init csv_example_env "train.json.gz"
           "videos" "out" false (-1) 8 "/dev/shm" = inr w.
Proof.
  split.
  - apply (json_manifest_by_extension csv_example_env "train.csv"); reflexivity.
  - eexists. vm_compute. reflexivity.
Defined.

(** * Further properties of the adapters *)

(** ** What the constructors build *)

Lemma mapM_result_ext {A B} (f g : A → result B) (l : list A) :
  (∀ x, f x = g x) → mapM f l = mapM g l.
Proof.
  intros Hfg. induction l as [|x l IH]; [done|].
  cbn. by rewrite Hfg, IH.
Qed.

Lemma mapM_result_inr {A B} (f : A → result B) (l : list A) :
  Forall (λ x, ∃ y, f x = inr y) l → ∃ k, mapM f l = inr k.
Proof.
  induction 1 as [|x l [y Hy] _ [k IH]]; [by eexists|].
  cbn. rewrite Hy. cbn. rewrite IH. by eexists.
Qed.

Lemma mapM_result_inl {A B} (f : A → result B) (l : list A) e :
  mapM f l = inl e → ∃ x, x ∈ l ∧ f x = inl e.
Proof.
  induction l as [|x l IH]; [done|]. cbn.
  destruct (f x) as [e'|y] eqn:Hx; cbn.
  - intros [= <-]. exists x. split; [by left|done].
  - destruct (mapM f l) as [e'|k]; cbn; [|done].
    intros [= <-]. destruct (IH eq_refl) as (x' & ? & ?).
    exists x'. split; [by right|done].
Qed.

(** The constructors in one shape: parse, index, build the MetaRecords. *)
Lemma construct_unfold E call :
  construct E call =
    data ← manifest_records E call;
    labels2idx ← create_label2idx_dict (label_field (class_of call)) data;
    metas ← mapM (meta_of (class_of call) labels2idx) data;
    inr (world_of (construct E call)).
Proof.
  destruct call; cbn;
    [unfold Custom20BNJsonVideoAdapter.init
    |unfold Custom20BNCsvJpegAdapter.init
    |unfold ImageListAdapter.init
    |unfold ImageFolderAdapter.init].
  - destruct (if endswith _ _ then _ else _) as [e|data]; cbn; [done|].
    destruct (create_label2idx_dict _ data) as [e|l2i]; cbn; [done|].
    unfold Custom20BNJsonVideoAdapter.get_meta.
    rewrite (mapM_result_ext _ (meta_of JsonVideo l2i)) by done.
    by destruct (mapM _ data).
  - destruct (read_csv _ _) as [e|data]; cbn; [done|].
    destruct (create_label2idx_dict _ data) as [e|l2i]; cbn; [done|].
    unfold Custom20BNCsvJpegAdapter.get_meta.
    rewrite (mapM_result_ext _ (meta_of CsvJpeg l2i)) by done.
    by destruct (mapM _ data).
  - destruct (parse_paths _ _) as [e|data]; cbn; [done|].
    rewrite il_create_label2idx_dict_mixin.
    destruct (create_label2idx_dict _ data) as [e|l2i]; cbn; [done|].
    unfold ImageListAdapter.get_meta.
    rewrite (mapM_result_ext _ (meta_of ImageList l2i)) by done.
    by destruct (mapM _ data).
  - destruct (parse_folder _ _ _) as [e|data]; cbn; [done|].
    rewrite if_create_label2idx_dict_mixin.
    destruct (create_label2idx_dict _ data) as [e|l2i]; cbn; [done|].
    unfold ImageFolderAdapter.get_meta.
    rewrite (mapM_result_ext _ (meta_of ImageFolder l2i)) by done.
    by destruct (mapM _ data).
Qed.

(** What a successful constructor call leaves in the adapter and the
    store. *)
Lemma construct_fields E call w :
  construct E call = inr w →
  cls (self w) = class_of call
  ∧ manifest_records E call = inr (data (self w))
  ∧ create_label2idx_dict (label_field (class_of call)) (data (self w))
    = inr (labels2idx (self w))
  ∧ mapM (meta_of (class_of call) (labels2idx (self w))) (data (self w))
    = inr (heap w)
  ∧ all_meta (self w)
    = (if shuffle (self w) then random_shuffle E (seq 0 (length (heap w)))
       else seq 0 (length (heap w)))
  ∧ files w = [] ∧ stdout w = [].
Proof.
  destruct call; cbn;
    [unfold Custom20BNJsonVideoAdapter.init
    |unfold Custom20BNCsvJpegAdapter.init
    |unfold ImageListAdapter.init
    |unfold ImageFolderAdapter.init].
  - destruct (if endswith _ _ then _ else _) as [e|data]; cbn; [done|].
    destruct (create_label2idx_dict _ data) as [e|l2i] eqn:Hl; cbn; [done|].
    unfold Custom20BNJsonVideoAdapter.get_meta.
    rewrite (mapM_result_ext _ (meta_of JsonVideo l2i)) by done.
    destruct (mapM _ data) as [e|metas] eqn:Hm; cbn; [done|].
    intros [= <-]. by destruct shuffle0.
  - destruct (read_csv _ _) as [e|data]; cbn; [done|].
    destruct (create_label2idx_dict _ data) as [e|l2i] eqn:Hl; cbn; [done|].
    unfold Custom20BNCsvJpegAdapter.get_meta.
    rewrite (mapM_result_ext _ (meta_of CsvJpeg l2i)) by done.
    destruct (mapM _ data) as [e|metas] eqn:Hm; cbn; [done|].
    intros [= <-]. by destruct shuffle0.
  - destruct (parse_paths _ _) as [e|data]; cbn; [done|].
    rewrite il_create_label2idx_dict_mixin.
    destruct (create_label2idx_dict _ data) as [e|l2i] eqn:Hl; cbn; [done|].
    unfold ImageListAdapter.get_meta.
    rewrite (mapM_result_ext _ (meta_of ImageList l2i)) by done.
    destruct (mapM _ data) as [e|metas] eqn:Hm; cbn; [done|].
    intros [= <-]. by destruct shuffle0.
  - destruct (parse_folder _ _ _) as [e|data]; cbn; [done|].
    rewrite if_create_label2idx_dict_mixin.
    destruct (create_label2idx_dict _ data) as [e|l2i] eqn:Hl; cbn; [done|].
    unfold ImageFolderAdapter.get_meta.
    rewrite (mapM_result_ext _ (meta_of ImageFolder l2i)) by done.
    destruct (mapM _ data) as [e|metas] eqn:Hm; cbn; [done|].
    intros [= <-]. by destruct shuffle0.
Qed.

Lemma create_label2idx_dict_bound name data labels2idx l i :
  create_label2idx_dict name data = inr labels2idx →
  labels2idx !! l = Some i → i < size labels2idx.
Proof.
  rewrite create_label2idx_dict_ref.
  destruct (labels_of name data) as [items|]; [|done].
  intros [= <-] Hi. rewrite build_index_ref_size.
  apply build_index_ref_lookup in Hi. by eapply lookup_lt_Some.
Qed.

Lemma create_label2idx_dict_covers name data labels2idx entry l :
  create_label2idx_dict name data = inr labels2idx →
  entry ∈ data → entry !! name = Some l → is_Some (labels2idx !! l).
Proof.
  rewrite create_label2idx_dict_ref.
  destruct (labels_of name data) as [items|] eqn:Hl; [|done].
  intros [= <-] Hin He. apply elem_of_dom.
  rewrite build_index_ref_dom, elem_of_list_to_set.
  apply labels_of_Some in Hl as ->. apply list_elem_of_omap. eauto.
Qed.

(** X1. After construction there is one MetaRecord per manifest record, at
    the same position of the store: it carries the record's id and label
    (and path, in the two image classes; no path in the two others), and its
    idx is the label's entry in the label index, below the number of
    labels. *)
Theorem meta_records_follow_manifest (E : Env) (call : ctor_call) (w : world) :
  construct E call = inr w →
  length (heap w) = length (data (self w))
  ∧ ∀ i entry, data (self w) !! i = Some entry →
      ∃ id label idx d,
        entry !! "id" = Some id
        ∧ entry !! label_field (cls (self w)) = Some label
        ∧ labels2idx (self w) !! label = Some idx
        ∧ idx < size (labels2idx (self w))
        ∧ heap w !! i = Some d
        ∧ d !! "id" = Some (PStr id)
        ∧ d !! "label" = Some (PStr label)
        ∧ d !! "idx" = Some (PInt (Z.of_nat idx))
        ∧ d !! "path"
          = (if has_path (cls (self w)) then PStr <$> entry !! "path"
             else None)
        ∧ (has_path (cls (self w)) = true → is_Some (entry !! "path")).
Proof.
  intros Hc.
  apply construct_fields in Hc as (Hcls & _ & Hidx & Hmeta & _).
  rewrite Hcls. apply mapM_result_Forall2 in Hmeta.
  split; [symmetry; by eapply Forall2_length|].
  intros i entry Hi.
  destruct (Forall2_lookup_l _ _ _ _ _ Hmeta Hi) as (d & Hd & Hf).
  unfold meta_of, getitem in Hf.
  destruct (entry !! "id") as [id|]; cbn in Hf; [|done].
  destruct (entry !! label_field _) as [label|]; cbn in Hf; [|done].
  destruct (has_path (class_of call)).
  - destruct (entry !! "path") as [path|]; cbn in Hf; [|done].
    destruct (labels2idx (self w) !! label) as [idx|] eqn:Hl; cbn in Hf;
      [|done].
    injection Hf as <-. exists id, label, idx. eexists.
    split_and!; try done; try by simplify_map_eq.
    by eapply create_label2idx_dict_bound.
  - destruct (labels2idx (self w) !! label) as [idx|] eqn:Hl; cbn in Hf;
      [|done].
    injection Hf as <-. exists id, label, idx. eexists.
    split_and!; try done; try by simplify_map_eq.
    by eapply create_label2idx_dict_bound.
Qed.

Lemma meta_records_follow_manifest_witness :
  construct list_example_env (NewImageList "list.txt" "out" "root" false (-1))
  = inr list_example_world
  ∧ length (heap list_example_world) = 2
  ∧ ∃ d, heap list_example_world !! 1 = Some d
         ∧ d !! "id" = Some (PStr "b.jpg")
         ∧ d !! "label" = Some (PStr "dog")
         ∧ d !! "idx" = Some (PInt 1)
         ∧ d !! "path" = Some (PStr "imgs/b.jpg").
Proof.
  assert (Hc : construct list_example_env
                 (NewImageList "list.txt" "out" "root" false (-1))
               = inr list_example_world) by (vm_compute; reflexivity).
  split; [exact Hc|].
  destruct (meta_records_follow_manifest _ _ _ Hc) as [Hlen Hrec].
  split; [rewrite Hlen; vm_compute; reflexivity|].
  destruct (Hrec 1 (line_record "imgs/b.jpg" "dog"))
    as (id & label & idx & d & Hid & Hlabel & Hidx & _ & Hd & H1 & H2 & H3 & H4 & _);
    [vm_compute; reflexivity|].
  assert (id = "b.jpg") as -> by (vm_compute in Hid; congruence).
  assert (label = "dog") as -> by (vm_compute in Hlabel; congruence).
  assert (idx = 1) as -> by (vm_compute in Hidx; congruence).
  exists d. repeat split; try assumption.
Defined.

(** ** What the constructors raise *)

Lemma read_csv_keys E csv_file data :
  read_csv E csv_file = inr data → Forall (has_keys CsvJpeg) data.
Proof.
  unfold read_csv. bind_cases.
  destruct (csv_reader _ _) as [content stop].
  destruct (mapM _ content) as [e|data'] eqn:Hm; cbn; [done|].
  destruct stop as [e|]; [done|]. intros [= <-].
  apply mapM_result_Forall2 in Hm. clear -Hm.
  induction Hm as [|row d rows ds Hd _ IH]; [constructor|].
  constructor; [|done].
  revert Hd. bind_cases. intros [= <-]. unfold has_keys.
  split_and!; [by simplify_map_eq..|done].
Qed.

Lemma parse_paths_keys E input_file data :
  parse_paths E input_file = inr data → Forall (has_keys ImageList) data.
Proof.
  unfold parse_paths. bind_cases. intros Hm.
  apply mapM_result_Forall2 in Hm. clear -Hm.
  induction Hm as [|item d items ds Hd _ IH]; [constructor|].
  constructor; [|done].
  destruct item as [|img_path [|label_name [|]]]; try done.
  injection Hd as <-. unfold has_keys.
  split_and!; [by simplify_map_eq..|intros _; by simplify_map_eq].
Qed.

Lemma parse_folder_keys E file_extensions folder data :
  parse_folder E file_extensions folder = inr data →
  Forall (has_keys ImageFolder) data.
Proof.
  unfold parse_folder. destruct (foldl _ _ _) as [paths|]; [|done].
  cbn. intros [= <-]. apply Forall_fmap, Forall_forall. intros p _.
  unfold has_keys. cbn.
  split_and!; [by simplify_map_eq..|intros _; by simplify_map_eq].
Qed.

Lemma manifest_records_keys E call data :
  class_of call ≠ JsonVideo →
  manifest_records E call = inr data → Forall (has_keys (class_of call)) data.
Proof.
  destruct call; cbn; intros Hc; [done|..];
    eauto using read_csv_keys, parse_paths_keys, parse_folder_keys.
Qed.

Lemma create_label2idx_dict_inr name data :
  Forall (λ entry : gmap string string, is_Some (entry !! name)) data →
  ∃ labels2idx, create_label2idx_dict name data = inr labels2idx.
Proof.
  intros Hall. rewrite create_label2idx_dict_ref.
  apply labels_of_is_Some in Hall as [items ->]. eauto.
Qed.

Lemma create_label2idx_dict_inl name data e :
  create_label2idx_dict name data = inl e →
  e = KeyError name ∧ Exists (λ entry, entry !! name = None) data.
Proof.
  rewrite create_label2idx_dict_ref.
  destruct (labels_of name data) as [items|] eqn:Hl; [done|].
  intros [= <-]. split; [done|].
  destruct (decide (Exists (λ entry : gmap string string,
                              entry !! name = None) data)) as [|Hn]; [done|].
  exfalso. apply not_Exists_Forall in Hn; [|apply _].
  assert (is_Some (labels_of name data)) as [? ?]; [|congruence].
  apply labels_of_is_Some. eapply Forall_impl; [exact Hn|].
  intros entry H. simpl in H. by destruct (entry !! name).
Qed.

(** With the label index of the same records, [get_meta] can only miss the
    record's own keys. *)
Lemma meta_of_inl c data labels2idx entry e :
  create_label2idx_dict (label_field c) data = inr labels2idx →
  entry ∈ data → meta_of c labels2idx entry = inl e →
  (e = KeyError "id" ∧ entry !! "id" = None)
  ∨ (e = KeyError "path" ∧ has_path c = true ∧ entry !! "path" = None).
Proof.
  intros Hl Hin. unfold meta_of, getitem.
  destruct (entry !! "id") as [id|]; cbn; [|intros [= <-]; by left].
  destruct (entry !! label_field c) as [label|] eqn:Hlabel; cbn.
  - destruct (create_label2idx_dict_covers _ _ _ _ _ Hl Hin Hlabel)
      as [idx Hidx].
    destruct (has_path c).
    + destruct (entry !! "path") as [path|]; cbn.
      * by rewrite Hidx.
      * intros [= <-]. by right.
    + by rewrite Hidx.
  - exfalso. rewrite create_label2idx_dict_ref in Hl.
    destruct (labels_of (label_field c) data) as [items|] eqn:Hitems; [|done].
    assert (Hsome : is_Some (labels_of (label_field c) data)) by eauto.
    apply labels_of_is_Some in Hsome. rewrite Forall_forall in Hsome.
    destruct (Hsome entry Hin) as [? ?]. congruence.
Qed.

(** X2. A constructor raises whatever its manifest parser raises. The
    CSV, image-list and image-folder constructors raise nothing else: they
    succeed exactly when the parser does, and keep its records as [data].
    The JSON constructor, on a manifest that is an array of objects with
    string values, raises [KeyError('template')] when an entry has no
    [template], [KeyError('id')] when every entry has a [template] and one
    has no [id], and succeeds otherwise. *)
Theorem constructor_errors (E : Env) (call : ctor_call) :
  (∀ e, manifest_records E call = inl e → construct E call = inl e)
  ∧ (class_of call ≠ JsonVideo →
     (∀ e, construct E call = inl e → manifest_records E call = inl e)
     ∧ ∀ records, manifest_records E call = inr records →
                  ∃ w, construct E call = inr w ∧ data (self w) = records)
  ∧ (class_of call = JsonVideo →
     ∀ records, manifest_records E call = inr records →
       (Exists (λ entry, entry !! "template" = None) records →
          construct E call = inl (KeyError "template"))
       ∧ (Forall (λ entry, is_Some (entry !! "template")) records →
          Exists (λ entry, entry !! "id" = None) records →
          construct E call = inl (KeyError "id"))
       ∧ (Forall (λ entry, is_Some (entry !! "template")
                           ∧ is_Some (entry !! "id")) records →
          ∃ w, construct E call = inr w ∧ data (self w) = records)).
Proof.
  assert (Hdata : ∀ records w,
            manifest_records E call = inr records →
            construct E call = inr w → data (self w) = records).
  { intros records w Hm Hcon.
    apply construct_fields in Hcon as (_ & Hm' & _). congruence. }
  assert (Hgood : ∀ records,
            manifest_records E call = inr records →
            Forall (λ entry : gmap string string,
                      is_Some (entry !! "id")
                      ∧ is_Some (entry !! label_field (class_of call))
                      ∧ (has_path (class_of call) = true →
                         is_Some (entry !! "path"))) records →
            ∃ w, construct E call = inr w ∧ data (self w) = records).
  2: {
  split_and!.
  - intros e He. rewrite construct_unfold, He. done.
  - intros Hc. split.
    + intros e. rewrite construct_unfold.
      destruct (manifest_records E call) as [e'|records] eqn:Hm; cbn;
        [by intros [= <-]|].
      intros Hcon. exfalso.
      destruct (Hgood records eq_refl) as (w & Hw & _).
      * eapply Forall_impl;
          [exact (manifest_records_keys E call records Hc Hm)|].
        intros entry (Hid & Hlabel & Hpath).
        split; [done|]. split; [|done]. by destruct (class_of call).
      * rewrite construct_unfold, Hm in Hw. cbn in Hw. congruence.
    + intros records Hm. apply Hgood; [done|].
      eapply Forall_impl;
        [exact (manifest_records_keys E call records Hc Hm)|].
      intros entry (Hid & Hlabel & Hpath).
      split; [done|]. split; [|done]. by destruct (class_of call).
  - intros Hc records Hm. split_and!.
    + intros Hex. rewrite construct_unfold, Hm, Hc. cbn.
      destruct (create_label2idx_dict "template" records) as [e|l2i] eqn:Hl.
      * by apply create_label2idx_dict_inl in Hl as [-> _].
      * exfalso. rewrite create_label2idx_dict_ref in Hl.
        unfold label_index_ref in Hl.
        destruct (labels_of "template" records) as [items|] eqn:Hitems;
          [|done].
        assert (Hsome : is_Some (labels_of "template" records)) by eauto.
        apply labels_of_is_Some in Hsome. rewrite Forall_forall in Hsome.
        apply Exists_exists in Hex as (entry & Hin & Hnone).
        destruct (Hsome entry Hin) as [? ?]. congruence.
    + intros Hall Hex. rewrite construct_unfold, Hm, Hc. cbn.
      destruct (create_label2idx_dict_inr "template" records Hall)
        as [l2i Hl].
      rewrite Hl. cbn.
      destruct (mapM (meta_of JsonVideo l2i) records) as [e|metas] eqn:Hmeta;
        cbn.
      * apply mapM_result_inl in Hmeta as (entry & Hin & Hf).
        destruct (meta_of_inl JsonVideo _ _ _ _ Hl Hin Hf)
          as [[-> _]|(_ & Hp & _)]; done.
      * exfalso. apply mapM_result_Forall2 in Hmeta.
        apply Exists_exists in Hex as (entry & Hin & Hnone).
        apply list_elem_of_lookup in Hin as [i Hi].
        destruct (Forall2_lookup_l _ _ _ _ _ Hmeta Hi) as (d & _ & Hd).
        unfold meta_of, getitem in Hd. by rewrite Hnone in Hd.
    + intros Hall. apply Hgood; [done|]. rewrite Hc.
      eapply Forall_impl; [exact Hall|].
      intros entry [Ht Hid]. done. }
  intros records Hm Hk.
  destruct (construct E call) as [e|w] eqn:Hcon; [|by eauto].
  exfalso. revert Hcon. rewrite construct_unfold, Hm. cbn.
  destruct (create_label2idx_dict_inr (label_field (class_of call))
              records) as [l2i Hl].
  { eapply Forall_impl; [exact Hk|]. by intros entry (_ & Hlabel & _). }
  rewrite Hl. cbn.
  destruct (mapM_result_inr (meta_of (class_of call) l2i) records)
    as [metas ->]; [|done].
  apply Forall_forall. intros entry Hin.
  destruct (meta_of (class_of call) l2i entry) as [e'|d] eqn:Hf; [|eauto].
  rewrite Forall_forall in Hk. destruct (Hk entry Hin) as (Hid & _ & Hp).
  destruct (meta_of_inl _ _ _ _ _ Hl Hin Hf)
    as [[_ Hnone]|(_ & Hhp & Hnone)].
  - destruct Hid. congruence.
  - destruct (Hp Hhp). congruence.
Qed.

(** ** Shuffling *)

Lemma construct_shuffle_flag E b call w :
  construct E (with_shuffle b call) = inr w → shuffle (self w) = b.
Proof.
  destruct call; cbn;
    [unfold Custom20BNJsonVideoAdapter.init
    |unfold Custom20BNCsvJpegAdapter.init
    |unfold ImageListAdapter.init
    |unfold ImageFolderAdapter.init];
    bind_cases; intros [= <-]; by destruct b.
Qed.

Lemma class_of_with_shuffle b call : class_of (with_shuffle b call) = class_of call.
Proof. by destruct call. Qed.

(** X3. Constructing with [shuffle] set changes nothing but the order of
    [all_meta]: the parsed records, the label index and the MetaRecords in
    the store are those of the unshuffled construction, whose [all_meta]
    lists the records in manifest order, and the shuffled [all_meta] is what
    [random.shuffle] makes of that list, a permutation of it. *)
Theorem shuffle_only_reorders (E : Env) (call : ctor_call) (w0 w1 : world) :
  construct E (with_shuffle false call) = inr w0 →
  construct E (with_shuffle true call) = inr w1 →
  data (self w1) = data (self w0)
  ∧ labels2idx (self w1) = labels2idx (self w0)
  ∧ heap w1 = heap w0
  ∧ all_meta (self w0) = seq 0 (length (data (self w0)))
  ∧ all_meta (self w1) = random_shuffle E (all_meta (self w0))
  ∧ all_meta (self w1) ≡ₚ all_meta (self w0).
Proof.
  intros H0 H1.
  pose proof (construct_shuffle_flag _ _ _ _ H0) as Hf0.
  pose proof (construct_shuffle_flag _ _ _ _ H1) as Hf1.
  apply construct_fields in H0 as (_ & Hm0 & Hl0 & Hh0 & Ha0 & _).
  apply construct_fields in H1 as (_ & Hm1 & Hl1 & Hh1 & Ha1 & _).
  rewrite class_of_with_shuffle in *.
  rewrite manifest_records_with_shuffle in *.
  rewrite Hf0 in Ha0. rewrite Hf1 in Ha1.
  assert (Hd : data (self w1) = data (self w0)) by congruence.
  rewrite Hd in *.
  assert (Hl : labels2idx (self w1) = labels2idx (self w0)) by congruence.
  rewrite Hl in *.
  assert (Hh : heap w1 = heap w0) by congruence.
  rewrite Hh in *.
  assert (Hlen : length (heap w0) = length (data (self w0))).
  { apply mapM_result_Forall2 in Hh0. symmetry. by eapply Forall2_length. }
  split_and!; try done.
  - by rewrite Ha0, Hlen.
  - by rewrite Ha1, Ha0.
  - rewrite Ha1, Ha0. apply random_shuffle_perm.
Qed.

Lemma shuffle_only_reorders_witness :
  let call := NewCsvJpeg "labels.csv" "frames" "out" false (-1) "/dev/shm" in
  let w0 := world_of (construct csv_example_env (with_shuffle false call)) in
  let w1 := world_of (construct csv_example_env (with_shuffle true call)) in
  construct csv_example_env (with_shuffle false call) = inr w0
  ∧ construct csv_example_env (with_shuffle true call) = inr w1
  ∧ all_meta (self w0) = [0; 1; 2] ∧ all_meta (self w1) = [2; 1; 0]
  ∧ heap w1 = heap w0.
Proof.
  cbv zeta.
  assert (H0 : construct csv_example_env
                 (with_shuffle false
                    (NewCsvJpeg "labels.csv" "frames" "out" false (-1)
                       "/dev/shm"))
               = inr (world_of (construct csv_example_env
                        (with_shuffle false
                           (NewCsvJpeg "labels.csv" "frames" "out" false (-1)
                              "/dev/shm")))))
    by (vm_compute; reflexivity).
  assert (H1 : construct csv_example_env
                 (with_shuffle true
                    (NewCsvJpeg "labels.csv" "frames" "out" false (-1)
                       "/dev/shm"))
               = inr (world_of (construct csv_example_env
                        (with_shuffle true
                           (NewCsvJpeg "labels.csv" "frames" "out" false (-1)
                              "/dev/shm")))))
    by (vm_compute; reflexivity).
  destruct (shuffle_only_reorders _ _ _ _ H0 H1) as (_ & _ & Hh & _).
  split; [exact H0|]. split; [exact H1|].
  split; [vm_compute; reflexivity|]. split; [vm_compute; reflexivity|].
  exact Hh.
Defined.

(** ** The CSV and image-list parsers *)

(** X4. [read_csv] hands the rows to its loop as the CSV reader gives
    them: each row becomes a record, in order, with the first field as id
    and the second as label, further fields being ignored. A row with fewer
    than two fields (an empty line gives such a row) makes it raise
    [IndexError], also when a later line would make the reader raise; when
    every row has two fields and the reader raises, that error comes out
    after the last row. *)
Theorem read_csv_rows (E : Env) (csv_file text : string)
    (rows : list (list string)) (stop : option exn) :
  open_text E csv_file = inr text →
  csv_reader text ";"%char = (rows, stop) →
  (Forall (λ row, 2 ≤ length row) rows →
     read_csv E csv_file
     = match stop with
       | None => inr (row_record <$> rows)
       | Some e => inl e
       end)
  ∧ (Exists (λ row, length row < 2) rows →
       read_csv E csv_file = inl IndexError).
Proof.
  intros Ho Hr. unfold read_csv. rewrite Ho. cbn. rewrite Hr.
  clear Ho Hr. split.
  - intros Hall.
    assert (mapM (λ row,
                    id ← list_item row 0;
                    label ← list_item row 1;
                    mret ({[ "id" := id; "label" := label ]}
                           : gmap string string)) rows
            = inr (row_record <$> rows)) as ->; [|done].
    induction Hall as [|row rows Hrow _ IH]; [done|].
    cbn. destruct row as [|id [|label row]]; simpl in Hrow; [lia..|].
    cbn. by rewrite IH.
  - intros Hex.
    assert (mapM (λ row,
                    id ← list_item row 0;
                    label ← list_item row 1;
                    mret ({[ "id" := id; "label" := label ]}
                           : gmap string string)) rows
            = inl IndexError) as ->; [|done].
    induction Hex as [row rows Hrow|row rows _ IH].
    + by destruct row as [|id [|label row]]; simpl in Hrow; [..|lia].
    + cbn. rewrite IH.
      by destruct row as [|id [|label row]].
Qed.

Lemma read_csv_rows_witness :
  open_text csv_short_row_env "labels.csv" = inr csv_short_row_text
  ∧ csv_reader csv_short_row_text ";"%char
    = ([["x"]],
       Some (OtherError "new-line character seen in unquoted field"))
  ∧ read_csv csv_short_row_env "labels.csv" = inl IndexError
  ∧ csv_reader csv_blank_line_text ";"%char = ([["1"; "cat"]; []], None)
  ∧ read_csv csv_blank_line_env "labels.csv" = inl IndexError.
Proof.
  split; [reflexivity|]. split; [vm_compute; reflexivity|]. split.
  - apply (read_csv_rows csv_short_row_env "labels.csv" csv_short_row_text
             [["x"]]
             (Some (OtherError "new-line character seen in unquoted field")));
      [reflexivity|vm_compute; reflexivity|].
    apply Exists_cons_hd. simpl. lia.
  - split; [vm_compute; reflexivity|].
    apply (read_csv_rows csv_blank_line_env "labels.csv" csv_blank_line_text
             [["1"; "cat"]; []] None);
      [reflexivity|vm_compute; reflexivity|].
    apply Exists_cons_tl, Exists_cons_hd. simpl. lia.
Defined.

(** X5. [parse_paths] reads the file line by line, a line ending at a line
    feed, a carriage return or both, and strips each line of the white
    space around it, the white space beyond ASCII included. It gives one
    record per line, in order, when every stripped line splits at its commas
    into exactly a path and a label: the record holds the path, the label
    and the path's basename as id. A line that splits into another number
    of parts (an empty one, one without comma, one with two commas) makes
    it raise [ValueError]. *)
Theorem parse_paths_lines (E : Env) (input_file text : string) :
  open_text E input_file = inr text →
  let items := (λ line, split_on ","%char (strip line)) <$> text_lines text in
  (Forall (λ item, length item = 2) items →
     ∃ data, parse_paths E input_file = inr data
             ∧ length data = length (text_lines text)
             ∧ ∀ i img_path label_name,
                 items !! i = Some [img_path; label_name] →
                 data !! i = Some (line_record img_path label_name))
  ∧ (Exists (λ item, length item ≠ 2) items →
       ∃ msg, parse_paths E input_file = inl (ValueError msg)).
Proof.
  intros Ho items. unfold parse_paths. rewrite Ho. cbn. fold items.
  assert (Hlen : length items = length (text_lines text))
    by (unfold items; apply length_fmap).
  rewrite <- Hlen. clear Ho Hlen. generalize items. clear items.
  intros items. split.
  - induction 1 as [|item items Hitem _ (data & IH & Hl & Hd)].
    + exists []. cbn. split; [done|]. split; [done|]. by intros [].
    + destruct item as [|img_path [|label_name [|]]]; try done.
      exists (line_record img_path label_name :: data).
      cbn. rewrite IH. cbn. split; [done|]. split; [by rewrite Hl|].
      intros [|i] p l; cbn; [by intros [= <- <-]|apply Hd].
  - induction 1 as [item items Hitem|item items _ [msg IH]].
    + destruct item as [|img_path [|label_name [|]]]; cbn; try done;
        by eexists.
    + destruct item as [|img_path [|label_name [|]]]; cbn;
        try by eexists.
      rewrite IH. by eexists.
Qed.

Lemma parse_paths_lines_witness :
  open_text list_bad_line_env "list.txt" = inr list_bad_line_text
  ∧ (∃ msg, parse_paths list_bad_line_env "list.txt" = inl (ValueError msg))
  ∧ (λ line, split_on ","%char (strip line)) <$> text_lines list_crlf_text
    = [["imgs/a.jpg"; "cat"]; ["imgs/b.jpg"; "dog"]]
  ∧ ∃ data, parse_paths list_crlf_env "list.txt" = inr data
            ∧ length data = 2
            ∧ data !! 1 = Some (line_record "imgs/b.jpg" "dog").
Proof.
  split; [reflexivity|]. split.
  - apply (parse_paths_lines list_bad_line_env "list.txt" list_bad_line_text
             eq_refl).
    apply Exists_cons_tl, Exists_cons_hd. vm_compute. lia.
  - assert (Hitems :
      (λ line, split_on ","%char (strip line)) <$> text_lines list_crlf_text
      = [["imgs/a.jpg"; "cat"]; ["imgs/b.jpg"; "dog"]])
      by (vm_compute; reflexivity).
    split; [exact Hitems|].
    destruct (parse_paths_lines list_crlf_env "list.txt" list_crlf_text
                eq_refl) as [H _].
    destruct H as (data & Hd & Hl & Hrec).
    + cbv zeta. rewrite Hitems. repeat constructor.
    + exists data. split; [exact Hd|]. split.
      * rewrite Hl. vm_compute. reflexivity.
      * apply Hrec. rewrite Hitems. reflexivity.
Defined.

(** ** Paths *)

Lemma app_String c s t : String c s +:+ t = String c (s +:+ t).
Proof. done. Qed.

Lemma app_empty t : "" +:+ t = t.
Proof. done. Qed.

Lemma has_slash_app s t : has_slash (s +:+ t) = has_slash s || has_slash t.
Proof.
  induction s as [|c s IH]; [done|].
  rewrite app_String. cbn [has_slash]. rewrite IH. by rewrite orb_assoc.
Qed.

Lemma basename_no_slash f : has_slash f = false → basename f = f.
Proof.
  destruct f as [|c f]; [done|]. cbn. intros H.
  apply orb_false_iff in H as [Hc ->]. apply bool_decide_eq_false in Hc.
  by rewrite decide_False.
Qed.

Lemma basename_app s f :
  has_slash f = false → basename (s +:+ String slash f) = f.
Proof.
  intros Hf. induction s as [|c s IH].
  - rewrite app_empty. cbn. rewrite Hf. by rewrite decide_True.
  - rewrite app_String. cbn [basename].
    rewrite has_slash_app. cbn [has_slash].
    rewrite bool_decide_eq_true_2 by done. by rewrite orb_true_r.
Qed.

Lemma head_of_path_app s f :
  has_slash f = false → head_of_path (s +:+ String slash f) = s +:+ "/".
Proof.
  intros Hf. induction s as [|c s IH].
  - rewrite !app_empty. cbn. rewrite Hf. by rewrite decide_True.
  - rewrite !app_String. cbn [head_of_path].
    rewrite has_slash_app. cbn [has_slash].
    rewrite bool_decide_eq_true_2 by done. rewrite orb_true_r. by rewrite IH.
Qed.

Lemma rstrip_slash_app_slash s : rstrip_slash (s +:+ "/") = rstrip_slash s.
Proof.
  induction s as [|c s IH]; [done|].
  rewrite app_String. cbn [rstrip_slash]. by rewrite IH.
Qed.

Lemma rstrip_slash_id s c :
  c ≠ slash → rstrip_slash (s +:+ String c "") = s +:+ String c "".
Proof.
  intros Hc. induction s as [|a s IH].
  - rewrite app_empty. cbn. by rewrite decide_False.
  - rewrite app_String. cbn [rstrip_slash]. rewrite IH.
    by destruct s.
Qed.

Lemma all_slashes_app s c t :
  c ≠ slash → all_slashes (s +:+ String c t) = false.
Proof.
  intros Hc. induction s as [|a s IH].
  - rewrite app_empty. cbn. by rewrite bool_decide_eq_false_2.
  - rewrite app_String. cbn [all_slashes]. rewrite IH. apply andb_false_r.
Qed.

Lemma app_assoc_string s t u : (s +:+ t) +:+ u = s +:+ (t +:+ u).
Proof.
  induction s as [|c s IH]; [done|]. rewrite !app_String. by rewrite IH.
Qed.

(** [os.path.dirname] and [os.path.basename] of [dir/f], when [dir] does
    not end in a slash and [f] has none. *)
Lemma dirname_app d c f :
  c ≠ slash → has_slash f = false →
  dirname ((d +:+ String c "") +:+ String slash f) = d +:+ String c "".
Proof.
  intros Hc Hf. unfold dirname. rewrite head_of_path_app by done.
  rewrite app_assoc_string. change (String c "" +:+ "/") with (String c "/").
  rewrite all_slashes_app by done.
  replace (bool_decide (d +:+ String c "/" = "")) with false
    by (symmetry; apply bool_decide_eq_false; by destruct d).
  cbn [negb andb].
  change (String c "/") with (String c "" +:+ "/").
  rewrite <- app_assoc_string, rstrip_slash_app_slash.
  by apply rstrip_slash_id.
Qed.

Lemma split_on_nonempty sep s : split_on sep s ≠ [].
Proof.
  destruct s as [|c s]; [done|]. cbn.
  case_decide; [done|]. by destruct (split_on sep s).
Qed.

Lemma split_on_no_sep f : has_slash f = false → split_on slash f = [f].
Proof.
  induction f as [|c f IH]; [done|]. cbn. intros H.
  apply orb_false_iff in H as [Hc Hf]. apply bool_decide_eq_false in Hc.
  rewrite decide_False by done. by rewrite IH.
Qed.

Lemma split_on_app s t :
  split_on slash (s +:+ String slash t) = split_on slash s ++ split_on slash t.
Proof.
  induction s as [|c s IH].
  - rewrite app_empty. cbn. by rewrite decide_True.
  - rewrite app_String. cbn [split_on]. rewrite IH.
    case_decide; [done|].
    pose proof (split_on_nonempty slash s).
    by destruct (split_on slash s).
Qed.

Lemma last_nonempty c : c ≠ "" → has_slash c = false →
  ∃ c' a, c = c' +:+ String a "" ∧ a ≠ slash.
Proof.
  induction c as [|a c IH]; [done|]. intros _ H. cbn in H.
  apply orb_false_iff in H as [Ha Hc]. apply bool_decide_eq_false in Ha.
  destruct c as [|b c].
  - by exists "", a.
  - destruct (IH ltac:(done) Hc) as (c' & a' & -> & Ha').
    exists (String a c'), a'. by rewrite app_String.
Qed.

(** ** The folder parser and the paths it stores *)

(** X6. With a non-empty list of extensions, [parse_folder] returns one
    record per path that [glob] finds for the pattern of the last extension,
    in lexicographic order of the paths; with no extension it raises
    [NameError], the name [paths] being unbound after the loop. *)
Theorem parse_folder_records (E : Env) (exts : list string)
    (ext folder : string) :
  (∃ L, L ≡ₚ glob_glob E (folder +:+ "**/*" +:+ ext)
        ∧ Sorted String.le L
        ∧ parse_folder E (exts ++ [ext]) folder = inr (folder_record <$> L))
  ∧ parse_folder E [] folder = inl (NameError "paths").
Proof.
  split; [|done].
  exists (sorted (glob_glob E (folder +:+ "**/*" +:+ ext))). split_and!.
  - apply merge_sort_Permutation.
  - apply (Sorted_merge_sort _).
  - unfold parse_folder. by rewrite foldl_app.
Qed.

(** X7. For an image at [dir/c/f], where the directory name [c] is not
    empty and neither [c] nor the file name [f] holds a slash,
    [parse_folder] stores [f] as id, [c] (the immediate parent directory)
    as label and [dir/c] as path. *)
Theorem folder_record_fields (dir c f : string) :
  c ≠ "" → has_slash c = false → has_slash f = false →
  folder_record (dir +:+ String slash (c +:+ String slash f))
  = {[ "id" := f; "label" := c; "path" := dir +:+ String slash c ]}.
Proof.
  intros Hne Hc Hf.
  assert (Hbase : basename (dir +:+ String slash (c +:+ String slash f)) = f).
  { change (String slash (c +:+ String slash f))
      with (String slash c +:+ String slash f).
    rewrite <- app_assoc_string. by apply basename_app. }
  assert (Hdir : dirname (dir +:+ String slash (c +:+ String slash f))
                 = dir +:+ String slash c).
  { destruct (last_nonempty c Hne Hc) as (c' & a & -> & Ha).
    replace (dir +:+ String slash ((c' +:+ String a "") +:+ String slash f))
      with (((dir +:+ String slash c') +:+ String a "") +:+ String slash f).
    - rewrite dirname_app by done. rewrite app_assoc_string. reflexivity.
    - rewrite !app_assoc_string. reflexivity. }
  unfold folder_record. rewrite Hbase, Hdir.
  rewrite split_on_app, (split_on_no_sep c) by done.
  unfold last_item. by rewrite last_snoc.
Qed.

Lemma folder_record_fields_witness :
  "cat" ≠ "" ∧ has_slash "cat" = false ∧ has_slash "a.jpg" = false
  ∧ folder_record "root/cat/a.jpg"
    = {[ "id" := "a.jpg"; "label" := "cat"; "path" := "root/cat" ]}.
Proof.
  split; [discriminate|]. split; [reflexivity|]. split; [reflexivity|].
  apply (folder_record_fields "root" "cat" "a.jpg");
    [discriminate|reflexivity|reflexivity].
Defined.

Lemma startswith_slash a s : startswith (String a s) "/" = bool_decide (a = slash).
Proof.
  unfold startswith. cbn.
  replace (substring 0 0 s) with "" by (by destruct s).
  apply bool_decide_ext. split.
  - by intros [= ->].
  - by intros ->.
Qed.

Lemma startswith_no_slash f : has_slash f = false → startswith f "/" = false.
Proof.
  destruct f as [|a f]; [done|]. rewrite startswith_slash. cbn.
  by intros [? ?]%orb_false_iff.
Qed.

Lemma endswith_last s c : c ≠ slash → endswith (s +:+ String c "") "/" = false.
Proof.
  intros Hc. induction s as [|a s IH].
  - rewrite app_empty. cbn.
    rewrite bool_decide_eq_false_2 by (by intros [= ->]). done.
  - rewrite app_String. cbn [endswith]. rewrite IH, orb_false_r.
    apply bool_decide_eq_false. intros [= -> Hs]. by destruct s.
Qed.

(** [os.path.join(path, f)] where [path] ends in a character that is not a
    slash and [f] has no slash. *)
Lemma path_join2_file s c f :
  c ≠ slash → has_slash f = false →
  path_join2 (s +:+ String c "") f = (s +:+ String c "") +:+ String slash f.
Proof.
  intros Hc Hf. unfold path_join2.
  rewrite startswith_no_slash, endswith_last by done.
  rewrite bool_decide_eq_false_2 by (by destruct s). done.
Qed.

(** [os.path.join] of a folder, [dirname p] and [basename p], for [p] of
    the form [dir/f] with [dir] not ending in a slash and [f] without
    slash. *)
Lemma join_dirname_basename folder d c f :
  c ≠ slash → has_slash f = false →
  let p := (d +:+ String c "") +:+ String slash f in
  (startswith p "/" = true → os_path_join folder [dirname p; basename p] = p)
  ∧ (startswith p "/" = false →
     os_path_join folder [dirname p; basename p] = os_path_join folder [p]).
Proof.
  intros Hc Hf p. unfold p.
  rewrite dirname_app, basename_app by done. cbn [os_path_join foldl].
  assert (Hstart : startswith ((d +:+ String c "") +:+ String slash f) "/"
                   = startswith (d +:+ String c "") "/").
  { destruct d as [|a d];
      by rewrite ?app_empty, !app_String, !startswith_slash. }
  rewrite Hstart. split; intros Habs.
  - unfold path_join2 at 2. rewrite Habs. by apply path_join2_file.
  - unfold path_join2 at 2 3. rewrite Hstart, Habs.
    destruct (bool_decide (folder = "") || endswith folder "/").
    + rewrite <- !app_assoc_string. rewrite path_join2_file by done.
      by rewrite !app_assoc_string.
    + rewrite <- !app_assoc_string. rewrite path_join2_file by done.
      by rewrite !app_assoc_string.
Qed.

Lemma app_empty_r s : s +:+ "" = s.
Proof. induction s as [|c s IH]; [done|]. by rewrite app_String, IH. Qed.

Lemma endswith_app_slash s : endswith (s +:+ "/") "/" = true.
Proof.
  induction s as [|c s IH]; [done|].
  rewrite app_String. cbn [endswith]. rewrite IH. apply orb_true_r.
Qed.

Lemma dirname_no_slash p : has_slash p = false → dirname p = "".
Proof.
  intros Hp. unfold dirname.
  assert (head_of_path p = "") as ->; [|done].
  destruct p as [|c p]; [done|]. cbn in *.
  apply orb_false_iff in Hp as [Hc ->]. apply bool_decide_eq_false in Hc.
  by rewrite decide_False.
Qed.

(** [os.path.join(folder, '', f)] is [os.path.join(folder, f)]. *)
Lemma join_empty_dirname folder f :
  has_slash f = false →
  os_path_join folder [""; f] = os_path_join folder [f].
Proof.
  intros Hf. cbn [os_path_join foldl]. unfold path_join2.
  rewrite (startswith_no_slash f Hf).
  change (startswith "" "/") with false. cbn match.
  destruct (bool_decide (folder = "") || endswith folder "/") eqn:Hfolder.
  - rewrite app_empty_r. by rewrite Hfolder.
  - change ("/" +:+ "") with "/". rewrite endswith_app_slash, orb_true_r.
    apply app_assoc_string.
Qed.

Lemma image_folder_init_fields E dir out exts flag img_size w :
  construct E (NewImageFolder dir out exts flag img_size) = inr w →
  cls (self w) = ImageFolder ∧ folder (self w) = dir
  ∧ frame_size (self w) = img_size.
Proof.
  cbn. unfold ImageFolderAdapter.init. bind_cases. intros [= <-].
  unfold fresh_world. by destruct flag.
Qed.

(** X8. What the image-folder generator does with a record that
    [parse_folder] made of a path [p] (every record of a constructed
    adapter is made of a path that [glob] gave for the last extension): it
    asks the image loader for [os.path.join] of the folder, [dirname p] and
    [basename p], and yields the one image with [basename p] as id. For a
    path without slash this is [os.path.join(folder, p)]; for [/f] it is
    the path itself; for [dir/f], with [dir] not ending in a slash and [f]
    without slash, it is [p] itself when [p] is absolute and
    [os.path.join(folder, p)] when it is relative, so that the folder comes
    in front of a relative path once more. *)
Theorem image_folder_image_path (E : Env) (folder output_folder : string)
    (file_extensions : list string) (shuffle : bool) (img_size : Z)
    (w : world) (i : nat) (p : string) :
  construct E (NewImageFolder folder output_folder file_extensions shuffle
                 img_size) = inr w →
  data (self w) !! i = Some (folder_record p) →
  let img_path := os_path_join folder [dirname p; basename p] in
  ImageFolderAdapter.body E w i
  = (img ← resize_by_short_edge E img_path img_size;
     mret (IterResult i [img] (PStr (basename p))))
  ∧ (∀ j entry, data (self w) !! j = Some entry →
       ∃ q ext, last file_extensions = Some ext
                ∧ q ∈ glob_glob E (folder +:+ "**/*" +:+ ext)
                ∧ entry = folder_record q)
  ∧ (has_slash p = false → img_path = os_path_join folder [p])
  ∧ (∀ f, has_slash f = false → p = String slash f → img_path = p)
  ∧ (∀ d c f, c ≠ slash → has_slash f = false →
       p = (d +:+ String c "") +:+ String slash f →
       (startswith p "/" = true → img_path = p)
       ∧ (startswith p "/" = false → img_path = os_path_join folder [p])).
Proof.
  intros Hc Hi img_path.
  destruct (image_folder_init_fields _ _ _ _ _ _ _ Hc) as (Hcls & Hfolder & Hsize).
  pose proof (construct_fields _ _ _ Hc) as (_ & Hm & _ & Hmeta & _).
  split_and!.
  - apply mapM_result_Forall2 in Hmeta.
    destruct (Forall2_lookup_l _ _ _ _ _ Hmeta Hi) as (d & Hd & Hf).
    cbn [class_of] in Hf. unfold meta_of, getitem, folder_record in Hf.
    cbn [has_path label_field] in Hf.
    repeat (rewrite lookup_insert_eq in Hf
            || rewrite lookup_insert_ne in Hf by done).
    cbn in Hf.
    destruct (labels2idx (self w) !! _) as [idx|]; cbn in Hf; [|done].
    injection Hf as <-.
    unfold ImageFolderAdapter.body, deref. rewrite Hd, Hfolder, Hsize.
    cbn [default from_option id]. unfold getitem.
    repeat (rewrite lookup_insert_eq || rewrite lookup_insert_ne by done).
    reflexivity.
  - intros j entry Hj. cbn [manifest_records] in Hm.
    destruct file_extensions as [|ext0 exts] using rev_ind; [done|].
    rewrite parse_folder_last in Hm. unfold parse_folder in Hm. cbn in Hm.
    injection Hm as Hm. rewrite <- Hm in Hj.
    apply list_lookup_fmap_Some in Hj as (q & -> & Hq).
    exists q, ext0. rewrite last_snoc. split; [done|]. split; [|done].
    apply list_elem_of_lookup_2 in Hq.
    by rewrite merge_sort_Permutation in Hq.
  - intros Hp. unfold img_path.
    rewrite (dirname_no_slash p Hp), (basename_no_slash p Hp).
    by apply join_empty_dirname.
  - intros f Hf ->. unfold img_path.
    change (String slash f) with ("" +:+ String slash f).
    rewrite basename_app by done.
    unfold dirname. rewrite head_of_path_app by done. cbn.
    unfold path_join2. rewrite (startswith_no_slash f Hf). cbn.
    by destruct (startswith "/" "/").
  - intros d c f Hne Hf ->. by apply join_dirname_basename.
Qed.

Lemma image_folder_image_path_witness :
  let w := world_of (construct folder_example_env
                       (NewImageFolder "root/" "out" [".jpg"; ".png"] false
                          (-1))) in
  construct folder_example_env
    (NewImageFolder "root/" "out" [".jpg"; ".png"] false (-1)) = inr w
  ∧ data (self w) !! 0 = Some (folder_record "root/dog/b.png")
  ∧ os_path_join "root/" [dirname "root/dog/b.png"; basename "root/dog/b.png"]
    = "root/root/dog/b.png"
  ∧ ImageFolderAdapter.body folder_example_env w 0
    = (img ← resize_by_short_edge folder_example_env "root/root/dog/b.png"
               (-1);
       mret (IterResult 0 [img] (PStr "b.png"))).
Proof.
  cbv zeta.
  assert (Hc : construct folder_example_env
                 (NewImageFolder "root/" "out" [".jpg"; ".png"] false (-1))
               = inr (world_of (construct folder_example_env
                        (NewImageFolder "root/" "out" [".jpg"; ".png"] false
                           (-1)))))
    by (vm_compute; reflexivity).
  assert (Hd : data (self (world_of (construct folder_example_env
                        (NewImageFolder "root/" "out" [".jpg"; ".png"] false
                           (-1))))) !! 0
               = Some (folder_record "root/dog/b.png"))
    by (vm_compute; reflexivity).
  assert (Hp : os_path_join "root/"
                 [dirname "root/dog/b.png"; basename "root/dog/b.png"]
               = "root/root/dog/b.png") by (vm_compute; reflexivity).
  split; [exact Hc|]. split; [exact Hd|]. split; [exact Hp|].
  destruct (image_folder_image_path folder_example_env _ _ _ _ _ _ 0
              "root/dog/b.png" Hc Hd) as [Hbody _].
  rewrite Hbody. cbv zeta. rewrite Hp.
  change (basename "root/dog/b.png") with "b.png". reflexivity.
Defined.

(** ** Slices at the edges *)

(** X9. A slice with step 0 makes the first call of [next] raise
    [ValueError]: no record is acquired, nothing is written, and the store,
    [all_meta] of the image-list adapter included, is as before. *)
Theorem zero_step_slice_raises (E : Env) (w : world) (start stop : option Z)
    (n : nat) :
  consume E (S n) (iter_data (Some (Slice start stop (Some 0%Z)))) w
  = ([], Raised (ValueError "slice step cannot be zero"), GenFinished, w).
Proof.
  cbn [consume]. unfold iter_data.
  by rewrite (gen_next_created_error E _ w
                (ValueError "slice step cannot be zero")).
Qed.

Lemma gen_next_created_eq E s1 s2 w :
  list_getslice (all_meta (self w)) (slice_or_default s1 w)
  = list_getslice (all_meta (self w)) (slice_or_default s2 w) →
  gen_next E (GenCreated s1) w = gen_next E (GenCreated s2) w.
Proof.
  intros Hs. unfold gen_next.
  destruct (cls (self w));
    unfold Custom20BNJsonVideoAdapter.iter_data_next,
      Custom20BNCsvJpegAdapter.iter_data_next,
      ImageListAdapter.iter_data_next,
      ImageFolderAdapter.iter_data_next, iter_sliced; by rewrite Hs.
Qed.

Lemma drain_created_eq E s1 s2 w :
  list_getslice (all_meta (self w)) (slice_or_default s1 w)
  = list_getslice (all_meta (self w)) (slice_or_default s2 w) →
  drain E (iter_data s1) w = drain E (iter_data s2) w.
Proof.
  intros Hs. unfold drain, iter_data. cbn [gen_bound consume].
  by rewrite Hs, (gen_next_created_eq E s1 s2 w Hs).
Qed.

(** X10. A slice that reaches past the end is cut at the end: with
    [b >= len(all_meta)], [iter_data(slice(a, b))] runs as
    [iter_data(slice(a, len(all_meta)))] does. A slice that starts at or
    past the end selects nothing: draining it yields no result and, the
    file being writable, writes the label file all the same. *)
Theorem slice_past_the_end (E : Env) (w : world) (a b : nat) :
  length (all_meta (self w)) ≤ b →
  drain E (iter_data (Some (slice2 (Z.of_nat a) (Z.of_nat b)))) w
  = drain E (iter_data
               (Some (slice2 (Z.of_nat a)
                             (Z.of_nat (length (all_meta (self w))))))) w
  ∧ (length (all_meta (self w)) ≤ a →
     open_write E (label_file (self w)).1 = inr tt →
     ∃ w', drain E (iter_data (Some (slice2 (Z.of_nat a) (Z.of_nat b)))) w
           = ([], Exhausted, GenFinished, w')
           ∧ files w' = files w ++ [label_file (self w)]).
Proof.
  intros Hb. split.
  - apply drain_created_eq. unfold slice_or_default. simpl default.
    rewrite !list_getslice_slice2. f_equal.
    destruct (decide (a ≤ length (all_meta (self w)))).
    + rewrite !take_ge; [done|rewrite length_drop; lia..].
    + by rewrite drop_ge, !take_nil by lia.
  - intros Ha Hw.
    assert (Hs : list_getslice (all_meta (self w))
                   (slice_or_default
                      (Some (slice2 (Z.of_nat a) (Z.of_nat b))) w) = inr []).
    { unfold slice_or_default. simpl default. rewrite list_getslice_slice2.
      by rewrite drop_ge, take_nil by lia. }
    pose proof (consume_empty E 0 _ w Hs Hw) as Hrun.
    pose proof (consume_effect E 1
                  (iter_data (Some (slice2 (Z.of_nat a) (Z.of_nat b)))) w)
      as Heff.
    unfold drain. unfold iter_data at 1. cbn [gen_bound]. rewrite Hs.
    cbn [length].
    destruct (consume E 1 (iter_data _) w) as [[[rs e] g'] w'].
    cbn in Hrun. injection Hrun as -> ->.
    destruct Heff as (_ & Hf & ->). exists w'. done.
Qed.

Lemma slice_past_the_end_witness :
  length (all_meta (self list_example_world)) ≤ 7
  ∧ (let '(rs, e, _, _) :=
       drain list_example_env (iter_data (Some (slice2 1 7)))
             list_example_world in
     r_meta <$> rs = [1] ∧ e = Exhausted)
  ∧ ∃ w', drain list_example_env (iter_data (Some (slice2 5 7)))
                list_example_world = ([], Exhausted, GenFinished, w')
          ∧ files w' = [("out/label2idx.json", {[ "cat" := 0; "dog" := 1 ]})].
Proof.
  assert (H : length (all_meta (self list_example_world)) ≤ 7)
    by (vm_compute; lia).
  split; [exact H|]. split.
  - destruct (slice_past_the_end list_example_env list_example_world 1 7 H)
      as [Heq _].
    change (Z.of_nat 1) with 1%Z in Heq. change (Z.of_nat 7) with 7%Z in Heq.
    rewrite Heq. vm_compute. split; reflexivity.
  - destruct (slice_past_the_end list_example_env list_example_world 5 7 H)
      as [_ Hempty].
    destruct Hempty as (w' & Hd & Hf); [vm_compute; lia|reflexivity|].
    exists w'. split; [exact Hd|]. rewrite Hf. vm_compute. reflexivity.
Defined.

(** ** What a result holds *)

Lemma acquire_ext E w w' m :
  same_config (self w) (self w') → deref w m = deref w' m →
  acquire E w m = acquire E w' m.
Proof.
  destruct w as [a h f s], w' as [a' h' f' s'].
  destruct a, a'. unfold same_config. simpl. intros [=] Hd. subst.
  unfold acquire, Custom20BNJsonVideoAdapter.body,
    Custom20BNCsvJpegAdapter.body, ImageFolderAdapter.body. simpl.
  by rewrite Hd.
Qed.

Lemma paths_removed_refl w : paths_removed w w.
Proof. split; [done|]. by left. Qed.

Lemma paths_removed_trans w1 w2 w3 :
  paths_removed w1 w2 → paths_removed w2 w3 → paths_removed w1 w3.
Proof.
  intros [Hc1 H1] [Hc2 H2]. split; [unfold same_config in *; congruence|].
  intros m. destruct (H1 m) as [E1|E1], (H2 m) as [E2|E2];
    rewrite E2, E1; auto.
  right. apply delete_delete_eq.
Qed.

Lemma paths_removed_same w w' :
  same_config (self w') (self w) → heap w' = heap w → paths_removed w w'.
Proof. intros Hc Hh. split; [done|]. intros m. left. by apply deref_same_heap. Qed.

Lemma paths_removed_heap_pop meta w : paths_removed w (heap_pop meta "path" w).
Proof.
  split; [done|]. intros m. rewrite deref_heap_pop.
  destruct (decide (m = meta)); auto.
Qed.

(** A record that can be acquired after some paths were removed could be
    acquired before, with the same result. *)
Lemma acquire_paths_removed E w w' m r :
  paths_removed w w' → acquire E w' m = inr r → acquire E w m = inr r.
Proof.
  intros [Hc Hd].
  destruct (Hd m) as [Hm|Hm];
    [intros <-; by apply acquire_ext|].
  destruct w as [a h f s], w' as [a' h' f' s'].
  destruct a, a'. unfold same_config in Hc. simpl in Hc.
  injection Hc as ?. subst.
  unfold acquire, Custom20BNJsonVideoAdapter.body,
    Custom20BNCsvJpegAdapter.body, ImageFolderAdapter.body. simpl.
  rewrite Hm. unfold getitem.
  rewrite !lookup_delete_eq, !lookup_delete_ne by done.
  match goal with c : adapter_class |- _ => destruct c end; try done.
Qed.

Lemma body_meta E w meta r :
  acquire E w meta = inr r → r_meta r = meta.
Proof.
  unfold acquire, Custom20BNJsonVideoAdapter.body,
    Custom20BNCsvJpegAdapter.body, ImageFolderAdapter.body.
  intros Hb.
  destruct (cls (self w));
    repeat (match type of Hb with context [mbind _ ?x] =>
              destruct x; cbn in Hb; [done|] end);
    by injection Hb as <-.
Qed.

Lemma paths_removed_path_gone w w' m :
  paths_removed w w' → deref w m !! "path" = None →
  deref w' m !! "path" = None.
Proof.
  intros [_ Hd] Hm. destruct (Hd m) as [->| ->]; [done|].
  apply lookup_delete_eq.
Qed.

Lemma il_loop_acquires E rest w :
  cls (self w) = ImageList →
  let '(out, g', w') := ImageListAdapter.loop E rest w in
  paths_removed w w'
  ∧ match out with
    | Yield r => acquire E w (r_meta r) = inr r
                 ∧ deref w' (r_meta r) !! "path" = None
    | _ => True
    end.
Proof.
  revert w. induction rest as [|meta rest IH]; intros w Hcls.
  - simpl. pose proof (loop_else_effect E w) as H.
    destruct (loop_else E w) as [[out g'] w'].
    destruct H as (Hs & Hh & _ & _ & Hout).
    split; [apply paths_removed_same; [by rewrite Hs|done]|].
    by destruct (open_write E _); destruct Hout as [-> _].
  - cbn [ImageListAdapter.loop].
    destruct (getitem (deref w meta) "path") as [e|path] eqn:Hpath;
      [split; [apply paths_removed_refl|done]|].
    destruct (resize_by_short_edge E _ _) as [e|img] eqn:Himg.
    { destruct e; try (split; [apply paths_removed_refl|done]).
      specialize (IH (print msg w) Hcls).
      destruct (ImageListAdapter.loop E rest (print msg w))
        as [[out g'] w'].
      destruct IH as [Hp Hout]. split.
      - eapply paths_removed_trans; [|exact Hp].
        by apply paths_removed_same.
      - destruct out; [|done..]. destruct Hout as [Ha Hg]. split; [|done].
        by rewrite <- Ha; apply acquire_ext. }
    rewrite deref_heap_pop, decide_True by done.
    destruct (getitem (delete "path" (deref w meta)) "id") as [e|id] eqn:Hid;
      (split; [apply paths_removed_heap_pop|]); [done|].
    cbn [r_meta]. split.
    + unfold acquire. rewrite Hcls, Hpath. cbn [mbind result_bind].
      rewrite Himg. cbn [mbind result_bind]. by rewrite Hid.
    + rewrite deref_heap_pop, decide_True by done. apply lookup_delete_eq.
Qed.

Lemma loop_step_acquires body E rest w :
  (∀ meta, body E w meta = acquire E w meta) →
  let '(out, g', w') := loop_step body E rest w in
  self w' = self w ∧ heap w' = heap w
  ∧ match out with
    | Yield r => acquire E w (r_meta r) = inr r
    | _ => True
    end.
Proof.
  intros Hb. destruct rest as [|meta rest]; simpl.
  - pose proof (loop_else_effect E w) as H.
    destruct (loop_else E w) as [[out g'] w'].
    destruct H as (Hs & Hh & _ & _ & Hout).
    split; [done|]. split; [done|].
    by destruct (open_write E _); destruct Hout as [-> _].
  - rewrite Hb. destruct (acquire E w meta) as [e|r] eqn:Ha; [done|].
    split; [done|]. split; [done|].
    by rewrite (body_meta _ _ _ _ Ha).
Qed.

Lemma gen_next_suspended_acquires E rest w :
  let '(out, g', w') := gen_next E (GenSuspended rest) w in
  paths_removed w w'
  ∧ (cls (self w) ≠ ImageList → heap w' = heap w)
  ∧ match out with
    | Yield r =>
        acquire E w (r_meta r) = inr r
        ∧ (cls (self w) = ImageList → deref w' (r_meta r) !! "path" = None)
    | _ => True
    end.
Proof.
  unfold gen_next. destruct (cls (self w)) eqn:Hcls.
  1,2,4:
    unfold Custom20BNJsonVideoAdapter.iter_data_next,
      Custom20BNCsvJpegAdapter.iter_data_next,
      ImageFolderAdapter.iter_data_next, iter_sliced;
    match goal with |- context [loop_step ?b ?E' ?r' ?w'] =>
      pose proof (loop_step_acquires b E' r' w') as H;
      destruct (loop_step b E' r' w') as [[out g'] w1] end;
    (destruct H as (Hs & Hh & Hout);
       [intros meta; unfold acquire; by rewrite Hcls|]);
    (split; [apply paths_removed_same; [by rewrite Hs|done]|]);
    (split; [done|]); destruct out; done.
  unfold ImageListAdapter.iter_data_next.
  pose proof (il_loop_acquires E rest w Hcls) as H.
  destruct (ImageListAdapter.loop E rest w) as [[out g'] w'].
  destruct H as [Hp Hout]. split; [done|]. split; [done|].
  destruct out; [|done..]. destruct Hout. done.
Qed.

Lemma gen_next_acquires E g w :
  let '(out, g', w') := gen_next E g w in
  paths_removed w w'
  ∧ (cls (self w) ≠ ImageList → heap w' = heap w)
  ∧ match out with
    | Yield r =>
        acquire E w (r_meta r) = inr r
        ∧ (cls (self w) = ImageList → deref w' (r_meta r) !! "path" = None)
    | _ => True
    end.
Proof.
  destruct g as [slice_element|rest|].
  - destruct (list_getslice (all_meta (self w))
                (slice_or_default slice_element w)) as [e|metas] eqn:Hs.
    + rewrite (gen_next_created_error E _ w e Hs).
      split; [apply paths_removed_refl|done].
    + destruct (gen_next_created E _ w metas Hs)
        as (w1 & -> & Hcfg & Hheap & _).
      pose proof (gen_next_suspended_acquires E metas w1) as H.
      pose proof (same_config_fields _ _ Hcfg) as (Hcls & _).
      destruct (gen_next E (GenSuspended metas) w1) as [[out g'] w'].
      destruct H as (Hp & Hh & Hout). rewrite Hcls in Hh, Hout.
      split; [|split].
      * eapply paths_removed_trans; [|exact Hp].
        by apply paths_removed_same.
      * intros Hc. by rewrite Hh.
      * destruct out; [|done..]. destruct Hout as [Ha Hg]. split; [|done].
        rewrite <- Ha. apply acquire_ext.
        -- unfold same_config in *. congruence.
        -- symmetry. by apply deref_same_heap.
  - apply gen_next_suspended_acquires.
  - unfold gen_next.
    destruct (cls (self w)); (split; [apply paths_removed_refl|done]).
Qed.

Lemma consume_acquires E n g w :
  let '(rs, _, _, w') := consume E n g w in
  paths_removed w w'
  ∧ (cls (self w) ≠ ImageList → heap w' = heap w)
  ∧ ∀ r, r ∈ rs →
      acquire E w (r_meta r) = inr r
      ∧ (cls (self w) = ImageList → deref w' (r_meta r) !! "path" = None).
Proof.
  revert g w. induction n as [|n IH]; intros g w; cbn [consume].
  { split; [apply paths_removed_refl|]. split; [done|].
    intros r Hr. by apply elem_of_nil in Hr. }
  pose proof (gen_next_acquires E g w) as Hstep.
  destruct (gen_next E g w) as [[out g1] w1].
  destruct Hstep as (Hp & Hh & Hout).
  destruct out as [r| |e].
  2,3: split; [done|]; split; [done|]; intros r Hr;
       by apply elem_of_nil in Hr.
  specialize (IH g1 w1).
  destruct (consume E n g1 w1) as [[[rs e] g2] w2].
  destruct IH as (Hp2 & Hh2 & Hrs).
  pose proof (same_config_fields _ _ (proj1 Hp)) as (Hcls & _).
  rewrite Hcls in Hh2, Hrs.
  split; [by eapply paths_removed_trans|].
  split; [intros Hc; by rewrite Hh2, Hh|].
  intros r' Hr'. apply elem_of_cons in Hr' as [->|Hr'].
  - destruct Hout as [Ha Hg]. split; [done|]. intros Hc.
    eapply paths_removed_path_gone; [exact Hp2|]. by apply Hg.
  - destruct (Hrs r' Hr') as [Ha Hg]. split; [|done].
    by eapply acquire_paths_removed.
Qed.

(** X11. Every result that a generator yields is what the loop body makes
    of its record in the store the iteration started from, whatever the
    slice, the position of the record or the number of calls: its [id] is
    the record's, its [meta] is the stored MetaRecord itself, and the two
    image adapters give one frame. The iteration changes no MetaRecord
    apart from removing [path], which the image-list adapter does to every
    record it yields and the other three to none. *)
Theorem yielded_results (E : Env) (n : nat) (g : gen_state) (w : world) :
  let '(rs, _, _, w') := consume E n g w in
  (∀ m, deref w' m = deref w m ∨ deref w' m = delete "path" (deref w m))
  ∧ (cls (self w) ≠ ImageList → heap w' = heap w)
  ∧ ∀ r, r ∈ rs →
      acquire E w (r_meta r) = inr r
      ∧ deref w (r_meta r) !! "id" = Some (r_id r)
      ∧ deref w' (r_meta r) !! "id" = Some (r_id r)
      ∧ match cls (self w) with
        | ImageList =>
            length (r_frames r) = 1
            ∧ is_Some (deref w (r_meta r) !! "path")
            ∧ deref w' (r_meta r) !! "path" = None
        | ImageFolder =>
            length (r_frames r) = 1
            ∧ is_Some (deref w' (r_meta r) !! "path")
        | JsonVideo | CsvJpeg => True
        end.
Proof.
  pose proof (consume_acquires E n g w) as H.
  destruct (consume E n g w) as [[[rs e] g'] w'].
  destruct H as ([Hcfg Hd] & Hh & Hrs).
  split; [done|]. split; [done|].
  intros r Hr. destruct (Hrs r Hr) as [Ha Hg]. split; [done|].
  assert (Hid : deref w (r_meta r) !! "id" = Some (r_id r)
                ∧ match cls (self w) with
                  | ImageList =>
                      length (r_frames r) = 1
                      ∧ is_Some (deref w (r_meta r) !! "path")
                  | ImageFolder =>
                      length (r_frames r) = 1
                      ∧ is_Some (deref w (r_meta r) !! "path")
                  | JsonVideo | CsvJpeg => True
                  end).
  { clear -Ha. revert Ha. generalize (r_meta r) at 1 3 4 as meta.
    intros meta.
    unfold acquire, Custom20BNJsonVideoAdapter.body,
      Custom20BNCsvJpegAdapter.body, ImageFolderAdapter.body.
    intros Hb.
    destruct (cls (self w));
      repeat (match type of Hb with context [mbind _ ?x] =>
                destruct x eqn:?; cbn in Hb; [done|] end);
      injection Hb as <-; cbn [r_id r_frames r_meta];
      repeat match goal with
             | H : getitem _ _ = inr _ |- _ =>
                 unfold getitem in H; revert H; case_match; [|done];
                 intros [= ->]
             end;
      try rewrite lookup_delete_ne in * by done; eauto. }
  destruct Hid as [Hid Hshape]. split; [done|].
  assert (Hid' : deref w' (r_meta r) !! "id" = Some (r_id r)).
  { destruct (Hd (r_meta r)) as [->| ->]; [done|].
    by rewrite lookup_delete_ne. }
  split; [done|].
  destruct (cls (self w)) eqn:Hcls; [done|done| |].
  - destruct Hshape as [? ?]. auto.
  - destruct Hshape as [? ?]. split; [done|].
    by rewrite (deref_same_heap w' w) by (by apply Hh).
Qed.

(** ** Iterating again *)

Lemma plain_gen_next_ext E g w w1 :
  cls (self w) ≠ ImageList → self w1 = self w → heap w1 = heap w →
  (gen_next E g w1).1 = (gen_next E g w).1.
Proof.
  destruct w as [a h f s], w1 as [a1 h1 f1 s1]. simpl.
  intros Hcls -> ->. unfold gen_next. simpl.
  destruct (cls a); try done;
    unfold Custom20BNJsonVideoAdapter.iter_data_next,
      Custom20BNCsvJpegAdapter.iter_data_next,
      ImageFolderAdapter.iter_data_next, iter_sliced, loop_step, loop_else,
      write_label2idx_dict, slice_or_default,
      Custom20BNJsonVideoAdapter.body, Custom20BNCsvJpegAdapter.body,
      ImageFolderAdapter.body, deref; simpl;
    destruct g as [slice_element|rest|]; try done;
    try (destruct (open_write E _); simpl);
    repeat (case_match; simplify_eq/=; try done).
Qed.

Lemma plain_consume_ext E n g w w1 :
  cls (self w) ≠ ImageList → self w1 = self w → heap w1 = heap w →
  (consume E n g w1).1 = (consume E n g w).1.
Proof.
  revert g w w1. induction n as [|n IH]; intros g w w1 Hcls Hs Hh; [done|].
  cbn [consume].
  pose proof (plain_gen_next_ext E g w w1 Hcls Hs Hh) as Hstep.
  pose proof (gen_next_keeps_state E g w Hcls) as Hk.
  assert (Hcls1 : cls (self w1) ≠ ImageList) by (by rewrite Hs).
  pose proof (gen_next_keeps_state E g w1 Hcls1) as Hk1.
  destruct (gen_next E g w) as [[out g'] w'].
  destruct (gen_next E g w1) as [[out1 g1'] w1'].
  simpl in Hstep. injection Hstep as -> ->.
  destruct Hk as (Hks & Hkh & _), Hk1 as (Hks1 & Hkh1 & _).
  destruct out as [r| |e]; [|done..].
  specialize (IH g' w' w1').
  destruct (consume E n g' w') as [[[rs e] g2] w2].
  destruct (consume E n g' w1') as [[[rs1 e1] g3] w3].
  simpl in *.
  assert ((rs1, e1, g3) = (rs, e, g2)) as [= -> -> ->]; [|done].
  apply IH; congruence.
Qed.

(** X12. The json/video, csv/jpeg and image-folder adapters can be iterated
    again: a second pass over the same slice gives the same results (the
    same MetaRecords, frames and ids) and ends as the first did, and a pass
    over any other slice gives, for a record of both, the same result. *)
Theorem plain_adapters_iterate_again (E : Env) (w : world)
    (s1 s2 : option pyslice) :
  cls (self w) ≠ ImageList →
  let '(rs1, e1, _, w1) := drain E (iter_data s1) w in
  let '(rs1', e1', _, _) := drain E (iter_data s1) w1 in
  let '(rs2, _, _, _) := drain E (iter_data s2) w1 in
  rs1' = rs1 ∧ e1' = e1
  ∧ ∀ r1 r2, r1 ∈ rs1 → r2 ∈ rs2 → r_meta r1 = r_meta r2 → r1 = r2.
Proof.
  intros Hcls. unfold drain.
  pose proof (consume_keeps_state E (S (gen_bound (iter_data s1) w))
                (iter_data s1) w Hcls) as Hk.
  pose proof (consume_acquires E (S (gen_bound (iter_data s1) w))
                (iter_data s1) w) as Ha.
  destruct (consume E (S (gen_bound (iter_data s1) w)) (iter_data s1) w)
    as [[[rs1 e1] g1] w1] eqn:H1.
  destruct Hk as (Hs & Hh & _).
  assert (Hb : ∀ s, gen_bound (iter_data s) w1 = gen_bound (iter_data s) w).
  { intros s. unfold gen_bound, iter_data, slice_or_default. by rewrite Hs. }
  rewrite !Hb.
  pose proof (plain_consume_ext E (S (gen_bound (iter_data s1) w))
                (iter_data s1) w w1 Hcls Hs Hh) as He1.
  pose proof (plain_consume_ext E (S (gen_bound (iter_data s2) w))
                (iter_data s2) w w1 Hcls Hs Hh) as He2.
  pose proof (consume_acquires E (S (gen_bound (iter_data s2) w))
                (iter_data s2) w) as Ha2.
  rewrite H1 in He1.
  destruct (consume E (S (gen_bound (iter_data s1) w)) (iter_data s1) w1)
    as [[[rs1' e1'] g1'] w1'].
  destruct (consume E (S (gen_bound (iter_data s2) w)) (iter_data s2) w1)
    as [[[rs2 e2] g2] w2].
  destruct (consume E (S (gen_bound (iter_data s2) w)) (iter_data s2) w)
    as [[[rs2' e2'] g2'] w2'].
  simpl in He1, He2. injection He1 as -> -> ->. injection He2 as -> -> ->.
  split; [done|]. split; [done|].
  intros r1 r2 Hr1 Hr2 Hm.
  destruct Ha as (_ & _ & Ha), Ha2 as (_ & _ & Ha2).
  destruct (Ha r1 Hr1) as [A1 _], (Ha2 r2 Hr2) as [A2 _].
  rewrite Hm in A1. congruence.
Qed.


Lemma plain_adapters_iterate_again_witness :
  let w := world_of (construct csv_example_env
             (NewCsvJpeg "labels.csv" "frames" "out" false (-1) "/dev/shm")) in
  cls (self w) ≠ ImageList
  ∧ let '(rs1, e1, _, w1) := drain csv_example_env (iter_data None) w in
    let '(rs1', e1', _, _) := drain csv_example_env (iter_data None) w1 in
    let '(rs2, _, _, _) :=
      drain csv_example_env (iter_data (Some (slice2 1 3))) w1 in
    rs1' = rs1 ∧ e1' = e1
    ∧ ∀ r1 r2, r1 ∈ rs1 → r2 ∈ rs2 → r_meta r1 = r_meta r2 → r1 = r2.
Proof.
  cbv zeta.
  assert (Hcls : cls (self (world_of (construct csv_example_env
            (NewCsvJpeg "labels.csv" "frames" "out" false (-1) "/dev/shm"))))
          ≠ ImageList) by (vm_compute; discriminate).
  split; [exact Hcls|].
  exact (plain_adapters_iterate_again csv_example_env _ None
           (Some (slice2 1 3)) Hcls).
Defined.

(** ** Slices of [all_meta] *)

Lemma slice_indices_bounds s len start stop step :
  (0 ≤ len)%Z →
  slice_indices s len = inr (start, stop, step) →
  step ≠ 0%Z
  ∧ ((0 < step)%Z → (0 ≤ start ≤ len)%Z ∧ (0 ≤ stop ≤ len)%Z)
  ∧ ((step < 0)%Z → (-1 ≤ start ≤ len - 1)%Z ∧ (-1 ≤ stop ≤ len - 1)%Z).
Proof.
  intros Hlen. unfold slice_indices.
  destruct (Z.eqb_spec (default 1%Z (sl_step s)) 0); [done|].
  intros [= <- <- <-]. split; [done|].
  set (st := default 1%Z (sl_step s)) in *.
  destruct (Z.ltb_spec st 0) as [Hneg|Hpos].
  - split; [lia|]. intros _.
    destruct (sl_start s) as [a|], (sl_stop s) as [b|];
      repeat match goal with
             | |- context [(?x <? 0)%Z] => destruct (Z.ltb_spec x 0)
             end; lia.
  - split; [|lia]. intros _.
    destruct (sl_start s) as [a|], (sl_stop s) as [b|];
      repeat match goal with
             | |- context [(?x <? 0)%Z] => destruct (Z.ltb_spec x 0)
             end; lia.
Qed.

Lemma slice_positions_in_range s len start stop step k :
  (0 ≤ len)%Z →
  slice_indices s len = inr (start, stop, step) →
  (0 ≤ k < slice_length start stop step)%Z →
  (0 ≤ start + k * step < len)%Z.
Proof.
  intros Hlen Hs Hk.
  destruct (slice_indices_bounds s len start stop step Hlen Hs)
    as (Hstep & Hpos & Hneg).
  unfold slice_length in Hk.
  destruct (Z.ltb_spec step 0) as [Hn|Hp].
  - destruct (Hneg Hn) as [Hstart Hstop].
    destruct (Z.ltb_spec stop start); [|lia].
    assert (- step * ((start - stop - 1) / - step) ≤ start - stop - 1)%Z
      by (apply Z.mul_div_le; lia).
    nia.
  - destruct (Hpos ltac:(lia)) as [Hstart Hstop].
    destruct (Z.ltb_spec start stop); [|lia].
    assert (step * ((stop - start - 1) / step) ≤ stop - start - 1)%Z
      by (apply Z.mul_div_le; lia).
    nia.
Qed.

Lemma omap_all_Some {A B} (f : A → option B) (L : list A) :
  (∀ x, x ∈ L → is_Some (f x)) →
  length (omap f L) = length L
  ∧ ∀ i x, L !! i = Some x → omap f L !! i = f x.
Proof.
  induction L as [|a L IH]; intros Hall; [done|].
  destruct (Hall a ltac:(left)) as [b Hb].
  destruct IH as [IH1 IH2]; [intros x Hx; apply Hall; by right|].
  csimpl. rewrite Hb. csimpl. split; [by rewrite IH1|].
  intros [|i] x; simpl; [by intros [= <-]|]. apply IH2.
Qed.

Lemma list_getslice_positions {A} (l l' : list A) (s : pyslice) :
  list_getslice l s = inr l' →
  ∃ start stop step,
    slice_indices s (Z.of_nat (length l)) = inr (start, stop, step)
    ∧ length l' = Z.to_nat (slice_length start stop step)
    ∧ ∀ k, k < length l' →
        (0 ≤ start + Z.of_nat k * step < Z.of_nat (length l))%Z
        ∧ l' !! k = l !! Z.to_nat (start + Z.of_nat k * step).
Proof.
  unfold list_getslice.
  destruct (slice_indices s (Z.of_nat (length l)))
    as [e|[[start stop] step]] eqn:Hs; [done|].
  cbn. intros [= <-]. exists start, stop, step. split; [done|].
  set (n := Z.to_nat (slice_length start stop step)).
  set (f := λ k : nat, l !! Z.to_nat (start + Z.of_nat k * step)).
  assert (Hrange : ∀ k, k < n →
            (0 ≤ start + Z.of_nat k * step < Z.of_nat (length l))%Z).
  { intros k Hk. apply (slice_positions_in_range s _ start stop step);
      [lia|done|unfold n in Hk; lia]. }
  destruct (omap_all_Some f (seq 0 n)) as [Hlen Hlook].
  { intros k Hk. apply elem_of_seq in Hk. unfold f.
    apply lookup_lt_is_Some_2. specialize (Hrange k). lia. }
  rewrite length_seq in Hlen.
  split; [done|]. rewrite Hlen. intros k Hk. split; [by apply Hrange|].
  apply Hlook. by rewrite lookup_seq_lt.
Qed.

Lemma list_getslice_NoDup {A} (l l' : list A) (s : pyslice) :
  list_getslice l s = inr l' → NoDup l → NoDup l'.
Proof.
  intros Hl Hnd.
  destruct (list_getslice_positions l l' s Hl)
    as (start & stop & step & Hs & Hlen & Hpos).
  destruct (slice_indices_bounds s (Z.of_nat (length l)) start stop step
              ltac:(lia) Hs) as [Hstep _].
  apply NoDup_alt. intros i j x Hi Hj.
  destruct (Hpos i) as [Hri Hli]; [by eapply lookup_lt_Some|].
  destruct (Hpos j) as [Hrj Hlj]; [by eapply lookup_lt_Some|].
  rewrite Hli in Hi. rewrite Hlj in Hj.
  pose proof (NoDup_lookup _ _ _ _ Hnd Hi Hj) as Heq.
  apply Z2Nat.inj in Heq; [|lia..].
  assert (Z.of_nat i * step = Z.of_nat j * step)%Z as Hmul by lia.
  apply Z.mul_cancel_r in Hmul; [lia|done].
Qed.

(** X13. [l[s]] for a slice with a step other than 0 selects the positions
    [start + k * step] for k below the slice length; each lies inside the
    list, so no element is dropped, and no position is selected twice: a
    slice of [all_meta] refers to each record at most once when [all_meta]
    does. *)
Theorem slice_selects_positions {A} (l l' : list A) (s : pyslice) :
  list_getslice l s = inr l' →
  ∃ start stop step,
    slice_indices s (Z.of_nat (length l)) = inr (start, stop, step)
    ∧ length l' = Z.to_nat (slice_length start stop step)
    ∧ (∀ k, k < length l' →
         (0 ≤ start + Z.of_nat k * step < Z.of_nat (length l))%Z
         ∧ l' !! k = l !! Z.to_nat (start + Z.of_nat k * step))
    ∧ (NoDup l → NoDup l').
Proof.
  intros Hl.
  destruct (list_getslice_positions l l' s Hl)
    as (start & stop & step & Hs & Hlen & Hpos).
  exists start, stop, step. repeat split; try done; try by apply Hpos.
  by apply (list_getslice_NoDup l l' s).
Qed.

Lemma slice_selects_positions_witness :
  list_getslice [10; 11; 12; 13; 14] (Slice (Some 7%Z) None (Some (-2)%Z))
  = inr [14; 12; 10]
  ∧ ∃ start stop step,
      slice_indices (Slice (Some 7%Z) None (Some (-2)%Z)) 5
      = inr (start, stop, step)
      ∧ 3 = Z.to_nat (slice_length start stop step)
      ∧ NoDup [14; 12; 10].
Proof.
  assert (H : list_getslice [10; 11; 12; 13; 14]
                (Slice (Some 7%Z) None (Some (-2)%Z)) = inr [14; 12; 10])
    by reflexivity.
  split; [exact H|].
  destruct (slice_selects_positions _ _ _ H)
    as (start & stop & step & Hs & Hlen & _ & Hnd).
  exists start, stop, step. split; [exact Hs|]. split; [exact Hlen|].
  apply Hnd. apply (NoDup_seq 10 5).
Defined.

(** ** How a pass ends *)

Lemma constructed_slice_NoDup E call w s metas :
  construct E call = inr w →
  list_getslice (all_meta (self w)) s = inr metas → NoDup metas.
Proof.
  intros Hc Hs. apply construct_spec in Hc as [Hwf _].
  destruct (well_formed_all_meta w Hwf) as [Hnd _].
  by eapply list_getslice_NoDup.
Qed.

Lemma expected_run_cases E w metas :
  match (expected_run E w metas).2 with
  | None =>
      (∀ m, m ∈ metas → is_failed E w m = false)
      ∧ (expected_run E w metas).1
        = filter (λ m, is_skipped E w m = false) metas
  | Some e =>
      ∃ pre m post,
        metas = pre ++ m :: post
        ∧ (∀ m', m' ∈ pre → is_failed E w m' = false)
        ∧ acquisition_of E w m = Failed e
        ∧ (expected_run E w metas).1
          = filter (λ m, is_skipped E w m = false) pre
  end.
Proof.
  induction metas as [|meta metas IH]; simpl.
  { split; [|done]. intros m Hm. by apply elem_of_nil in Hm. }
  destruct (acquisition_of E w meta) as [|msg|e] eqn:Ha.
  - destruct (expected_run E w metas) as [ms [e|]]; simpl in *.
    + destruct IH as (pre & m & post & -> & Hpre & Hm & ->).
      exists (meta :: pre), m, post. split; [done|]. split; [|split; [done|]].
      * intros m' [->|Hm']%elem_of_cons; [|by apply Hpre].
        unfold is_failed. by rewrite Ha.
      * rewrite filter_cons_True; [done|]. unfold is_skipped. by rewrite Ha.
    + destruct IH as [Hall ->]. split.
      * intros m' [->|Hm']%elem_of_cons; [|by apply Hall].
        unfold is_failed. by rewrite Ha.
      * rewrite filter_cons_True; [done|]. unfold is_skipped. by rewrite Ha.
  - destruct (expected_run E w metas) as [ms [e|]]; simpl in *.
    + destruct IH as (pre & m & post & -> & Hpre & Hm & ->).
      exists (meta :: pre), m, post. split; [done|]. split; [|split; [done|]].
      * intros m' [->|Hm']%elem_of_cons; [|by apply Hpre].
        unfold is_failed. by rewrite Ha.
      * rewrite filter_cons_False; [done|]. unfold is_skipped. by rewrite Ha.
    + destruct IH as [Hall ->]. split.
      * intros m' [->|Hm']%elem_of_cons; [|by apply Hall].
        unfold is_failed. by rewrite Ha.
      * rewrite filter_cons_False; [done|]. unfold is_skipped. by rewrite Ha.
  - simpl. exists [], meta, metas. split; [done|]. split; [|done].
    intros m Hm. by apply elem_of_nil in Hm.
Qed.

(** X14. A drained pass over a slice of a constructed adapter ends in one of
    three ways. Either every record of the slice was acquired or skipped
    and the label file was written: the pass ends normally. Or the label
    file cannot be opened: every record was acquired or skipped, and the
    error of [open] comes out after the last result. Or a record fails: the
    results are those of the records before it, its exception comes out,
    and no later record is looked at. The label file is written in the
    first case alone, and the generator is finished in all three. *)
Theorem pass_ending (E : Env) (call : ctor_call) (w : world)
    (s : option pyslice) (metas : list nat) :
  construct E call = inr w →
  list_getslice (all_meta (self w)) (slice_or_default s w) = inr metas →
  let '(rs, e, g', w') := drain E (iter_data s) w in
  let yielded_of l := filter (λ m, is_skipped E w m = false) l in
  g' = GenFinished
  ∧ match e with
    | Exhausted =>
        (∀ m, m ∈ metas → is_failed E w m = false)
        ∧ open_write E (label_file (self w)).1 = inr tt
        ∧ r_meta <$> rs = yielded_of metas
        ∧ files w' = [label_file (self w)]
    | Raised err =>
        files w' = []
        ∧ ((∀ m, m ∈ metas → is_failed E w m = false)
           ∧ open_write E (label_file (self w)).1 = inl err
           ∧ r_meta <$> rs = yielded_of metas
           ∨ ∃ pre m post,
               metas = pre ++ m :: post
               ∧ (∀ m', m' ∈ pre → is_failed E w m' = false)
               ∧ acquisition_of E w m = Failed err
               ∧ r_meta <$> rs = yielded_of pre)
    | Abandoned => False
    end.
Proof.
  intros Hc Hs.
  pose proof (constructed_slice_NoDup E call w _ metas Hc Hs) as Hnd.
  apply construct_spec in Hc as [(_ & _ & Hfiles & _) _].
  pose proof (drain_expected E s w metas Hs Hnd) as Hrun.
  pose proof (drain_ends E (iter_data s) w) as Hends.
  pose proof (consume_effect E (S (gen_bound (iter_data s) w))
                (iter_data s) w) as Heff.
  pose proof (expected_run_cases E w metas) as Hcases.
  unfold drain in *.
  destruct (consume E _ (iter_data s) w) as [[[rs e] g'] w'].
  simpl in Hends. destruct Hrun as [Hrs He], Heff as (_ & Hf & Hg).
  rewrite Hfiles in Hf. simpl in Hf.
  destruct (expected_run E w metas) as [ms oe]. simpl in *.
  subst ms. unfold expected_ending in He.
  split; [by destruct e|].
  destruct oe as [err|].
  - subst e. split; [done|]. right.
    destruct Hcases as (pre & m & post & ? & ? & ? & ?).
    by exists pre, m, post.
  - destruct Hcases as [Hall Hms].
    destruct (open_write E (label_file (self w)).1) as [err|[]] eqn:Hw;
      subst e; [|done].
    split; [done|]. by left.
Qed.

Lemma pass_ending_witness :
  construct list_missing_env (NewImageList "list.txt" "out" "root" false (-1))
  = inr list_example_world
  ∧ list_getslice (all_meta (self list_example_world))
      (slice_or_default None list_example_world) = inr [0; 1]
  ∧ let '(rs, e, g', w') :=
      drain list_missing_env (iter_data None) list_example_world in
    r_meta <$> rs = [1] ∧ e = Exhausted ∧ g' = GenFinished
    ∧ files w' = [("out/label2idx.json", {[ "cat" := 0; "dog" := 1 ]})].
Proof.
  assert (Hc : construct list_missing_env
                 (NewImageList "list.txt" "out" "root" false (-1))
               = inr list_example_world) by (vm_compute; reflexivity).
  assert (Hs : list_getslice (all_meta (self list_example_world))
                 (slice_or_default None list_example_world) = inr [0; 1])
    by (vm_compute; reflexivity).
  split; [exact Hc|]. split; [exact Hs|].
  pose proof (pass_ending list_missing_env _ _ None _ Hc Hs) as H.
  destruct (drain list_missing_env (iter_data None) list_example_world)
    as [[[rs e] g'] w'] eqn:Hd.
  cbv zeta in H. destruct H as [Hg _].
  vm_compute in Hd. injection Hd as <- <- _ <-.
  split; [reflexivity|]. split; [reflexivity|]. split; [exact Hg|].
  vm_compute. reflexivity.
Defined.

(** ** The image-list adapter rebinds [all_meta] *)

Lemma il_gen_next_self E g w :
  cls (self w) = ImageList → (∀ s, g ≠ GenCreated s) →
  let '(_, g', w') := gen_next E g w in
  self w' = self w ∧ ∀ s, g' ≠ GenCreated s.
Proof.
  intros Hcls Hg. destruct g as [s|rest|]; [by destruct (Hg s)| |].
  - rewrite gen_next_image_list by done.
    pose proof (il_loop_effect E rest w) as H.
    destruct (ImageListAdapter.loop E rest w) as [[out g'] w'].
    destruct H as [Hs Hout]. split; [done|]. intros s ->.
    destruct out; [destruct Hout as (_ & ? & ? & _)|destruct Hout..]; done.
  - unfold gen_next. rewrite Hcls. done.
Qed.

Lemma il_consume_self E n g w :
  cls (self w) = ImageList → (∀ s, g ≠ GenCreated s) →
  self (consume E n g w).2 = self w.
Proof.
  revert g w. induction n as [|n IH]; intros g w Hcls Hg; [done|].
  cbn [consume]. pose proof (il_gen_next_self E g w Hcls Hg) as H.
  destruct (gen_next E g w) as [[out g'] w'].
  destruct H as [Hs Hg']. destruct out as [r| |e]; [|done..].
  specialize (IH g' w'). rewrite Hs in IH. specialize (IH Hcls Hg').
  destruct (consume E n g' w') as [[[rs e] g2] w2]. done.
Qed.

(** X15. The image-list generator rebinds [self.all_meta] to the slice when
    [next] is first called, before any record is looked at: after one call
    or more, however the iteration goes on or is abandoned, [all_meta] is
    the slice, while [len(adapter)] is as before; a later [iter_data] takes
    its slice from that narrowed list. *)
Theorem image_list_narrows_at_first_next (E : Env) (w : world)
    (s : option pyslice) (metas : list nat) (n : nat) :
  cls (self w) = ImageList →
  list_getslice (all_meta (self w)) (slice_or_default s w) = inr metas →
  let '(_, _, _, w') := consume E (S n) (iter_data s) w in
  all_meta (self w') = metas
  ∧ py_len (self w') = py_len (self w)
  ∧ ∀ s', list_getslice (all_meta (self w')) (slice_or_default s' w')
          = list_getslice metas (slice_or_default s' w).
Proof.
  intros Hcls Hs.
  destruct (consume_created E n s w metas Hs)
    as (w1 & Heq & Hcfg & _ & _ & _ & _ & Hall).
  unfold iter_data. rewrite Heq.
  pose proof (same_config_fields _ _ Hcfg) as (Hc1 & _).
  pose proof (il_consume_self E (S n) (GenSuspended metas) w1
                ltac:(congruence) ltac:(done)) as Hself.
  pose proof (same_config_py_len _ _ Hcfg) as Hlen.
  destruct (consume E (S n) (GenSuspended metas) w1) as [[[rs e] g'] w'].
  simpl in Hself.
  assert (Hm : all_meta (self w') = metas)
    by (rewrite Hself; by apply Hall).
  assert (Hl : py_len (self w') = py_len (self w)) by (by rewrite Hself).
  split; [done|]. split; [done|].
  intros s'. unfold slice_or_default. by rewrite Hm, Hl.
Qed.


Lemma image_list_narrows_at_first_next_witness :
  cls (self list_example_world) = ImageList
  ∧ all_meta (self list_example_world) = [0; 1]
  ∧ list_getslice (all_meta (self list_example_world))
      (slice_or_default (Some (slice2 1 2)) list_example_world) = inr [1]
  ∧ let '(_, _, _, w') :=
      consume list_example_env 1 (iter_data (Some (slice2 1 2)))
              list_example_world in
    all_meta (self w') = [1]
    ∧ py_len (self w') = py_len (self list_example_world)
    ∧ ∀ s', list_getslice (all_meta (self w')) (slice_or_default s' w')
            = list_getslice [1] (slice_or_default s' list_example_world).
Proof.
  assert (Hcls : cls (self list_example_world) = ImageList) by reflexivity.
  assert (Hs : list_getslice (all_meta (self list_example_world))
                 (slice_or_default (Some (slice2 1 2)) list_example_world)
               = inr [1]) by (vm_compute; reflexivity).
  split; [exact Hcls|]. split; [vm_compute; reflexivity|]. split; [exact Hs|].
  exact (image_list_narrows_at_first_next list_example_env _ _ _ 0 Hcls Hs).
Defined.

(** ** What is printed *)

Lemma expected_prints_ext E w w' rest :
  same_config (self w) (self w') →
  (∀ m, m ∈ rest → deref w m = deref w' m) →
  expected_prints E w rest = expected_prints E w' rest.
Proof.
  intros Hcfg. induction rest as [|meta rest IH]; intros Hd; [done|].
  simpl. rewrite (acquisition_of_ext E w w' meta Hcfg) by (apply Hd; by left).
  rewrite IH; [done|]. intros m Hm. apply Hd. by right.
Qed.

Lemma expected_prints_plain E w rest :
  cls (self w) ≠ ImageList → expected_prints E w rest = [].
Proof.
  intros Hcls. induction rest as [|meta rest IH]; [done|]. simpl.
  pose proof (is_skipped_plain E w meta Hcls) as Hs. unfold is_skipped in Hs.
  by destruct (acquisition_of E w meta).
Qed.

Lemma expected_prints_no_failure E w rest :
  (∀ m, m ∈ rest → is_failed E w m = false) →
  expected_prints E w rest = omap (skip_message E w) rest
  ∧ length (omap (skip_message E w) rest)
    = length (filter (λ m, is_skipped E w m = true) rest).
Proof.
  induction rest as [|meta rest IH]; intros Hf; [done|].
  destruct IH as [IH1 IH2]; [intros m Hm; apply Hf; by right|].
  specialize (Hf meta ltac:(left)).
  assert (Hcase :
    (skip_message E w meta = None ∧ is_skipped E w meta = false
     ∧ expected_prints E w (meta :: rest) = expected_prints E w rest)
    ∨ ∃ msg, skip_message E w meta = Some msg ∧ is_skipped E w meta = true
             ∧ expected_prints E w (meta :: rest)
               = msg :: expected_prints E w rest).
  { unfold is_failed in Hf. unfold skip_message, is_skipped. simpl.
    destruct (acquisition_of E w meta) as [|msg|e]; [by left| |done].
    right. by exists msg. }
  rewrite filter_cons.
  destruct Hcase as [(Hm & Hk & ->)|(msg & Hm & Hk & ->)];
    cbn [omap list_omap]; rewrite Hm.
  - rewrite decide_False by (by rewrite Hk). done.
  - rewrite decide_True by done. simpl. split; congruence.
Qed.

Lemma il_gen_next_cons E meta rest w :
  cls (self w) = ImageList →
  match acquisition_of E w meta with
  | Acquired =>
      ∃ r w', gen_next E (GenSuspended (meta :: rest)) w
              = (Yield r, GenSuspended rest, w')
              ∧ self w' = self w ∧ stdout w' = stdout w
              ∧ (∀ m, m ≠ meta → deref w' m = deref w m)
  | Skipped msg =>
      gen_next E (GenSuspended (meta :: rest)) w
      = gen_next E (GenSuspended rest) (print msg w)
  | Failed e =>
      ∃ w', gen_next E (GenSuspended (meta :: rest)) w
            = (Raise e, GenFinished, w')
            ∧ stdout w' = stdout w
  end.
Proof.
  intros Hcls. unfold acquisition_of, gen_next. rewrite Hcls.
  unfold ImageListAdapter.iter_data_next. simpl.
  destruct (getitem (deref w meta) "path") as [e|path]; [by eexists|].
  cbn [self print].
  destruct (resize_by_short_edge E _ _) as [e|img].
  { destruct e; try by eexists. simpl. by rewrite Hcls. }
  rewrite deref_heap_pop. rewrite decide_True by done.
  destruct (getitem _ "id") as [e|id]; [by eexists|].
  eexists _, _. split; [done|]. split; [done|]. split; [done|].
  intros m Hm. rewrite deref_heap_pop. by rewrite decide_False.
Qed.

Lemma il_consume_prints E rest n w :
  cls (self w) = ImageList → NoDup rest → length rest < n →
  stdout (consume E n (GenSuspended rest) w).2
  = stdout w ++ expected_prints E w rest.
Proof.
  revert n w. induction rest as [|meta rest IH]; intros n w Hcls Hnd Hn;
    (destruct n as [|n]; [simpl in Hn; lia|]); cbn [consume].
  - rewrite gen_next_nil. pose proof (loop_else_effect E w) as H.
    destruct (loop_else E w) as [[out g'] w'].
    destruct H as (_ & _ & Hout & _ & Hw). simpl. rewrite app_nil_r.
    by destruct (open_write E _); destruct Hw as [-> _].
  - apply NoDup_cons in Hnd as [Hmeta Hnd]. simpl in Hn.
    pose proof (il_gen_next_cons E meta rest w Hcls) as Hstep.
    cbn [expected_prints].
    destruct (acquisition_of E w meta) as [|msg|e].
    + destruct Hstep as (r & w' & -> & Hs & Hout & Hd).
      assert (Hcls' : cls (self w') = ImageList) by (by rewrite Hs).
      specialize (IH n w' Hcls' Hnd ltac:(lia)).
      destruct (consume E n (GenSuspended rest) w') as [[[rs e] g2] w2].
      simpl in *. rewrite IH, Hout. f_equal.
      apply expected_prints_ext; [by rewrite Hs|].
      intros m Hm. apply Hd. by intros ->.
    + specialize (IH (S n) (print msg w) Hcls Hnd ltac:(lia)).
      rewrite Hstep.
      change (consume E (S n) (GenSuspended rest) (print msg w))
        with (let '(out, g', w') :=
                gen_next E (GenSuspended rest) (print msg w) in
              match out with
              | Yield r =>
                  let '(rs, e, g'', w'') := consume E n g' w' in
                  (r :: rs, e, g'', w'')
              | StopIteration => ([], Exhausted, g', w')
              | Raise e => ([], Raised e, g', w')
              end) in IH.
      rewrite (expected_prints_ext E (print msg w) w rest) in IH by done.
      simpl in IH. rewrite <- (assoc_L (++)) in IH. simpl in IH.
      rewrite <- IH.
      by destruct (gen_next E (GenSuspended rest) (print msg w))
        as [[[r| |e] g'] w'].
    + destruct Hstep as (w' & -> & Hout). simpl. by rewrite app_nil_r.
Qed.

(** X16. What a drained pass prints: the image-list adapter prints the
    message of each [ImageNotFound] that makes it skip a record, in the
    order of the slice, up to the end of the pass; the other three adapters
    print nothing. When no record of the slice fails, each record of the
    slice is either yielded or reported by one printed line. *)
Theorem skipped_images_are_printed (E : Env) (call : ctor_call) (w : world)
    (s : option pyslice) (metas : list nat) :
  construct E call = inr w →
  list_getslice (all_meta (self w)) (slice_or_default s w) = inr metas →
  let '(rs, _, _, w') := drain E (iter_data s) w in
  stdout w' = expected_prints E w metas
  ∧ (cls (self w) ≠ ImageList → stdout w' = [])
  ∧ ((∀ m, m ∈ metas → is_failed E w m = false) →
     stdout w' = omap (skip_message E w) metas
     ∧ length rs + length (stdout w') = length metas).
Proof.
  intros Hc Hs.
  pose proof (constructed_slice_NoDup E call w _ metas Hc Hs) as Hnd.
  apply construct_spec in Hc as [(_ & _ & _ & Hout & _) _].
  pose proof (drain_expected E s w metas Hs Hnd) as Hrun.
  assert (Hprints : stdout (drain E (iter_data s) w).2
                    = expected_prints E w metas).
  { destruct (decide (cls (self w) = ImageList)) as [Hcls|Hcls].
    - unfold drain, iter_data. cbn [gen_bound]. rewrite Hs.
      destruct (consume_created E (length metas) s w metas Hs)
        as (w1 & -> & Hcfg & Hheap & _ & Hout1 & _).
      pose proof (same_config_fields _ _ Hcfg) as (Hc1 & _).
      rewrite il_consume_prints by (done || lia || congruence).
      rewrite Hout1, Hout. simpl.
      apply expected_prints_ext; [done|].
      intros m _. by apply deref_same_heap.
    - pose proof (consume_keeps_state E (S (gen_bound (iter_data s) w))
                    (iter_data s) w Hcls) as Hk.
      unfold drain.
      destruct (consume E _ (iter_data s) w) as [[[rs e] g'] w'].
      destruct Hk as (_ & _ & Hk). simpl. rewrite Hk, Hout.
      by rewrite expected_prints_plain. }
  destruct (drain E (iter_data s) w) as [[[rs e] g'] w'].
  simpl in Hprints. destruct Hrun as [Hrs _].
  split; [done|]. split.
  - intros Hcls. by rewrite Hprints, expected_prints_plain.
  - intros Hf.
    destruct (expected_prints_no_failure E w metas Hf) as [Heq Hlen].
    split; [by rewrite Hprints|].
    rewrite Hprints, Heq, Hlen, <- (length_fmap r_meta), Hrs.
    rewrite expected_run_no_failure by done. cbn [fst].
    apply length_filter_split.
Qed.

Lemma skipped_images_are_printed_witness :
  construct list_missing_env (NewImageList "list.txt" "out" "root" false (-1))
  = inr list_example_world
  ∧ list_getslice (all_meta (self list_example_world))
      (slice_or_default None list_example_world) = inr [0; 1]
  ∧ expected_prints list_missing_env list_example_world [0; 1]
    = ["Image not found: root/imgs/a.jpg"]
  ∧ let '(rs, _, _, w') :=
      drain list_missing_env (iter_data None) list_example_world in
    stdout w' = expected_prints list_missing_env list_example_world [0; 1].
Proof.
  assert (Hc : construct list_missing_env
                 (NewImageList "list.txt" "out" "root" false (-1))
               = inr list_example_world) by (vm_compute; reflexivity).
  assert (Hs : list_getslice (all_meta (self list_example_world))
                 (slice_or_default None list_example_world) = inr [0; 1])
    by (vm_compute; reflexivity).
  split; [exact Hc|]. split; [exact Hs|]. split; [vm_compute; reflexivity|].
  pose proof (skipped_images_are_printed list_missing_env _ _ None _ Hc Hs)
    as H.
  destruct (drain list_missing_env (iter_data None) list_example_world)
    as [[[rs e] g'] w'].
  exact (proj1 H).
Defined.

(** ** From the manifest to the results *)

Lemma construct_meta_fields E call w i entry :
  construct E call = inr w → data (self w) !! i = Some entry →
  ∃ id label idx,
    entry !! "id" = Some id
    ∧ entry !! label_field (cls (self w)) = Some label
    ∧ labels2idx (self w) !! label = Some idx
    ∧ deref w i !! "id" = Some (PStr id)
    ∧ deref w i !! "label" = Some (PStr label)
    ∧ deref w i !! "idx" = Some (PInt (Z.of_nat idx)).
Proof.
  intros Hc Hi.
  apply construct_fields in Hc as (Hcls & _ & Hidx & Hmeta & _).
  rewrite Hcls. apply mapM_result_Forall2 in Hmeta.
  destruct (Forall2_lookup_l _ _ _ _ _ Hmeta Hi) as (d & Hd & Hf).
  unfold deref. rewrite Hd. simpl.
  unfold meta_of, getitem in Hf.
  destruct (entry !! "id") as [id|]; cbn in Hf; [|done].
  destruct (entry !! label_field _) as [label|]; cbn in Hf; [|done].
  destruct (has_path (class_of call)).
  - destruct (entry !! "path") as [path|]; cbn in Hf; [|done].
    destruct (labels2idx (self w) !! label) as [idx|] eqn:Hl; cbn in Hf;
      [|done].
    injection Hf as <-. exists id, label, idx.
    split_and!; try done; by simplify_map_eq.
  - destruct (labels2idx (self w) !! label) as [idx|] eqn:Hl; cbn in Hf;
      [|done].
    injection Hf as <-. exists id, label, idx.
    split_and!; try done; by simplify_map_eq.
Qed.

Lemma acquire_id E w meta r :
  acquire E w meta = inr r → deref w meta !! "id" = Some (r_id r).
Proof.
  unfold acquire, Custom20BNJsonVideoAdapter.body,
    Custom20BNCsvJpegAdapter.body, ImageFolderAdapter.body.
  intros Hb.
  destruct (cls (self w));
    repeat (match type of Hb with context [mbind _ ?x] =>
              destruct x eqn:?; cbn in Hb; [done|] end);
    injection Hb as <-; cbn [r_id];
    repeat match goal with
           | H : getitem _ _ = inr _ |- _ =>
               unfold getitem in H; revert H; case_match; [|done];
               intros [= ->]
           end;
    try rewrite lookup_delete_ne in * by done; eauto.
Qed.

(** X17. Iterating a freshly constructed, unshuffled adapter without a slice
    goes through the manifest in order: when no record fails, the results
    are those of the manifest records that are not skipped, in manifest
    order (all of them for the three adapters that never skip), and each
    result carries the id of its manifest record, and in its [meta] that
    record's label and the label's index. *)
Theorem unshuffled_pass_follows_manifest (E : Env) (call : ctor_call)
    (w : world) :
  construct E (with_shuffle false call) = inr w →
  (∀ m, m ∈ all_meta (self w) → is_failed E w m = false) →
  let '(rs, _, _, w') := drain E (iter_data None) w in
  r_meta <$> rs
  = filter (λ m, is_skipped E w m = false) (seq 0 (py_len (self w)))
  ∧ (cls (self w) ≠ ImageList → r_meta <$> rs = seq 0 (py_len (self w)))
  ∧ ∀ r, r ∈ rs →
      ∃ entry id label idx,
        data (self w) !! r_meta r = Some entry
        ∧ entry !! "id" = Some id
        ∧ entry !! label_field (cls (self w)) = Some label
        ∧ labels2idx (self w) !! label = Some idx
        ∧ r_id r = PStr id
        ∧ deref w' (r_meta r) !! "label" = Some (PStr label)
        ∧ deref w' (r_meta r) !! "idx" = Some (PInt (Z.of_nat idx)).
Proof.
  intros Hc Hf.
  pose proof (construct_shuffle_flag _ _ _ _ Hc) as Hflag.
  pose proof (construct_fields _ _ _ Hc) as (_ & _ & _ & Hmeta & Hall & _).
  rewrite Hflag in Hall.
  assert (Hlen : length (heap w) = py_len (self w)).
  { apply mapM_result_Forall2 in Hmeta. symmetry. by eapply Forall2_length. }
  rewrite Hlen in Hall.
  assert (Hs : list_getslice (all_meta (self w)) (slice_or_default None w)
               = inr (all_meta (self w))).
  { apply list_getslice_default. rewrite Hall, length_seq. done. }
  assert (Hnd : NoDup (all_meta (self w))) by (rewrite Hall; apply NoDup_seq).
  pose proof (drain_expected E None w _ Hs Hnd) as Hrun.
  pose proof (consume_acquires E (S (gen_bound (iter_data None) w))
                (iter_data None) w) as Hacq.
  unfold drain in *.
  destruct (consume E _ (iter_data None) w) as [[[rs e] g'] w'].
  destruct Hrun as [Hrs _]. destruct Hacq as ([_ Hd] & _ & Hacq).
  rewrite expected_run_no_failure in Hrs by done. cbn [fst] in Hrs.
  rewrite Hall in Hrs.
  split; [done|]. split.
  { intros Hcls. rewrite Hrs. apply filter_all, Forall_forall.
    intros m _. by apply is_skipped_plain. }
  intros r Hr.
  assert (Hin : r_meta r ∈ seq 0 (py_len (self w))).
  { assert (r_meta r ∈ r_meta <$> rs) as Hm by (by apply list_elem_of_fmap_2).
    rewrite Hrs in Hm. by apply list_elem_of_filter in Hm as [_ Hm]. }
  apply elem_of_seq in Hin as [_ Hin].
  destruct (lookup_lt_is_Some_2 (data (self w)) (r_meta r)) as [entry Hentry];
    [done|].
  destruct (construct_meta_fields E _ w _ entry Hc Hentry)
    as (id & label & idx & Hid & Hlabel & Hidx & Hdid & Hdlabel & Hdidx).
  destruct (Hacq r Hr) as [Ha _].
  apply acquire_id in Ha. rewrite Hdid in Ha. injection Ha as Ha.
  exists entry, id, label, idx. split_and!; try done.
  - destruct (Hd (r_meta r)) as [->| ->]; [done|].
    by rewrite lookup_delete_ne.
  - destruct (Hd (r_meta r)) as [->| ->]; [done|].
    by rewrite lookup_delete_ne.
Qed.

Lemma unshuffled_pass_follows_manifest_witness :
  let call := NewCsvJpeg "labels.csv" "frames" "out" false (-1) "/dev/shm" in
  let w := world_of (construct csv_example_env (with_shuffle false call)) in
  construct csv_example_env (with_shuffle false call) = inr w
  ∧ all_meta (self w) = [0; 1; 2]
  ∧ let '(rs, _, _, w') := drain csv_example_env (iter_data None) w in
    r_meta <$> rs
    = filter (λ m, is_skipped csv_example_env w m = false)
             (seq 0 (py_len (self w)))
    ∧ (cls (self w) ≠ ImageList → r_meta <$> rs = seq 0 (py_len (self w)))
    ∧ ∀ r, r ∈ rs →
        ∃ entry id label idx,
          data (self w) !! r_meta r = Some entry
          ∧ entry !! "id" = Some id
          ∧ entry !! label_field (cls (self w)) = Some label
          ∧ labels2idx (self w) !! label = Some idx
          ∧ r_id r = PStr id
          ∧ deref w' (r_meta r) !! "label" = Some (PStr label)
          ∧ deref w' (r_meta r) !! "idx" = Some (PInt (Z.of_nat idx)).
Proof.
  cbv zeta.
  assert (Hc : construct csv_example_env
                 (with_shuffle false
                    (NewCsvJpeg "labels.csv" "frames" "out" false (-1)
                       "/dev/shm"))
               = inr (world_of (construct csv_example_env
                        (with_shuffle false
                           (NewCsvJpeg "labels.csv" "frames" "out" false (-1)
                              "/dev/shm")))))
    by (vm_compute; reflexivity).
  assert (Ha : all_meta (self (world_of (construct csv_example_env
                        (with_shuffle false
                           (NewCsvJpeg "labels.csv" "frames" "out" false (-1)
                              "/dev/shm"))))) = [0; 1; 2])
    by (vm_compute; reflexivity).
  split; [exact Hc|]. split; [exact Ha|].
  apply (unshuffled_pass_follows_manifest csv_example_env _ _ Hc).
  rewrite Ha. intros m Hm.
  repeat (apply elem_of_cons in Hm as [->|Hm]; [vm_compute; reflexivity|]).
  apply elem_of_nil in Hm. destruct Hm.
Defined.

(** * Missing images and second passes *)

(** ** A record whose frames cannot be acquired *)

Lemma entered_effect g w :
  same_config (self (entered g w)) (self w)
  ∧ heap (entered g w) = heap w ∧ files (entered g w) = files w
  ∧ stdout (entered g w) = stdout w
  ∧ (cls (self w) ≠ ImageList → entered g w = w).
Proof.
  unfold entered. destruct g as [s| |]; [|done..].
  destruct (cls (self w)) eqn:Hcls; try done.
  destruct (list_getslice _ _) as [e|metas]; [done|].
  split_and!; try done.
Qed.

(** The call of [next] that [reaches] a record goes on as a generator
    suspended before that record does, in the store that it has entered
    the loop with. *)
Lemma gen_next_entered E g w meta rest :
  reaches g w meta rest →
  gen_next E g w = gen_next E (GenSuspended (meta :: rest)) (entered g w).
Proof.
  destruct g as [s|rest'|]; [|by intros ->|done].
  simpl. intros Hs. unfold gen_next, entered. rewrite Hs.
  destruct w as [a h f o]. destruct a. simpl in *.
  match goal with c : adapter_class |- _ => destruct c end;
    unfold Custom20BNJsonVideoAdapter.iter_data_next,
      Custom20BNCsvJpegAdapter.iter_data_next,
      ImageListAdapter.iter_data_next,
      ImageFolderAdapter.iter_data_next, iter_sliced; simpl;
    by rewrite Hs.
Qed.

Lemma consume_entered E n g w meta rest :
  reaches g w meta rest →
  consume E (S n) g w
  = consume E (S n) (GenSuspended (meta :: rest)) (entered g w).
Proof.
  intros Hr. cbn [consume]. by rewrite (gen_next_entered E g w meta rest Hr).
Qed.

Lemma il_skip_step E w meta rest path msg :
  cls (self w) = ImageList →
  deref w meta !! "path" = Some path →
  resize_by_short_edge E (os_path_join (root_folder (self w)) [py_str path])
    (frame_size (self w)) = inl (ImageNotFound msg) →
  gen_next E (GenSuspended (meta :: rest)) w
  = gen_next E (GenSuspended rest) (print msg w).
Proof.
  intros Hc Hp Hr. unfold gen_next. cbn [self print]. rewrite Hc.
  unfold ImageListAdapter.iter_data_next. cbn [ImageListAdapter.loop].
  unfold getitem at 1. rewrite Hp. by rewrite Hr.
Qed.

Lemma il_raise_step E n w meta rest path e :
  cls (self w) = ImageList →
  deref w meta !! "path" = Some path →
  resize_by_short_edge E (os_path_join (root_folder (self w)) [py_str path])
    (frame_size (self w)) = inl e →
  (∀ msg, e ≠ ImageNotFound msg) →
  consume E (S n) (GenSuspended (meta :: rest)) w
  = ([], Raised e, GenFinished, w).
Proof.
  intros Hc Hp He Hne. cbn [consume]. unfold gen_next. rewrite Hc.
  unfold ImageListAdapter.iter_data_next. cbn [ImageListAdapter.loop].
  unfold getitem at 1. rewrite Hp, He.
  destruct e; try done. by destruct (Hne msg).
Qed.

Lemma plain_raise_step E n w meta rest e :
  cls (self w) ≠ ImageList → acquire E w meta = inl e →
  consume E (S n) (GenSuspended (meta :: rest)) w
  = ([], Raised e, GenFinished, w).
Proof.
  intros Hc He. cbn [consume]. unfold gen_next. unfold acquire in He.
  destruct (cls (self w)); try done;
    unfold Custom20BNJsonVideoAdapter.iter_data_next,
      Custom20BNCsvJpegAdapter.iter_data_next,
      ImageFolderAdapter.iter_data_next;
    by rewrite (body_failure_raises _ _ _ _ _ _ He).
Qed.

Lemma acquire_failed E w meta e :
  cls (self w) ≠ ImageList → acquire E w meta = inl e →
  acquisition_of E w meta = Failed e.
Proof.
  intros Hc. unfold acquire, acquisition_of.
  destruct (cls (self w)); try done; by intros ->.
Qed.

Lemma expected_run_failed E w pre m post e :
  (∀ m', m' ∈ pre → is_failed E w m' = false) →
  acquisition_of E w m = Failed e →
  expected_run E w (pre ++ m :: post)
  = (filter (λ m, is_skipped E w m = false) pre, Some e).
Proof.
  intros Hpre Hm. induction pre as [|a pre IH]; simpl.
  { by rewrite Hm. }
  pose proof (Hpre a ltac:(left)) as Ha.
  rewrite IH by (intros m' Hm'; apply Hpre; by right).
  destruct (acquisition_of E w a) as [|msg|e'] eqn:Hacq.
  - rewrite filter_cons_True; [done|]. unfold is_skipped. by rewrite Hacq.
  - rewrite filter_cons_False; [done|]. unfold is_skipped. by rewrite Hacq.
  - unfold is_failed in Ha. by rewrite Hacq in Ha.
Qed.

Lemma drain_prints E call w s metas :
  construct E call = inr w →
  list_getslice (all_meta (self w)) (slice_or_default s w) = inr metas →
  stdout (drain E (iter_data s) w).2 = expected_prints E w metas.
Proof.
  intros Hc Hs.
  pose proof (constructed_slice_NoDup E call w _ metas Hc Hs) as Hnd.
  apply construct_spec in Hc as [(_ & _ & _ & Hout & _) _].
  destruct (decide (cls (self w) = ImageList)) as [Hcls|Hcls].
  - unfold drain, iter_data. cbn [gen_bound]. rewrite Hs.
    destruct (consume_created E (length metas) s w metas Hs)
      as (w1 & -> & Hcfg & Hheap & _ & Hout1 & _).
    pose proof (same_config_fields _ _ Hcfg) as (Hc1 & _).
    rewrite il_consume_prints by (done || lia || congruence).
    rewrite Hout1, Hout. simpl.
    apply expected_prints_ext; [done|].
    intros m _. by apply deref_same_heap.
  - pose proof (consume_keeps_state E (S (gen_bound (iter_data s) w))
                  (iter_data s) w Hcls) as Hk.
    unfold drain.
    destruct (consume E _ (iter_data s) w) as [[[rs e] g'] w'].
    destruct Hk as (_ & _ & Hk). simpl. rewrite Hk, Hout.
    by rewrite expected_prints_plain.
Qed.

Lemma is_skipped_image_list E w m :
  cls (self w) = ImageList →
  is_skipped E w m = true
  ↔ ∃ path msg,
      deref w m !! "path" = Some path
      ∧ resize_by_short_edge E
          (os_path_join (root_folder (self w)) [py_str path])
          (frame_size (self w)) = inl (ImageNotFound msg).
Proof.
  intros Hc. split.
  - intros H. unfold is_skipped, acquisition_of in H. rewrite Hc in H.
    unfold getitem at 1 in H.
    destruct (deref w m !! "path") as [path|] eqn:Hp; [|done].
    destruct (resize_by_short_edge E _ _) as [e|img] eqn:Hr.
    + destruct e; try done. by exists path, msg.
    + by destruct (getitem _ "id").
  - intros (path & msg & Hp & Hr). unfold is_skipped, acquisition_of.
    rewrite Hc. unfold getitem at 1. by rewrite Hp, Hr.
Qed.

(** C7. When the image of a record is not found, the image-list generator
    prints the message and goes on with the next record, so that a consumer
    sees the sequence without that record; an exception that is not
    [ImageNotFound] ends it. In the three other adapters whatever a
    collaborator raises, [ImageNotFound] included, comes out of the call of
    [next] that reached the record: the generator is finished, the consumer
    gets no further result and no label file is written. This holds of the
    first call of [next] on a generator that [iter_data] returned, whose
    slice begins with the record, as of every later call. Over a whole pass
    from [iter_data] on a constructed adapter: the image-list adapter, when
    no record fails otherwise, yields the records of the slice whose image
    is found, prints one line for each of the others and writes the label
    file; each of the other adapters stops at the first record that fails,
    with its exception and without the label file. *)
Theorem only_image_list_skips_missing_images (E : Env) (w : world)
    (g : gen_state) (meta : nat) (rest : list nat) (n : nat) :
  reaches g w meta rest →
  (cls (self w) = ImageList →
     ∀ path,
       deref w meta !! "path" = Some path →
       let img_path := os_path_join (root_folder (self w)) [py_str path] in
       (∀ msg,
          resize_by_short_edge E img_path (frame_size (self w))
            = inl (ImageNotFound msg) →
          gen_next E g w
            = gen_next E (GenSuspended rest) (print msg (entered g w))
          ∧ consume E (S n) g w
            = consume E (S n) (GenSuspended rest) (print msg (entered g w)))
       ∧ (∀ e,
            resize_by_short_edge E img_path (frame_size (self w)) = inl e →
            (∀ msg, e ≠ ImageNotFound msg) →
            consume E (S n) g w = ([], Raised e, GenFinished, entered g w)))
  ∧ (cls (self w) = JsonVideo →
       ∀ e, Custom20BNJsonVideoAdapter.body E w meta = inl e →
            consume E (S n) g w = ([], Raised e, GenFinished, w))
  ∧ (cls (self w) = CsvJpeg →
       ∀ e, Custom20BNCsvJpegAdapter.body E w meta = inl e →
            consume E (S n) g w = ([], Raised e, GenFinished, w))
  ∧ (cls (self w) = ImageFolder →
       ∀ e, ImageFolderAdapter.body E w meta = inl e →
            consume E (S n) g w = ([], Raised e, GenFinished, w))
  ∧ (cls (self w) = ImageFolder →
       ∀ path id e,
         deref w meta !! "path" = Some path → deref w meta !! "id" = Some id →
         resize_by_short_edge E
           (os_path_join (folder (self w)) [py_str path; py_str id])
           (frame_size (self w)) = inl e →
         ImageFolderAdapter.body E w meta = inl e)
  ∧ (cls (self w) = CsvJpeg →
       ∀ id frame_paths e,
         deref w meta !! "id" = Some id →
         find_images_in_folder E
           (os_path_join (folder (self w)) [py_str id]) ["jpg"]
           = inr frame_paths →
         resize_images E frame_paths (frame_size (self w)) = inl e →
         Custom20BNCsvJpegAdapter.body E w meta = inl e)
  ∧ (cls (self w) = JsonVideo →
       ∀ id video_path temp_dir frame_paths e,
         deref w meta !! "id" = Some id →
         get_single_video_path E
           (os_path_join (folder (self w)) [py_str id]) "mp4" = inr video_path →
         temp_dir_for_bursting E (shm_dir_path (self w)) = inr temp_dir →
         burst_video_into_frames E video_path temp_dir (frame_rate (self w))
           = inr frame_paths →
         resize_images E frame_paths (frame_size (self w)) = inl e →
         Custom20BNJsonVideoAdapter.body E w meta = inl e)
  ∧ (cls (self w) = ImageList →
     ∀ m, is_skipped E w m = true
          ↔ ∃ path msg,
              deref w m !! "path" = Some path
              ∧ resize_by_short_edge E
                  (os_path_join (root_folder (self w)) [py_str path])
                  (frame_size (self w)) = inl (ImageNotFound msg))
  ∧ (∀ call s metas,
       construct E call = inr w →
       list_getslice (all_meta (self w)) (slice_or_default s w) = inr metas →
       let '(rs, e, _, w') := drain E (iter_data s) w in
       (cls (self w) = ImageList →
        (∀ m, m ∈ metas → is_failed E w m = false) →
        r_meta <$> rs = filter (λ m, is_skipped E w m = false) metas
        ∧ stdout w' = omap (skip_message E w) metas
        ∧ (open_write E (label_file (self w)).1 = inr tt →
           e = Exhausted ∧ files w' = [label_file (self w)]))
       ∧ (cls (self w) ≠ ImageList →
          ∀ pre m post err,
            metas = pre ++ m :: post →
            (∀ m', m' ∈ pre → is_failed E w m' = false) →
            acquire E w m = inl err →
            r_meta <$> rs = pre ∧ e = Raised err ∧ files w' = [])).
Proof.
  intros Hreach.
  destruct (entered_effect g w) as (Hcfg & Hheap & _ & _ & Hplain).
  pose proof (same_config_fields _ _ Hcfg)
    as (Hcls & _ & _ & _ & Hroot & Hsize & _).
  assert (Hraise : cls (self w) ≠ ImageList →
            ∀ e, acquire E w meta = inl e →
                 consume E (S n) g w = ([], Raised e, GenFinished, w)).
  { intros Hc e He. rewrite (consume_entered E n g w meta rest Hreach).
    rewrite (Hplain Hc). by apply plain_raise_step. }
  split_and!.
  - intros Hc path Hp img_path.
    assert (Hp1 : deref (entered g w) meta !! "path" = Some path)
      by (by rewrite (deref_same_heap (entered g w) w)).
    split.
    + intros msg Hr.
      assert (Hstep : gen_next E g w
                = gen_next E (GenSuspended rest) (print msg (entered g w))).
      { rewrite (gen_next_entered E g w meta rest Hreach).
        apply (il_skip_step E _ meta rest path msg); [congruence|done|].
        by rewrite Hroot, Hsize. }
      split; [done|]. cbn [consume]. by rewrite Hstep.
    + intros e He Hne.
      rewrite (consume_entered E n g w meta rest Hreach).
      apply (il_raise_step E n _ meta rest path e); [congruence|done| |done].
      by rewrite Hroot, Hsize.
  - intros Hc e He. apply Hraise; [congruence|].
    unfold acquire. by rewrite Hc.
  - intros Hc e He. apply Hraise; [congruence|].
    unfold acquire. by rewrite Hc.
  - intros Hc e He. apply Hraise; [congruence|].
    unfold acquire. by rewrite Hc.
  - intros _ path id e Hp Hi He. unfold ImageFolderAdapter.body, getitem.
    rewrite Hp, Hi. cbn -[os_path_join]. by rewrite He.
  - intros _ id fps e Hi Hf He. unfold Custom20BNCsvJpegAdapter.body, getitem.
    rewrite Hi. cbn -[os_path_join]. rewrite Hf. cbn -[os_path_join].
    by rewrite He.
  - intros _ id vp td fps e Hi Hv Ht Hb He.
    unfold Custom20BNJsonVideoAdapter.body, getitem.
    rewrite Hi. cbn -[os_path_join]. rewrite Hv. cbn -[os_path_join].
    rewrite Ht. cbn -[os_path_join]. rewrite Hb. cbn -[os_path_join].
    by rewrite He.
  - intros Hc m. by apply is_skipped_image_list.
  - intros call s metas Hcon Hs.
    pose proof (constructed_slice_NoDup E call w _ metas Hcon Hs) as Hnd.
    pose proof (drain_prints E call w s metas Hcon Hs) as Hprints.
    apply construct_spec in Hcon as [(_ & _ & Hfiles & _) _].
    pose proof (drain_expected E s w metas Hs Hnd) as Hrun.
    pose proof (consume_effect E (S (gen_bound (iter_data s) w))
                  (iter_data s) w) as Heff.
    unfold drain in *.
    destruct (consume E _ (iter_data s) w) as [[[rs e] g'] w'].
    simpl in Hprints. destruct Hrun as [Hrs He], Heff as (_ & Hf & _).
    rewrite Hfiles in Hf. simpl in Hf. split.
    + intros Hc Hok.
      rewrite expected_run_no_failure in Hrs, He by done.
      cbn [fst snd] in Hrs, He.
      destruct (expected_prints_no_failure E w metas Hok) as [Heq _].
      split; [done|]. split; [by rewrite Hprints|].
      intros Hw. unfold expected_ending in He. rewrite Hw in He.
      subst e. done.
    + intros Hc pre m post err -> Hpre Hm.
      apply acquire_failed in Hm; [|done].
      rewrite (expected_run_failed E w pre m post err Hpre Hm) in Hrs, He.
      cbn [fst snd] in Hrs, He. unfold expected_ending in He. subst e.
      split; [|done]. rewrite Hrs. apply filter_all, Forall_forall.
      intros m' _. by apply is_skipped_plain.
Qed.

Lemma only_image_list_skips_missing_images_witness :
  let w := world_of (construct list_missing_env
                       (NewImageList "list.txt" "out" "root" false (-1))) in
  reaches (iter_data None) w 0 [1]
  ∧ consume list_missing_env 3 (iter_data None) w
    = consume list_missing_env 3 (GenSuspended [1])
        (print "Image not found: root/imgs/a.jpg" (entered (iter_data None) w))
  ∧ let '(rs, e, _, w') := consume list_missing_env 3 (iter_data None) w in
    r_meta <$> rs = [1] ∧ e = Exhausted
    ∧ stdout w' = ["Image not found: root/imgs/a.jpg"].
Proof.
  cbv zeta.
  assert (Hr : reaches (iter_data None)
                 (world_of (construct list_missing_env
                    (NewImageList "list.txt" "out" "root" false (-1))))
                 0 [1]) by (vm_compute; reflexivity).
  split; [exact Hr|].
  destruct (only_image_list_skips_missing_images list_missing_env
              (world_of (construct list_missing_env
                 (NewImageList "list.txt" "out" "root" false (-1))))
              (iter_data None) 0 [1] 2 Hr) as (H & _).
  destruct (H eq_refl (PStr "imgs/a.jpg") eq_refl) as (Hskip & _).
  destruct (Hskip "Image not found: root/imgs/a.jpg" eq_refl) as (_ & Heq).
  split; [exact Heq|].
  vm_compute. repeat split.
Defined.

(** ** Iterating over an image list again, with other collaborators *)

Lemma settled_is_skipped E w m :
  cls (self w) = ImageList → is_Some (path_of w m) → settled E w m →
  is_skipped E w m = true.
Proof.
  intros Hc [path Hp] Hs. unfold settled in Hs. rewrite Hp in Hs.
  destruct Hs as [msg Hmsg].
  apply is_skipped_image_list; [done|]. by exists path, msg.
Qed.

Lemma path_gone_failed E w m :
  cls (self w) = ImageList → path_of w m = None →
  acquisition_of E w m = Failed (KeyError "path").
Proof.
  intros Hc Hp. unfold acquisition_of, getitem. rewrite Hc.
  unfold path_of in Hp. by rewrite Hp.
Qed.

Lemma not_failed_has_path E w m :
  cls (self w) = ImageList → is_failed E w m = false →
  is_Some (path_of w m).
Proof.
  intros Hc Hf. destruct (path_of w m) as [path|] eqn:Hp; [by eexists|].
  unfold is_failed in Hf. by rewrite (path_gone_failed E w m Hc Hp) in Hf.
Qed.

(** C10. On an image-list adapter, every record that
    [iter_data] has yielded has lost the [path] entry it had, in the
    MetaRecord that the adapter's [all_meta] holds; so once a first
    iteration (with any slice) has been drained and has yielded at least one
    result, draining a second [iter_data] whose slice selects a record
    yielded before, and [iter_data()] with no slice always does, yields no
    result and raises [KeyError('path')], and nothing is written. With
    collaborators that behave otherwise in the second pass, the second pass
    still never ends normally and writes nothing: it raises
    [KeyError('path')], or the exception of a record that the first pass
    skipped and that fails now; the results it yields before are of records
    that the first pass skipped and whose image is found now. *)
Theorem image_list_second_iteration_fails (E : Env)
    (input_file output_folder root_folder : string) (shuffle : bool)
    (img_size : Z) (w : world) (slice_element : option pyslice) :
  ImageListAdapter.init E input_file output_folder root_folder shuffle
    img_size = inr w →
  let '(rs1, e1, _, w1) := drain E (iter_data slice_element) w in
  e1 = Exhausted → rs1 ≠ [] →
  (∀ r, r ∈ rs1 →
        is_Some (deref w (r_meta r) !! "path")
        ∧ deref w1 (r_meta r) !! "path" = None
        ∧ r_meta r ∈ all_meta (self w1))
  ∧ (∀ slice_element2 metas2,
       list_getslice (all_meta (self w1)) (slice_or_default slice_element2 w1)
         = inr metas2 →
       (∃ r, r ∈ rs1 ∧ r_meta r ∈ metas2) →
       ∃ w2, drain E (iter_data slice_element2) w1
             = ([], Raised (KeyError "path"), GenFinished, w2)
             ∧ files w2 = files w1)
  ∧ (∃ w2, drain E (iter_data None) w1
           = ([], Raised (KeyError "path"), GenFinished, w2)
           ∧ files w2 = files w1)
  ∧ (∀ E2 slice_element2 metas2,
       list_getslice (all_meta (self w1)) (slice_or_default slice_element2 w1)
         = inr metas2 →
       (∃ r, r ∈ rs1 ∧ r_meta r ∈ metas2) →
       let '(rs2, e2, g2, w2) := drain E2 (iter_data slice_element2) w1 in
       g2 = GenFinished ∧ files w2 = files w1
       ∧ (∃ err, e2 = Raised err
                 ∧ (err = KeyError "path"
                    ∨ ∃ m, m ∈ metas2 ∧ is_skipped E w1 m = true
                           ∧ acquisition_of E2 w1 m = Failed err))
       ∧ (∀ r, r ∈ rs2 →
               is_skipped E w1 (r_meta r) = true
               ∧ is_skipped E2 w1 (r_meta r) = false
               ∧ r_meta r ∉ r_meta <$> rs1)
       ∧ ((∀ m, m ∈ metas2 → is_skipped E w1 m = true →
                is_skipped E2 w1 m = true) →
          rs2 = [] ∧ e2 = Raised (KeyError "path"))).
Proof.
  intros Hinit.
  pose proof (image_list_init_class _ _ _ _ _ _ _ Hinit) as Hcls.
  apply (construct_spec E (NewImageList _ _ _ _ _)) in Hinit as [Hwf _].
  destruct (well_formed_all_meta w Hwf) as [Hndall Hlen].
  unfold drain at 1. unfold iter_data at 1 2. cbn [gen_bound].
  destruct (list_getslice (all_meta (self w)) (slice_or_default slice_element w))
    as [e|metas] eqn:Hslice.
  { cbn [consume]. rewrite (gen_next_created_error _ _ _ _ Hslice). done. }
  assert (Hndslice : NoDup metas)
    by (by eapply list_getslice_NoDup).
  destruct (consume_created E (length metas) _ _ _ Hslice)
    as (wa & -> & Hcfg & Hheap & _ & _ & _ & Hmetas).
  specialize (Hmetas Hcls).
  assert (Hcls_a : cls (self wa) = ImageList).
  { apply same_config_fields in Hcfg as (-> & _). done. }
  destruct (consume E (S (length metas)) (GenSuspended metas) wa)
    as [[[rs1 e1] g1] w1] eqn:Hrun.
  intros -> Hrs.
  apply image_list_pass_settles in Hrun as (Hself & Hpops & Hset & Hyield);
    [|done].
  assert (Hall1 : all_meta (self w1) = metas) by (by rewrite Hself).
  assert (Hcfg1 : same_config (self w1) (self w)) by (by rewrite Hself).
  assert (Hcls1 : cls (self w1) = ImageList) by (by rewrite Hself).
  assert (Hsecond : ∀ slice_element2 metas2,
    list_getslice (all_meta (self w1)) (slice_or_default slice_element2 w1)
      = inr metas2 →
    (∃ r, r ∈ rs1 ∧ r_meta r ∈ metas2) →
    ∃ w2, drain E (iter_data slice_element2) w1
          = ([], Raised (KeyError "path"), GenFinished, w2)
          ∧ files w2 = files w1).
  { intros s2 metas2 Hs2 (r & Hr & Hin).
    unfold drain, iter_data. cbn [gen_bound]. rewrite Hs2.
    destruct (consume_created E (length metas2) _ _ _ Hs2)
      as (wb & -> & Hcfgb & Hheapb & Hfilesb & _).
    assert (Hpopsb : pops w1 wb).
    { split; [done|]. intros m. left. unfold path_of.
      by rewrite (deref_same_heap wb w1). }
    destruct (image_list_pass_fails E metas2 wb) as (w2 & Hloop & _ & _ & Hf).
    - intros m Hm. apply (settled_pops E w1); [done|]. apply Hset.
      rewrite <- Hall1. by eapply list_getslice_elem_of.
    - exists (r_meta r). split; [done|].
      apply (path_gone_pops w1); [done|]. by apply Hyield.
    - exists w2. split; [|congruence].
      cbn [consume]. rewrite gen_next_image_list.
      + by rewrite Hloop.
      + apply same_config_fields in Hcfgb as (-> & _).
        by apply same_config_fields in Hcfg1 as (-> & _). }
  split; [|split; [done|split]].
  - intros r Hr. destruct (Hyield r Hr) as [Hgone Hin].
    split; [|split; [done|by rewrite Hall1]].
    apply (well_formed_path w); [done|by rewrite Hcls|].
    by eapply list_getslice_elem_of.
  - apply (Hsecond None metas).
    + rewrite Hall1. apply list_getslice_default.
      rewrite (same_config_py_len _ _ Hcfg1), <- Hlen.
      by eapply list_getslice_length.
    + destruct rs1 as [|r rs1]; [done|].
      exists r. split; [by left|]. by apply Hyield; left.
  - intros E2 s2 metas2 Hs2 (r & Hr & Hin).
    assert (Hsub : ∀ m, m ∈ metas2 → m ∈ metas).
    { intros m Hm. rewrite <- Hall1. by eapply list_getslice_elem_of. }
    assert (Hnd2 : NoDup metas2).
    { eapply list_getslice_NoDup; [exact Hs2|]. by rewrite Hall1. }
    assert (Hskip1 : ∀ m, m ∈ metas2 → is_Some (path_of w1 m) →
                          is_skipped E w1 m = true).
    { intros m Hm Hp. apply settled_is_skipped; [done..|].
      apply Hset. by apply Hsub. }
    pose proof (drain_expected E2 s2 w1 metas2 Hs2 Hnd2) as Hexp.
    pose proof (consume_effect E2 (S (gen_bound (iter_data s2) w1))
                  (iter_data s2) w1) as Heff.
    pose proof (drain_ends E2 (iter_data s2) w1) as Hends.
    pose proof (expected_run_cases E2 w1 metas2) as Hcases.
    unfold drain in *.
    destruct (consume E2 _ (iter_data s2) w1) as [[[rs2 e2] g2] w2].
    simpl in Hends. destruct Hexp as [Hrs2 He2], Heff as (_ & Hf & Hg).
    destruct (expected_run E2 w1 metas2) as [ms oe]. cbn [fst snd] in *.
    subst ms.
    destruct (Hyield r Hr) as [Hgone _].
    pose proof (path_gone_failed E2 w1 (r_meta r) Hcls1 Hgone) as Hfail.
    destruct oe as [err|].
    2: { destruct Hcases as [Hall _]. specialize (Hall _ Hin).
         unfold is_failed in Hall. by rewrite Hfail in Hall. }
    destruct Hcases as (pre & m & post & -> & Hpre & Hm & Hms).
    unfold expected_ending in He2. subst e2.
    assert (Hpre_path : ∀ m', m' ∈ pre → is_Some (path_of w1 m')).
    { intros m' Hm'. apply (not_failed_has_path E2); [done|]. by apply Hpre. }
    split; [done|]. split; [by rewrite Hf, app_nil_r|].
    split_and!.
    + exists err. split; [done|].
      destruct (path_of w1 m) as [path|] eqn:Hp.
      * right. exists m. split; [apply elem_of_app; right; by left|].
        split; [|done]. apply Hskip1; [|by rewrite Hp].
        apply elem_of_app; right; by left.
      * left. rewrite (path_gone_failed E2 w1 m Hcls1 Hp) in Hm. congruence.
    + intros r2 Hr2.
      assert (Hin2 : r_meta r2 ∈ filter (λ m, is_skipped E2 w1 m = false) pre).
      { rewrite <- Hms. by apply list_elem_of_fmap_2. }
      apply list_elem_of_filter in Hin2 as [Hns Hin2].
      split_and!; [|done|].
      * apply Hskip1; [apply elem_of_app; by left|by apply Hpre_path].
      * intros (r1 & Heq & Hr1)%list_elem_of_fmap.
        destruct (Hyield r1 Hr1) as [Hg1 _]. rewrite <- Heq in Hg1.
        destruct (Hpre_path _ Hin2) as [? ?]. congruence.
    + intros Hsame.
      assert (filter (λ m, is_skipped E2 w1 m = false) pre = []) as Hnil.
      { apply filter_none, Forall_forall. intros m' Hm' Hns.
        rewrite Hsame in Hns; [done|apply elem_of_app; by left|].
        apply Hskip1; [apply elem_of_app; by left|by apply Hpre_path]. }
      rewrite Hnil in Hms. apply fmap_nil_inv in Hms. split; [done|].
      destruct (path_of w1 m) as [path|] eqn:Hp.
      * exfalso.
        assert (is_skipped E2 w1 m = true) as Hsk.
        { apply Hsame; [apply elem_of_app; right; by left|].
          apply Hskip1; [apply elem_of_app; right; by left|by rewrite Hp]. }
        unfold is_skipped in Hsk. by rewrite Hm in Hsk.
      * rewrite (path_gone_failed E2 w1 m Hcls1 Hp) in Hm. congruence.
Qed.

Lemma image_list_second_iteration_fails_witness :
  ImageListAdapter.init list_missing_env "list.txt" "out" "root" false (-1)
    = inr list_example_world
  ∧ let '(rs1, e1, _, w1) :=
      drain list_missing_env (iter_data None) list_example_world in
    r_meta <$> rs1 = [1] ∧ e1 = Exhausted
    ∧ (∃ w2, drain list_missing_env (iter_data None) w1
             = ([], Raised (KeyError "path"), GenFinished, w2)
             ∧ files w2 = files w1)
    ∧ let '(rs2, e2, _, _) := drain list_example_env (iter_data None) w1 in
      r_meta <$> rs2 = [0] ∧ e2 = Raised (KeyError "path").
Proof.
  assert (H1 : ImageListAdapter.init list_missing_env "list.txt" "out" "root"
                 false (-1) = inr list_example_world)
    by (vm_compute; reflexivity).
  split; [exact H1|].
  pose proof (image_list_second_iteration_fails list_missing_env _ _ _ _ _ _
                None H1) as H.
  destruct (drain list_missing_env (iter_data None) list_example_world)
    as [[[rs1 e1] g1] w1] eqn:Hrun.
  vm_compute in Hrun. injection Hrun as <- <- _ <-.
  split; [reflexivity|]. split; [reflexivity|].
  split; [apply H; [reflexivity|discriminate]|].
  vm_compute. split; reflexivity.
Defined.
